(** * bvh_binary.h: AABB, MiniRay, Node and the Morton encoder of the LBVH

    A shallow embedding of [src/bvh_binary.h].  A C++ [float] is an IEEE-754
    binary32 number, modelled by [spec_float] with precision 24 and maximal
    exponent 128; every operation on floats is rounded to binary32, to
    nearest with ties to even, with no intermediate result kept in a wider
    format.  A [uint32_t] is a [Z] whose wrap-around is written out. *)

From Stdlib Require Import ZArith Bool List Lia SpecFloat.
Import ListNotations.
Local Open Scope Z_scope.

(** ** binary32 arithmetic *)

Module Float32.

Definition prec : Z := 24.
Definition emax : Z := 128.

Definition float : Type := spec_float.

Definition valid (f : float) : bool := valid_binary prec emax f.

Definition fadd (a b : float) : float := SFadd prec emax a b.
Definition fsub (a b : float) : float := SFsub prec emax a b.
Definition fmul (a b : float) : float := SFmul prec emax a b.
Definition fdiv (a b : float) : float := SFdiv prec emax a b.

(** The comparison operators of C++ on floats: false when an operand is NaN. *)
Definition flt (a b : float) : bool := SFltb a b.
Definition fle (a b : float) : bool := SFleb a b.
Definition feq (a b : float) : bool := SFeqb a b.

(** A literal with an integral value, such as [1024.0f]. *)
Definition of_Z (n : Z) : float := binary_normalize prec emax n 0 false.

Definition zero : float := S754_zero false.
Definition one : float := of_Z 1.
Definition pinf : float := S754_infinity false.
Definition ninf : float := S754_infinity true.
Definition nan : float := S754_nan.

Definition is_nan (f : float) : bool :=
  match f with S754_nan => true | _ => false end.

Definition is_inf (f : float) : bool :=
  match f with S754_infinity _ => true | _ => false end.

Definition is_zero (f : float) : bool :=
  match f with S754_zero _ => true | _ => false end.

Definition is_finite (f : float) : bool :=
  match f with S754_zero _ | S754_finite _ _ _ => true | _ => false end.

Definition sign_bit (f : float) : bool :=
  match f with
  | S754_zero s | S754_infinity s | S754_finite s _ _ => s
  | S754_nan => false
  end.

(** [std::numeric_limits<float>::max()] and [lowest()]. *)
Definition max_value : float := SFmax_float prec emax.
Definition lowest : float := SFopp max_value.

(** The conversion [(uint32_t)f]: truncation toward zero; [None] where C++
    leaves the conversion undefined (NaN, infinities, values whose
    truncation is not a [uint32_t]). *)
Definition truncate (f : float) : option Z :=
  match f with
  | S754_zero _ => Some 0
  | S754_finite s m e =>
      let t := if 0 <=? e then Z.shiftl (Zpos m) e else Z.shiftr (Zpos m) (- e) in
      if s then (if t =? 0 then Some 0 else None)
      else if t <? 2 ^ 32 then Some t else None
  | _ => None
  end.

End Float32.

Import Float32.

(** ** The view of a float as its 32-bit pattern *)

Definition sign_field (s : bool) : Z := if s then 2 ^ 31 else 0.

(** [to_uint]: the 32 bits of a float ([memcpy] into a [uint32_t]), for a
    float that is [valid].  The one NaN of [spec_float] is given the pattern
    of the quiet NaN. *)
Definition to_uint (f : float) : Z :=
  match f with
  | S754_zero s => sign_field s
  | S754_infinity s => sign_field s + 255 * 2 ^ 23
  | S754_nan => 255 * 2 ^ 23 + 2 ^ 22
  | S754_finite s m e =>
      sign_field s +
      (if Zpos m <? 2 ^ 23 then Zpos m
       else (e + 150) * 2 ^ 23 + (Zpos m - 2 ^ 23))
  end.

(** [to_float]: the float with the given 32 bits. *)
Definition to_float (ui : Z) : float :=
  let s := Z.testbit ui 31 in
  let e := (ui / 2 ^ 23) mod 2 ^ 8 in
  let m := ui mod 2 ^ 23 in
  if e =? 0 then
    match m with
    | Zpos p => S754_finite s p (-149)
    | _ => S754_zero s
    end
  else if e =? 255 then
    (if m =? 0 then S754_infinity s else S754_nan)
  else
    match m + 2 ^ 23 with
    | Zpos p => S754_finite s p (e - 150)
    | _ => S754_nan
    end.

(** The three constants at the head of the file. *)
Definition maximum : float := max_value.
Definition minimum : float := lowest.
Definition invalid : Z := 2 ^ 32 - 1.

(** ** glm::vec3 and the glm functions the file uses *)

Module glm.

Record vec3 : Type := mk_vec3 { x : float; y : float; z : float }.

(** [glm::vec3(s)] *)
Definition splat (s : float) : vec3 := mk_vec3 s s s.

(** [v[i]] and [v[i] = s] for [i] in 0..2 *)
Definition get (v : vec3) (i : nat) : float :=
  match i with O => x v | S O => y v | _ => z v end.

Definition set (v : vec3) (i : nat) (s : float) : vec3 :=
  match i with
  | O => mk_vec3 s (y v) (z v)
  | S O => mk_vec3 (x v) s (z v)
  | _ => mk_vec3 (x v) (y v) s
  end.

Definition map2 (f : float -> float -> float) (a b : vec3) : vec3 :=
  mk_vec3 (f (x a) (x b)) (f (y a) (y b)) (f (z a) (z b)).

(** [glm::min(a, b)] is [(b < a) ? b : a] and [glm::max(a, b)] is
    [(a < b) ? b : a]; [std::min] and [std::max] are the same. *)
Definition min (a b : float) : float := if flt b a then b else a.
Definition max (a b : float) : float := if flt a b then b else a.

Definition vmin : vec3 -> vec3 -> vec3 := map2 min.
Definition vmax : vec3 -> vec3 -> vec3 := map2 max.
Definition vsub : vec3 -> vec3 -> vec3 := map2 fsub.
Definition vdiv : vec3 -> vec3 -> vec3 := map2 fdiv.

End glm.

Import glm.

(** ** MiniRay *)

(** [Inverse] is a [static thread_local] member: one vector for each thread,
    shared by every [MiniRay] the thread handles. *)
Record ThreadLocals : Type := mk_tls { MiniRay_Inverse : vec3 }.

Record MiniRay : Type := mk_ray { Position : vec3; Direction : vec3 }.

(** [ray.Inverse] read and written through an instance. *)
Definition get_Inverse (tls : ThreadLocals) (ray : MiniRay) : vec3 :=
  MiniRay_Inverse tls.


(** ** std::atomic<uint32_t> under a schedule *)

Module Atomic.

(** What happens to a cell between the moment a thread read its expected
    value and the moment its exchange executes. *)
Inductive event : Type :=
| Quiet                (* nothing *)
| Spurious             (* the weak exchange fails though the values agree *)
| Store (w : Z).       (* another thread stored [w] *)

(** [cell.compare_exchange_weak(expected, desired)]: the result, the cell
    and [expected] afterwards. *)
Definition compare_exchange_weak (ev : event) (cell expected desired : Z)
  : bool * Z * Z :=
  let cur := match ev with Store w => w | _ => cell end in
  match ev with
  | Spurious => (false, cur, cur)
  | _ => if cur =? expected then (true, desired, expected)
         else (false, cur, cur)
  end.

End Atomic.

Import Atomic.

(** ** AABB *)

Record AABB : Type := mk_AABB { Min : vec3; Max : vec3 }.

(** The unions: [AtomicMin[i]] and [AtomicMax[i]] are the bits of [Min[i]]
    and [Max[i]]. *)
Definition AtomicMin (b : AABB) (i : nat) : Z := to_uint (get (Min b) i).
Definition AtomicMax (b : AABB) (i : nat) : Z := to_uint (get (Max b) i).

Definition set_AtomicMin (b : AABB) (i : nat) (ui : Z) : AABB :=
  mk_AABB (set (Min b) i (to_float ui)) (Max b).
Definition set_AtomicMax (b : AABB) (i : nat) (ui : Z) : AABB :=
  mk_AABB (Min b) (set (Max b) i (to_float ui)).

(** The loop of [update_min]; [fuel] bounds the evaluations of its
    condition, [sched] gives the event met by each exchange ([Quiet] once the
    list is used up).  The result is the cell when the loop is left. *)
Fixpoint update_min_loop (fuel : nat) (sched : list event)
    (min_value old_value value : Z) : option Z :=
  match fuel with
  | O => None
  | S fuel' =>
      if value <? old_value then
        let '(ok, cell, old) :=
          compare_exchange_weak (hd Quiet sched) min_value old_value value in
        if ok then Some cell
        else update_min_loop fuel' (tl sched) cell old value
      else Some min_value
  end.

Definition update_min (fuel : nat) (sched : list event) (min_value value : Z)
  : option Z :=
  update_min_loop fuel sched min_value min_value value.

Fixpoint update_max_loop (fuel : nat) (sched : list event)
    (max_value old_value value : Z) : option Z :=
  match fuel with
  | O => None
  | S fuel' =>
      if old_value <? value then
        let '(ok, cell, old) :=
          compare_exchange_weak (hd Quiet sched) max_value old_value value in
        if ok then Some cell
        else update_max_loop fuel' (tl sched) cell old value
      else Some max_value
  end.

Definition update_max (fuel : nat) (sched : list event) (max_value value : Z)
  : option Z :=
  update_max_loop fuel sched max_value max_value value.

(** The same two loops as atomic steps of several threads on one cell. *)

(** Where a thread stands in [update_min] or [update_max]: before the load
    of [old_value], at the condition of the loop, or past the loop. *)
Inductive thread : Type :=
| Entry (value : Z)
| Retry (value old_value : Z)
| Done.

(** One atomic step of a thread in [update_min]: the load of [old_value],
    or one evaluation of the condition of the loop with its exchange, which
    [spurious] makes fail. *)
Definition step_min (spurious : bool) (cell : Z) (t : thread) : Z * thread :=
  match t with
  | Entry value => (cell, Retry value cell)
  | Retry value old_value =>
      if value <? old_value then
        let '(ok, cell', old') :=
          compare_exchange_weak (if spurious then Spurious else Quiet)
                                cell old_value value in
        (cell', if ok then Done else Retry value old')
      else (cell, Done)
  | Done => (cell, Done)
  end.

(** The same for [update_max]. *)
Definition step_max (spurious : bool) (cell : Z) (t : thread) : Z * thread :=
  match t with
  | Entry value => (cell, Retry value cell)
  | Retry value old_value =>
      if old_value <? value then
        let '(ok, cell', old') :=
          compare_exchange_weak (if spurious then Spurious else Quiet)
                                cell old_value value in
        (cell', if ok then Done else Retry value old')
      else (cell, Done)
  | Done => (cell, Done)
  end.

Fixpoint set_nth {A : Type} (i : nat) (a : A) (l : list A) : list A :=
  match l, i with
  | [], _ => []
  | _ :: l', O => a :: l'
  | b :: l', S i' => b :: set_nth i' a l'
  end.

(** The cell and the threads after thread [i] took one step. *)
Definition step_thread (step : bool -> Z -> thread -> Z * thread)
    (st : Z * list thread) (c : nat * bool) : Z * list thread :=
  let '(cell, ts) := st in
  let '(i, spurious) := c in
  match nth_error ts i with
  | Some t => let '(cell', t') := step spurious cell t in (cell', set_nth i t' ts)
  | None => (cell, ts)
  end.

(** An interleaving: the thread that steps, each time, and whether its
    exchange fails spuriously. *)
Definition run (step : bool -> Z -> thread -> Z * thread)
    (sched : list (nat * bool)) (cell : Z) (ts : list thread)
  : Z * list thread :=
  fold_left (step_thread step) sched (cell, ts).

Definition all_done (ts : list thread) : bool :=
  forallb (fun t => match t with Done => true | _ => false end) ts.

Definition Initialize (b : AABB) : AABB :=
  mk_AABB (splat maximum) (splat minimum).

(** [Expand(const glm::vec3 &p)] *)
Definition Expand (b : AABB) (p : vec3) : AABB :=
  mk_AABB (vmin p (Min b)) (vmax p (Max b)).

(** One round of the loop of [Expand(const AABB &box)], run by a thread that
    meets no other writer. *)
Definition ExpandBox_step (fuel : nat) (box : AABB) (acc : option AABB)
    (i : nat) : option AABB :=
  match acc with
  | None => None
  | Some b =>
      match update_min fuel [] (AtomicMin b i) (AtomicMin box i) with
      | None => None
      | Some lo =>
          let b1 := set_AtomicMin b i lo in
          match update_max fuel [] (AtomicMax b1 i) (AtomicMax box i) with
          | None => None
          | Some hi => Some (set_AtomicMax b1 i hi)
          end
      end
  end.

(** [Expand(const AABB &box)] *)
Definition ExpandBox (fuel : nat) (b box : AABB) : option AABB :=
  fold_left (ExpandBox_step fuel box) [0%nat; 1%nat; 2%nat] (Some b).

Definition Nomalize (b : AABB) (p : vec3) : vec3 :=
  vdiv (vsub p (Min b)) (vsub (Max b) (Min b)).

Definition HalvedSurface (b : AABB) : float :=
  let w := vmax (splat zero) (vsub (Max b) (Min b)) in
  fadd (fadd (fmul (get w 0) (get w 1)) (fmul (get w 1) (get w 2)))
       (fmul (get w 2) (get w 0)).

(** The crossing distance of one axis: [(face - position) * inverse]. *)
Definition crossing (face position inverse : float) : float :=
  fmul (fsub face position) inverse.

(** [Intersect(ray, min, length)]: the result and the value left in [min]. *)
Definition Intersect (tls : ThreadLocals) (b : AABB) (ray : MiniRay)
    (length : float) : bool * float :=
  let inv := get_Inverse tls ray in
  let pos := Position ray in
  let x0 := crossing (if flt zero (x inv) then x (Min b) else x (Max b)) (x pos) (x inv) in
  let y0 := crossing (if flt zero (y inv) then y (Min b) else y (Max b)) (y pos) (y inv) in
  let z0 := crossing (if flt zero (z inv) then z (Min b) else z (Max b)) (z pos) (z inv) in
  let min := max z0 (max x0 y0) in
  let x1 := crossing (if flt zero (x inv) then x (Max b) else x (Min b)) (x pos) (x inv) in
  let y1 := crossing (if flt zero (y inv) then y (Max b) else y (Min b)) (y pos) (y inv) in
  let z1 := crossing (if flt zero (z inv) then z (Max b) else z (Min b)) (z pos) (z inv) in
  let max := glm.min z1 (glm.min x1 y1) in
  (fle min max && flt zero max && flt min length, min).

(** ** Node *)

Record Node : Type := mk_Node { Box : AABB; L : Z; R : Z }.

(** [Node()]: the member initialisers, then the six stores of the body.  The
    box starts from an arbitrary content [garbage] ([AABB() = default]). *)
Definition Node_ctor (garbage : AABB) : Node :=
  let b := set_AtomicMax garbage 0 0 in
  let b := set_AtomicMax b 1 0 in
  let b := set_AtomicMax b 2 0 in
  let b := set_AtomicMin b 0 (to_uint maximum) in
  let b := set_AtomicMin b 1 (to_uint maximum) in
  let b := set_AtomicMin b 2 (to_uint maximum) in
  mk_Node b invalid invalid.

(** ** LBVH: the Morton encoder *)

Definition wrap32 (v : Z) : Z := v mod 2 ^ 32.

Definition expandBits (v : Z) : Z :=
  let v := Z.land (wrap32 (v * 0x00010001)) 0xFF0000FF in
  let v := Z.land (wrap32 (v * 0x00000101)) 0x0F00F00F in
  let v := Z.land (wrap32 (v * 0x00000011)) 0xC30C30C3 in
  let v := Z.land (wrap32 (v * 0x00000005)) 0x49249249 in
  v.

(** The first three lines of [morton3D], for one coordinate. *)
Definition scale_clamp (c : float) : float :=
  glm.min (glm.max (fmul c (of_Z 1024)) zero) (of_Z 1023).

Definition morton3D (x y z : float) : option Z :=
  match truncate (scale_clamp x), truncate (scale_clamp y),
        truncate (scale_clamp z) with
  | Some xi, Some yi, Some zi =>
      let xx := expandBits xi in
      let yy := expandBits yi in
      let zz := expandBits zi in
      Some (wrap32 (wrap32 (wrap32 (xx * 4) + wrap32 (yy * 2)) + zz))
  | _, _, _ => None
  end.

(** ** Definitions used to state the properties *)

(** *** Order and value of floats *)

(** A lexicographic key of a float that is not NaN: class, then exponent,
    then mantissa, the last two negated for negative numbers. *)
Definition key (f : float) : Z * Z * Z :=
  match f with
  | S754_zero _ => (0, 0, 0)
  | S754_infinity s => (if s then -2 else 2, 0, 0)
  | S754_nan => (0, 0, 0)
  | S754_finite s m e => if s then (-1, - e, - Zpos m) else (1, e, Zpos m)
  end.

Definition lex3 (a b : Z * Z * Z) : comparison :=
  let '(a1, a2, a3) := a in
  let '(b1, b2, b3) := b in
  match a1 ?= b1 with
  | Eq => match a2 ?= b2 with Eq => a3 ?= b3 | c => c end
  | c => c
  end.

Definition lex3_lt (a b : Z * Z * Z) : Prop :=
  let '(a1, a2, a3) := a in
  let '(b1, b2, b3) := b in
  a1 < b1 \/ (a1 = b1 /\ (a2 < b2 \/ (a2 = b2 /\ a3 < b3))).

Definition signed (s : bool) (v : Z) : Z := if s then - v else v.

(** The value of a finite number, in units of [2 ^ -149]: every finite
    binary32 number is an integral multiple of [2 ^ -149]. *)
Definition scaled (f : float) : Z :=
  match f with
  | S754_finite s m e => (if s then -1 else 1) * (Zpos m * 2 ^ (e + 149))
  | _ => 0
  end.

(** The numeric minimum and maximum of two numbers. *)
Definition num_min (a b : float) : float := if fle a b then a else b.
Definition num_max (a b : float) : float := if fle a b then b else a.

(** The update of a bound [m] by a coordinate [p], in the words of the
    specification: the numeric minimum (maximum) of the two.  A NaN cannot
    be compared: when one of the two is NaN the coordinate is taken. *)
Definition ref_min (p m : float) : float :=
  if is_nan p || is_nan m then p else num_min p m.

Definition ref_max (p m : float) : float :=
  if is_nan p || is_nan m then p else num_max m p.

(** A finite binary32 number whose sign bit is clear: [+0.0] and the
    positive finite numbers ([-0.0] carries the sign bit). *)
Definition nonneg_finite (f : float) : bool :=
  valid f && is_finite f && negb (sign_bit f).


Definition finite_number (f : float) : bool := valid f && is_finite f.

Definition nonzero_number (f : float) : bool :=
  valid f && is_finite f && negb (is_zero f).

(** A finite number between 0 and 1. *)
Definition unit_interval (f : float) : bool :=
  is_finite f && fle zero f && fle f one.

(** *** Rounding to nearest, ties to even *)

(** [V / 2 ^ k] rounded to the nearest integer, ties to even: the quotient,
    plus one when the remainder is above the half, or is the half and the
    quotient is odd. *)
Definition round_up (k V : Z) : bool :=
  let q := V / 2 ^ k in
  let rem := V mod 2 ^ k in
  (2 ^ k <? 2 * rem) || ((2 ^ k =? 2 * rem) && Z.odd q).

Definition rne_shift (V k : Z) : Z :=
  V / 2 ^ k + (if round_up k V then 1 else 0).

(** The binary32 number of sign [s] and magnitude [m * 2 ^ E], for a
    mantissa [m] of at most 24 digits, or equal to [2 ^ 24]: an infinity when
    the exponent is too large. *)
Definition pack (s : bool) (m E : Z) : float :=
  match m with
  | Zpos p =>
      if Zpos p <? 2 ^ 24 then
        (if E <=? 104 then S754_finite s p E else S754_infinity s)
      else
        (if E + 1 <=? 104 then S754_finite s (2 ^ 23)%positive (E + 1)
         else S754_infinity s)
  | _ => S754_zero s
  end.

(** The shift that brings a magnitude [N], in units of [2 ^ -149], to 24
    digits, and the magnitude once rounded. *)
Definition excess (N : Z) : Z := Z.max (Zdigits2 N - 24) 0.

Definition rounded (N : Z) : Z := rne_shift N (excess N) * 2 ^ excess N.

(** *** Vectors and boxes *)

Definition vec3_all (P : float -> bool) (v : vec3) : bool :=
  P (x v) && P (y v) && P (z v).

Definition box_all (P : float -> bool) (b : AABB) : bool :=
  vec3_all P (Min b) && vec3_all P (Max b).

(** [a <= b] and [a < b] on every axis, and the points of a box. *)
Definition vle (a b : vec3) : bool :=
  fle (x a) (x b) && fle (y a) (y b) && fle (z a) (z b).

Definition vlt (a b : vec3) : bool :=
  flt (x a) (x b) && flt (y a) (y b) && flt (z a) (z b).

Definition contains (b : AABB) (q : vec3) : bool :=
  vle (Min b) q && vle q (Max b).

(** *** The retry loops *)

(** Events of the exchange that come from no other writer. *)
Definition no_store (ev : event) : Prop :=
  match ev with Store _ => False | _ => True end.

(** One round of the loop of [update_min] settles when its exchange succeeds
    or the value it observed ends the loop. *)
Definition round_settles (ev : event) (cell old_value value : Z) : Prop :=
  let '(ok, _, old) := compare_exchange_weak ev cell old_value value in
  ok = true \/ (value <? old) = false.

(** The content of the cell once the stores of the first [j] events of a
    schedule are done. *)
Definition seen (cell : Z) (sched : list event) (j : nat) : Z :=
  fold_left (fun c ev => match ev with Store w => w | _ => c end)
            (firstn j sched) cell.

(** An exchange is disturbed, and fails, when it fails spuriously or when
    another thread stored a value other than the content [c] the thread
    read. *)
Definition disturbed (ev : event) (c : Z) : bool :=
  match ev with
  | Quiet => false
  | Spurious => true
  | Store w => negb (w =? c)
  end.

(** *** The slab test *)

(** The faces of one axis that a ray meets first and last. *)
Definition near_face (inv lo hi : float) : float := if flt zero inv then lo else hi.
Definition far_face (inv lo hi : float) : float := if flt zero inv then hi else lo.

(** The crossing distances of the three axes to the near and the far faces. *)
Definition near_crossings (inv : vec3) (b : AABB) (pos : vec3) : list float :=
  [ crossing (near_face (x inv) (x (Min b)) (x (Max b))) (x pos) (x inv);
    crossing (near_face (y inv) (y (Min b)) (y (Max b))) (y pos) (y inv);
    crossing (near_face (z inv) (z (Min b)) (z (Max b))) (z pos) (z inv) ].

Definition far_crossings (inv : vec3) (b : AABB) (pos : vec3) : list float :=
  [ crossing (far_face (x inv) (x (Min b)) (x (Max b))) (x pos) (x inv);
    crossing (far_face (y inv) (y (Min b)) (y (Max b))) (y pos) (y inv);
    crossing (far_face (z inv) (z (Min b)) (z (Max b))) (z pos) (z inv) ].

Definition greatest (m : float) (l : list float) : Prop :=
  In m l /\ forall v, In v l -> fle v m = true.

Definition least (m : float) (l : list float) : Prop :=
  In m l /\ forall v, In v l -> fle m v = true.

Definition no_nan (l : list float) : Prop :=
  forall v, In v l -> is_nan v = false.

(** [1 / direction] on every axis: the value a caller stores in [Inverse]. *)
Definition reciprocal (d : vec3) : vec3 :=
  mk_vec3 (fdiv one (x d)) (fdiv one (y d)) (fdiv one (z d)).

(** *** The reference Morton encoding *)

(** Bit [i] of [v] moved to bit [3 i], for the ten low bits of [v]: two zero
    bits after each source bit. *)
Definition spread (v : Z) : Z :=
  fold_right
    (fun i acc => (if Z.testbit v (Z.of_nat i) then 2 ^ (3 * Z.of_nat i) else 0) + acc)
    0 (seq 0 10).

Definition spread_bit (v j : Z) : bool := (j mod 3 =? 0) && Z.testbit v (j / 3).

(** The check run on each of the 1024 inputs of [expandBits]. *)
Definition spread_check (v : Z) : bool :=
  (expandBits v =? spread v) && (spread v <=? 153391689) &&
  forallb (fun j => Bool.eqb (Z.testbit (spread v) (Z.of_nat j))
                             (spread_bit v (Z.of_nat j))) (seq 0 32).

(** The integer of one finite coordinate in the reference encoding: the
    integral part of 1024 times the coordinate, kept within 0 and 1023. *)
Definition quantize (c : float) : Z :=
  Z.max 0 (Z.min 1023 (scaled c * 1024 / 2 ^ 149)).

(** The check run on each pair of neighbours among the inputs of
    [expandBits]. *)
Definition spread_step (v : Z) : bool := spread v <? spread (v + 1).

(** *** Further predicates on floats, vectors and rays *)

(** A finite binary32 number whose sign bit is set: [-0.0] and the negative
    finite numbers. *)
Definition neg_finite (f : float) : bool :=
  valid f && is_finite f && sign_bit f.

(** [Expand(p)] for each point of a list, in order. *)
Definition ExpandAll (b : AABB) (ps : list vec3) : AABB := fold_left Expand ps b.

(** Numeric equality on every axis ([==]: it does not tell [+0.0] from
    [-0.0]). *)
Definition veq (a b : vec3) : bool :=
  feq (x a) (x b) && feq (y a) (y b) && feq (z a) (z b).

(** The box lies behind the origin of the ray along one axis: the ray
    travels towards the larger coordinates and the box ends before the
    origin, or it travels towards the smaller ones and the box starts after
    the origin. *)
Definition behind (inv lo hi pos : float) : bool :=
  (flt zero inv && flt hi pos) || (flt inv zero && flt pos lo).

(** *** Threads on one cell *)

(** [up] tells [update_max] from [update_min]: the step of a thread, the
    order in which the cell moves, and the value it moves to. *)
Definition step_toward (up : bool) : bool -> Z -> thread -> Z * thread :=
  if up then step_max else step_min.

Definition toward (up : bool) (a b : Z) : Prop := if up then b <= a else a <= b.

Definition extreme (up : bool) : Z -> Z -> Z := if up then Z.max else Z.min.

(** What a thread with value [v] knows of the cell [c]: the value it read
    is not beyond the cell, and once it has left the loop the cell is at
    its value or beyond. *)
Definition thread_ok (up : bool) (c v : Z) (t : thread) : Prop :=
  match t with
  | Entry v' => v' = v
  | Retry v' old => v' = v /\ toward up c old
  | Done => toward up c v
  end.

Definition threads_inv (up : bool) (cell0 : Z) (vs : list Z)
    (st : Z * list thread) : Prop :=
  let '(c, ts) := st in
  toward up c cell0 /\ In c (cell0 :: vs) /\
  (forall i, match nth_error vs i, nth_error ts i with
             | Some v, Some t => thread_ok up c v t
             | None, None => True
             | _, _ => False
             end).

(** *** Numbers and boxes of the examples *)

Definition half : float := fdiv one (of_Z 2).

(** [2 ^ k], for [k] in the normal range. *)
Definition pow2f (k : Z) : float := S754_finite false 8388608 (k - 23).

Definition unit_box : AABB := mk_AABB (splat zero) (splat one).

(** ** Properties *)

(** *** Floats: order *)

Lemma lex3_Lt (a b : Z * Z * Z) : lex3 a b = Lt <-> lex3_lt a b.
Proof.
  destruct a as [[a1 a2] a3], b as [[b1 b2] b3]; unfold lex3, lex3_lt.
  destruct (Z.compare_spec a1 b1), (Z.compare_spec a2 b2);
    rewrite ?Z.compare_lt_iff; split; intros;
    try reflexivity; try discriminate; lia.
Qed.

Lemma lex3_Eq (a b : Z * Z * Z) : lex3 a b = Eq <-> a = b.
Proof.
  destruct a as [[a1 a2] a3], b as [[b1 b2] b3]; unfold lex3.
  destruct (Z.compare_spec a1 b1), (Z.compare_spec a2 b2);
    rewrite ?Z.compare_eq_iff; split; intros E; try discriminate;
    try (inversion E; lia); subst; reflexivity.
Qed.

Lemma lex3_Gt (a b : Z * Z * Z) : lex3 a b = Gt <-> lex3_lt b a.
Proof.
  destruct a as [[a1 a2] a3], b as [[b1 b2] b3]; unfold lex3, lex3_lt.
  destruct (Z.compare_spec a1 b1), (Z.compare_spec a2 b2);
    rewrite ?Z.compare_gt_iff; split; intros;
    try reflexivity; try discriminate; lia.
Qed.

Lemma SFcompare_key (a b : float) :
  is_nan a = false -> is_nan b = false ->
  SFcompare a b = Some (lex3 (key a) (key b)).
Proof.
  destruct a as [sa|sa| |sa ma ea], b as [sb|sb| |sb mb eb];
    try discriminate; intros _ _;
    try (destruct sa; reflexivity); try (destruct sb; reflexivity);
    try (destruct sa, sb; reflexivity).
  destruct sa, sb; try reflexivity; cbn -[Z.compare].
  rewrite Z.compare_opp, (Z.compare_antisym ea eb).
  destruct (ea ?= eb); reflexivity.
Qed.

Lemma flt_key (a b : float) :
  flt a b = true <->
  is_nan a = false /\ is_nan b = false /\ lex3_lt (key a) (key b).
Proof.
  unfold flt, SFltb.
  destruct (is_nan a) eqn:Na; [destruct a; try discriminate; cbn; intuition discriminate|].
  destruct (is_nan b) eqn:Nb;
    [destruct b; try discriminate; destruct a; cbn; intuition discriminate|].
  rewrite SFcompare_key by assumption.
  rewrite <- lex3_Lt. destruct (lex3 (key a) (key b)); intuition discriminate.
Qed.

Lemma fle_key (a b : float) :
  fle a b = true <->
  is_nan a = false /\ is_nan b = false /\
  (lex3_lt (key a) (key b) \/ key a = key b).
Proof.
  unfold fle, SFleb.
  destruct (is_nan a) eqn:Na; [destruct a; try discriminate; cbn; intuition discriminate|].
  destruct (is_nan b) eqn:Nb;
    [destruct b; try discriminate; destruct a; cbn; intuition discriminate|].
  rewrite SFcompare_key by assumption.
  rewrite <- lex3_Lt, <- lex3_Eq.
  destruct (lex3 (key a) (key b)); intuition discriminate.
Qed.

Lemma lex3_lt_trans (a b c : Z * Z * Z) :
  lex3_lt a b -> lex3_lt b c -> lex3_lt a c.
Proof.
  destruct a as [[a1 a2] a3], b as [[b1 b2] b3], c as [[c1 c2] c3];
    unfold lex3_lt; lia.
Qed.

Lemma lex3_total (a b : Z * Z * Z) : lex3_lt a b \/ a = b \/ lex3_lt b a.
Proof.
  destruct a as [[a1 a2] a3], b as [[b1 b2] b3]; unfold lex3_lt.
  destruct (Z.lt_total a1 b1) as [?|[?|?]]; [lia| |lia].
  destruct (Z.lt_total a2 b2) as [?|[?|?]]; [lia| |lia].
  destruct (Z.lt_total a3 b3) as [?|[?|?]]; [lia| |lia].
  right; left; subst; reflexivity.
Qed.

Lemma fle_refl (a : float) : is_nan a = false -> fle a a = true.
Proof. intros N. apply fle_key. auto. Qed.

Lemma fle_trans (a b c : float) :
  fle a b = true -> fle b c = true -> fle a c = true.
Proof.
  rewrite !fle_key. intros (Na & Nb & [H1|H1]) (_ & Nc & [H2|H2]);
    repeat split; trivial.
  - left; eapply lex3_lt_trans; eassumption.
  - left; rewrite <- H2; assumption.
  - left; rewrite H1; assumption.
  - right; congruence.
Qed.

Lemma flt_fle (a b : float) : flt a b = true -> fle a b = true.
Proof. rewrite flt_key, fle_key. intuition. Qed.

Lemma not_flt_fle (a b : float) :
  is_nan a = false -> is_nan b = false -> flt a b = false -> fle b a = true.
Proof.
  intros Na Nb H. apply fle_key. repeat split; trivial.
  destruct (lex3_total (key a) (key b)) as [L|[E|G]]; auto.
  assert (flt a b = true) by (apply flt_key; auto). congruence.
Qed.

Lemma flt_not_fle (a b : float) : flt b a = true -> fle a b = false.
Proof.
  intros L. destruct (fle a b) eqn:E; trivial.
  apply flt_key in L. apply fle_key in E.
  destruct L as (_ & _ & L), E as (_ & _ & E).
  destruct (key a) as [[a1 a2] a3], (key b) as [[b1 b2] b3].
  unfold lex3_lt in *. destruct E as [E|E]; [lia|]. inversion E; subst. lia.
Qed.

Lemma num_min_below (a b : float) :
  is_nan a = false -> is_nan b = false ->
  fle (num_min a b) a = true /\ fle (num_min a b) b = true.
Proof.
  intros Na Nb. unfold num_min. destruct (fle a b) eqn:E.
  - split; [now apply fle_refl|exact E].
  - split; [|now apply fle_refl].
    apply not_flt_fle; trivial.
    destruct (flt a b) eqn:L; trivial. apply flt_fle in L. congruence.
Qed.

Lemma num_max_above (a b : float) :
  is_nan a = false -> is_nan b = false ->
  fle a (num_max a b) = true /\ fle b (num_max a b) = true.
Proof.
  intros Na Nb. unfold num_max. destruct (fle a b) eqn:E.
  - split; [exact E|now apply fle_refl].
  - split; [now apply fle_refl|].
    apply not_flt_fle; trivial.
    destruct (flt a b) eqn:L; trivial. apply flt_fle in L. congruence.
Qed.

(** [glm::min] and [glm::max] against the numeric minimum and maximum. *)
Lemma glm_min_ref (p m : float) : glm.min p m = ref_min p m.
Proof.
  unfold glm.min, ref_min, num_min.
  destruct (is_nan p) eqn:Np.
  - cbn [orb]. destruct (flt m p) eqn:L; trivial.
    apply flt_key in L. destruct L as (_ & N & _). congruence.
  - destruct (is_nan m) eqn:Nm; cbn [orb].
    + destruct (flt m p) eqn:L; trivial.
      apply flt_key in L. destruct L as (N & _). congruence.
    + destruct (flt m p) eqn:L.
      * now rewrite (flt_not_fle p m L).
      * now rewrite (not_flt_fle m p Nm Np L).
Qed.

Lemma glm_max_ref (p m : float) : glm.max p m = ref_max p m.
Proof.
  unfold glm.max, ref_max, num_max.
  destruct (is_nan p) eqn:Np.
  - cbn [orb]. destruct (flt p m) eqn:L; trivial.
    apply flt_key in L. destruct L as (N & _). congruence.
  - destruct (is_nan m) eqn:Nm; cbn [orb].
    + destruct (flt p m) eqn:L; trivial.
      apply flt_key in L. destruct L as (_ & N & _). congruence.
    + destruct (flt p m) eqn:L.
      * now rewrite (flt_not_fle m p L).
      * now rewrite (not_flt_fle p m Np Nm L).
Qed.

Lemma num_min_member (a b : float) : num_min a b = a \/ num_min a b = b.
Proof. unfold num_min. destruct (fle a b); auto. Qed.

Lemma num_max_member (a b : float) : num_max a b = a \/ num_max a b = b.
Proof. unfold num_max. destruct (fle a b); auto. Qed.

Lemma is_finite_not_nan (f : float) : is_finite f = true -> is_nan f = false.
Proof. destruct f; trivial; discriminate. Qed.

Lemma fle_flt_trans (a b c : float) :
  fle a b = true -> flt b c = true -> flt a c = true.
Proof.
  rewrite fle_key, !flt_key. intros (Na & Nb & [H1|H1]) (_ & Nc & H2);
    repeat split; trivial.
  - eapply lex3_lt_trans; eassumption.
  - rewrite H1. assumption.
Qed.

Lemma fle_zero_nonneg (r : float) :
  is_nan r = false -> sign_bit r = false -> fle zero r = true.
Proof. destruct r as [[]|[]| |[] ? ?]; try discriminate; reflexivity. Qed.

Lemma fle_zero_negative (f : float) :
  is_nan f = false -> sign_bit f = true -> fle f zero = true.
Proof. destruct f as [[]|[]| |[] m e]; try discriminate; reflexivity. Qed.

Lemma flt_zero_sign (f : float) :
  is_nan f = false -> is_zero f = false -> flt zero f = negb (sign_bit f).
Proof. destruct f as [s|[]| |[] m e]; try discriminate; reflexivity. Qed.

Lemma between_finite (m M p : float) :
  is_finite m = true -> is_finite M = true ->
  fle m p = true -> fle p M = true -> is_finite p = true.
Proof.
  destruct p as [s|s| |s mp ep]; trivial;
    destruct m as [sm|sm| |sm mm em], M as [sM|sM| |sM mM eM];
    try discriminate; destruct s; try destruct sm; try destruct sM;
    discriminate.
Qed.

(** *** Floats: digits and valid finite numbers *)

Lemma digits2_pos_bounds (m : positive) :
  2 ^ (Zpos (digits2_pos m) - 1) <= Zpos m < 2 ^ Zpos (digits2_pos m).
Proof.
  induction m as [m IH|m IH|]; cbn [digits2_pos].
  3: cbn; lia.
  all: rewrite Pos2Z.inj_succ;
    assert (Hd : 0 < Zpos (digits2_pos m)) by lia;
    revert IH Hd; generalize (Zpos (digits2_pos m)); intros d IH Hd;
    replace (Z.succ d - 1) with (Z.succ (d - 1)) by lia;
    rewrite !Z.pow_succ_r by lia; revert IH;
    generalize (2 ^ d); generalize (2 ^ (d - 1)); intros; lia.
Qed.

Lemma valid_finite_bounds (s : bool) (m : positive) (e : Z) :
  valid (S754_finite s m e) = true ->
  -149 <= e <= 104 /\ Zpos m < 2 ^ 24 /\ (2 ^ 23 <= Zpos m \/ e = -149).
Proof.
  unfold valid, valid_binary, bounded, canonical_mantissa, fexp, SpecFloat.emin,
    prec, emax.
  intros H. apply andb_prop in H. destruct H as [C B].
  apply Z.eqb_eq in C. apply Z.leb_le in B.
  pose proof (digits2_pos_bounds m) as [Lo Hi].
  set (d := Zpos (digits2_pos m)) in *.
  assert (Hd : 0 < d) by (unfold d; lia).
  assert (d <= 24) by lia.
  split; [lia|]. split.
  - apply Z.lt_le_trans with (1 := Hi). apply Z.pow_le_mono_r; lia.
  - destruct (Z.eq_dec e (-149)) as [->|Ne]; [now right|left].
    assert (d = 24) by lia.
    replace 23 with (d - 1) by lia. exact Lo.
Qed.

Lemma Zdigits2_bounds (m : Z) :
  0 < m -> 2 ^ (Zdigits2 m - 1) <= m < 2 ^ Zdigits2 m.
Proof.
  destruct m as [|p|p]; try lia. intros _. apply digits2_pos_bounds.
Qed.

Lemma Zdigits2_pos (m : Z) : 0 < m -> 0 < Zdigits2 m.
Proof. destruct m; cbn; lia. Qed.

Lemma Zdigits2_unique (m d : Z) :
  0 < m -> 2 ^ (d - 1) <= m < 2 ^ d -> Zdigits2 m = d.
Proof.
  intros Hm [Lo Hi].
  pose proof (Zdigits2_bounds m Hm) as [Lo' Hi'].
  pose proof (Zdigits2_pos m Hm) as Hd.
  assert (Hd' : 0 < d).
  { destruct (Z.lt_ge_cases 0 d); trivial.
    rewrite Z.pow_neg_r in Lo by lia.
    assert (d = 0) by (destruct (Z.eq_dec d 0); trivial; rewrite Z.pow_neg_r in Hi by lia; lia).
    subst d. cbn in Hi. lia. }
  destruct (Z.lt_trichotomy (Zdigits2 m) d) as [L|[E|G]]; trivial.
  - assert (2 ^ Zdigits2 m <= 2 ^ (d - 1)) by (apply Z.pow_le_mono_r; lia). lia.
  - assert (2 ^ d <= 2 ^ (Zdigits2 m - 1)) by (apply Z.pow_le_mono_r; lia). lia.
Qed.

Lemma fexp_eq (x : Z) : fexp prec emax x = Z.max (x - 24) (-149).
Proof. reflexivity. Qed.

Lemma div_pow2_range (m d n : Z) :
  0 <= n <= d -> 0 < m -> 2 ^ (d - 1) <= m < 2 ^ d ->
  m / 2 ^ n < 2 ^ (d - n) /\ (n < d -> 2 ^ (d - n - 1) <= m / 2 ^ n).
Proof.
  intros Hn Hm [Lo Hi].
  assert (HP : 0 < 2 ^ n) by (apply Z.pow_pos_nonneg; lia).
  split.
  - apply Z.div_lt_upper_bound; trivial.
    rewrite <- Z.pow_add_r by lia. replace (n + (d - n)) with d by lia. exact Hi.
  - intros Hlt. apply Z.div_le_lower_bound; trivial.
    rewrite <- Z.pow_add_r by lia. replace (n + (d - n - 1)) with (d - 1) by lia.
    exact Lo.
Qed.

Lemma valid_of_bounds (s : bool) (m : positive) (e : Z) :
  -149 <= e <= 104 -> Zpos m < 2 ^ 24 -> (2 ^ 23 <= Zpos m \/ e = -149) ->
  valid (S754_finite s m e) = true.
Proof.
  intros He Hm Hn.
  unfold valid, valid_binary, bounded, canonical_mantissa.
  rewrite fexp_eq. apply andb_true_intro. split; [|apply Z.leb_le; cbn; lia].
  apply Z.eqb_eq.
  pose proof (digits2_pos_bounds m) as [Lo Hi].
  assert (Hd : 0 < Zpos (digits2_pos m)) by lia.
  revert Lo Hi Hd. generalize (Zpos (digits2_pos m)). intros d Lo Hi Hd.
  assert (Hd24 : d <= 24).
  { destruct (Z.le_gt_cases d 24); trivial.
    assert (2 ^ 24 <= 2 ^ (d - 1)) by (apply Z.pow_le_mono_r; lia). lia. }
  destruct Hn as [Hn|Hn]; [|lia].
  assert (d = 24); [|lia].
  destruct (Z.le_gt_cases 24 d); [lia|].
  assert (2 ^ d <= 2 ^ 23) by (apply Z.pow_le_mono_r; lia). lia.
Qed.

Lemma Zdigits2_mul_pow2 (m k : Z) :
  0 < m -> 0 <= k -> Zdigits2 (m * 2 ^ k) = Zdigits2 m + k.
Proof.
  intros Hm Hk.
  pose proof (Zdigits2_bounds m Hm) as [Lo Hi].
  pose proof (Zdigits2_pos m Hm) as Hd.
  assert (HP : 0 < 2 ^ k) by (apply Z.pow_pos_nonneg; lia).
  apply Zdigits2_unique; [nia|].
  replace (Zdigits2 m + k - 1) with (Zdigits2 m - 1 + k) by lia.
  rewrite !Z.pow_add_r by lia. nia.
Qed.

Lemma pow2_pos (k : Z) : 0 <= k -> 0 < 2 ^ k.
Proof. intros. apply Z.pow_pos_nonneg; lia. Qed.

Lemma pow2_step (a b : Z) : 0 <= a < b -> 2 * 2 ^ a <= 2 ^ b.
Proof.
  intros H. rewrite <- Z.pow_succ_r by lia. apply Z.pow_le_mono_r; lia.
Qed.

(** Magnitudes of two numbers in canonical form. *)
Lemma canonical_lt (m1 e1 m2 e2 : Z) :
  -149 <= e1 -> 0 < m1 < 2 ^ 24 -> 0 < m2 ->
  (2 ^ 23 <= m2 \/ e2 = -149) -> e1 < e2 ->
  m1 * 2 ^ (e1 + 149) < m2 * 2 ^ (e2 + 149).
Proof.
  intros He1 Hm1 Hm2 Hc Hlt.
  assert (P1 : 0 < 2 ^ (e1 + 149)) by (apply pow2_pos; lia).
  assert (S : 2 * 2 ^ (e1 + 149) <= 2 ^ (e2 + 149)) by (apply pow2_step; lia).
  destruct Hc as [Hc|Hc]; [|lia].
  change (2 ^ 24) with 16777216 in *. change (2 ^ 23) with 8388608 in *.
  nia.
Qed.

Lemma key_scaled (a b : float) :
  valid a = true -> valid b = true ->
  is_finite a = true -> is_finite b = true ->
  (lex3_lt (key a) (key b) <-> scaled a < scaled b) /\
  (key a = key b <-> scaled a = scaled b).
Proof.
  intros Va Vb Fa Fb.
  destruct a as [sa|sa| |sa ma ea], b as [sb|sb| |sb mb eb]; try discriminate;
    cbn [key scaled lex3_lt].
  - split; split; intros; try lia; reflexivity.
  - apply valid_finite_bounds in Vb. destruct Vb as (He & Hm & Hn).
    assert (P : 0 < 2 ^ (eb + 149)) by (apply pow2_pos; lia).
    destruct sb; cbn [key scaled lex3_lt]; split; split; intros H;
      try discriminate; try nia.
  - apply valid_finite_bounds in Va. destruct Va as (He & Hm & Hn).
    assert (P : 0 < 2 ^ (ea + 149)) by (apply pow2_pos; lia).
    destruct sa; cbn [key scaled lex3_lt]; split; split; intros H;
      try discriminate; try nia.
  - apply valid_finite_bounds in Va. destruct Va as (Hea & Hma & Hna).
    apply valid_finite_bounds in Vb. destruct Vb as (Heb & Hmb & Hnb).
    assert (Pa : 0 < 2 ^ (ea + 149)) by (apply pow2_pos; lia).
    assert (Pb : 0 < 2 ^ (eb + 149)) by (apply pow2_pos; lia).
    assert (Lab : ea < eb -> Zpos ma * 2 ^ (ea + 149) < Zpos mb * 2 ^ (eb + 149))
      by (intros; apply canonical_lt; lia).
    assert (Lba : eb < ea -> Zpos mb * 2 ^ (eb + 149) < Zpos ma * 2 ^ (ea + 149))
      by (intros; apply canonical_lt; lia).
    assert (Eq : ea = eb -> 2 ^ (ea + 149) = 2 ^ (eb + 149)) by (intros ->; reflexivity).
    destruct sa, sb; cbn [key scaled lex3_lt].
    + split; split; intros H.
      * destruct (Z.lt_trichotomy ea eb) as [L|[E|G]]; [lia| |specialize (Lba G); lia].
        specialize (Eq E). nia.
      * destruct (Z.lt_trichotomy ea eb) as [L|[E|G]];
          [specialize (Lab L); lia| |lia].
        specialize (Eq E). right. split; [lia|]. right. split; [lia|]. nia.
      * inversion H. assert (ea = eb) by lia. assert (Zpos ma = Zpos mb) by lia.
        specialize (Eq H0). nia.
      * destruct (Z.lt_trichotomy ea eb) as [L|[E|G]];
          [specialize (Lab L); lia| |specialize (Lba G); lia].
        specialize (Eq E). assert (Zpos ma = Zpos mb) by nia.
        f_equal; [f_equal|]; lia.
    + split; split; intros H; try discriminate; try nia.
    + split; split; intros H; try discriminate; try nia.
    + split; split; intros H.
      * destruct (Z.lt_trichotomy ea eb) as [L|[E|G]];
          [specialize (Lab L); lia| |lia].
        specialize (Eq E). nia.
      * destruct (Z.lt_trichotomy ea eb) as [L|[E|G]];
          [lia| |specialize (Lba G); lia].
        specialize (Eq E). right. split; [lia|]. right. split; [lia|]. nia.
      * inversion H. subst. reflexivity.
      * destruct (Z.lt_trichotomy ea eb) as [L|[E|G]];
          [specialize (Lab L); lia| |specialize (Lba G); lia].
        specialize (Eq E). assert (Zpos ma = Zpos mb) by nia.
        f_equal; [f_equal|]; lia.
Qed.

Lemma flt_scaled (a b : float) :
  valid a = true -> valid b = true ->
  is_finite a = true -> is_finite b = true ->
  (flt a b = true <-> scaled a < scaled b).
Proof.
  intros Va Vb Fa Fb.
  destruct (key_scaled a b Va Vb Fa Fb) as [L _].
  rewrite flt_key, L. pose proof (is_finite_not_nan a Fa).
  pose proof (is_finite_not_nan b Fb). tauto.
Qed.

Lemma fle_scaled (a b : float) :
  valid a = true -> valid b = true ->
  is_finite a = true -> is_finite b = true ->
  (fle a b = true <-> scaled a <= scaled b).
Proof.
  intros Va Vb Fa Fb.
  destruct (key_scaled a b Va Vb Fa Fb) as [L E].
  rewrite fle_key, L, E. pose proof (is_finite_not_nan a Fa).
  pose proof (is_finite_not_nan b Fb).
  split; [intros (_ & _ & [?|?]); lia|].
  intros; repeat split; trivial; lia.
Qed.

Lemma Zdigits2_le (N N' : Z) : 0 < N <= N' -> Zdigits2 N <= Zdigits2 N'.
Proof.
  intros [H0 H].
  pose proof (Zdigits2_bounds N H0) as [Lo _].
  pose proof (Zdigits2_bounds N' ltac:(lia)) as [_ Hi].
  destruct (Z.le_gt_cases (Zdigits2 N) (Zdigits2 N')) as [|G]; trivial.
  assert (2 ^ Zdigits2 N' <= 2 ^ (Zdigits2 N - 1)).
  { apply Z.pow_le_mono_r; [lia|]. lia. }
  lia.
Qed.

Lemma scaled_finite (s : bool) (m : positive) (e : Z) :
  scaled (S754_finite s m e) = signed s (Zpos m * 2 ^ (e + 149)).
Proof. cbn [scaled]. unfold signed. destruct s; ring. Qed.

Lemma pow2_lt_inv (a b : Z) : 0 <= b -> 2 ^ a < 2 ^ b -> a < b.
Proof. intros Hb H. apply (Z.pow_lt_mono_r_iff 2); lia. Qed.

Lemma pow2_le_inv (a b : Z) : 0 <= b -> 2 ^ a <= 2 ^ b -> a <= b.
Proof. intros Hb H. apply (Z.pow_le_mono_r_iff 2); lia. Qed.

Lemma scaled_one : scaled one = 2 ^ 149.
Proof. reflexivity. Qed.

(** *** Floats and their bits *)

Lemma fields_of_pattern (s : bool) (r : Z) :
  0 <= r < 2 ^ 31 ->
  Z.testbit (sign_field s + r) 31 = s /\
  ((sign_field s + r) / 2 ^ 23) mod 2 ^ 8 = r / 2 ^ 23 /\
  (sign_field s + r) mod 2 ^ 23 = r mod 2 ^ 23.
Proof.
  intros Hr.
  assert (Hq : 0 <= r / 2 ^ 23 < 2 ^ 8).
  { split; [apply Z.div_pos; lia|].
    apply Z.div_lt_upper_bound; [lia|]. change (2 ^ 23 * 2 ^ 8) with (2 ^ 31). lia. }
  destruct s; unfold sign_field.
  - split; [|split].
    + apply Z.testbit_true; [lia|].
      replace (2 ^ 31 + r) with (r + 1 * 2 ^ 31) by lia.
      rewrite Z.div_add by lia. rewrite (Z.div_small r) by lia. reflexivity.
    + replace (2 ^ 31 + r) with (r + 2 ^ 8 * 2 ^ 23) by (change (2 ^ 31) with (2 ^ 8 * 2 ^ 23); lia).
      rewrite Z.div_add by lia.
      replace (r / 2 ^ 23 + 2 ^ 8) with (r / 2 ^ 23 + 1 * 2 ^ 8) by lia.
      rewrite Z.mod_add by lia. apply Z.mod_small; lia.
    + replace (2 ^ 31 + r) with (r + 2 ^ 8 * 2 ^ 23) by (change (2 ^ 31) with (2 ^ 8 * 2 ^ 23); lia).
      apply Z.mod_add; lia.
  - rewrite Z.add_0_l. split; [|split].
    + apply Z.testbit_false; [lia|]. rewrite Z.div_small by lia. reflexivity.
    + apply Z.mod_small; lia.
    + reflexivity.
Qed.

(** The bits of a valid finite number, without its sign. *)
Lemma magnitude_bounds (m : positive) (e : Z) :
  -149 <= e <= 104 -> Zpos m < 2 ^ 24 -> (2 ^ 23 <= Zpos m \/ e = -149) ->
  let r := if Zpos m <? 2 ^ 23 then Zpos m
           else (e + 150) * 2 ^ 23 + (Zpos m - 2 ^ 23) in
  0 < r < 255 * 2 ^ 23.
Proof.
  intros He Hm Hn. cbv zeta.
  destruct (Z.ltb_spec (Zpos m) (2 ^ 23)); [lia|]. nia.
Qed.

Lemma to_float_to_uint (f : float) :
  valid f = true -> is_nan f = false -> to_float (to_uint f) = f.
Proof.
  destruct f as [s|s| |s m e]; try discriminate; intros V _.
  - unfold to_uint. replace (sign_field s) with (sign_field s + 0) by lia.
    unfold to_float.
    destruct (fields_of_pattern s 0) as (-> & -> & ->); [lia|]. reflexivity.
  - unfold to_uint, to_float.
    destruct (fields_of_pattern s (255 * 2 ^ 23)) as (-> & -> & ->); [lia|].
    reflexivity.
  - apply valid_finite_bounds in V. destruct V as (He & Hm & Hn).
    pose proof (magnitude_bounds m e He Hm Hn) as Hr. cbv zeta in Hr.
    unfold to_uint, to_float.
    set (r := if Zpos m <? 2 ^ 23 then Zpos m
              else (e + 150) * 2 ^ 23 + (Zpos m - 2 ^ 23)) in *.
    destruct (fields_of_pattern s r) as (-> & -> & ->); [lia|].
    unfold r. destruct (Z.ltb_spec (Zpos m) (2 ^ 23)) as [Sub|Nor].
    + rewrite Z.div_small by lia. cbn [Z.eqb].
      rewrite Z.mod_small by lia.
      destruct Hn as [? | ->]; [lia|reflexivity].
    + replace ((e + 150) * 2 ^ 23 + (Zpos m - 2 ^ 23))
        with ((Zpos m - 2 ^ 23) + (e + 150) * 2 ^ 23) by lia.
      rewrite Z.div_add by lia. rewrite Z.mod_add by lia.
      rewrite Z.div_small by lia. rewrite Z.mod_small by lia.
      rewrite Z.add_0_l.
      assert (Ne : e = -149 -> False \/ True) by auto.
      destruct (Z.eqb_spec (e + 150) 0); [lia|].
      destruct (Z.eqb_spec (e + 150) 255); [lia|].
      replace (Zpos m - 2 ^ 23 + 2 ^ 23) with (Zpos m) by lia.
      replace (e + 150 - 150) with e by lia. reflexivity.
Qed.


(** *** Rounding: the shifts of [shr] *)

Lemma iter_pos_nat {A : Type} (f : A -> A) (p : positive) (a : A) :
  iter_pos f p a = Nat.iter (Pos.to_nat p) f a.
Proof.
  revert a. induction p as [p IH|p IH|]; intros a; cbn [iter_pos].
  - rewrite !IH. rewrite Pos2Nat.inj_xI.
    replace (S (2 * Pos.to_nat p)) with (Pos.to_nat p + (Pos.to_nat p + 1))%nat by lia.
    rewrite !Nat.iter_add. reflexivity.
  - rewrite !IH. rewrite Pos2Nat.inj_xO.
    replace (2 * Pos.to_nat p)%nat with (Pos.to_nat p + Pos.to_nat p)%nat by lia.
    rewrite Nat.iter_add. reflexivity.
  - reflexivity.
Qed.

Lemma shr_1_m (mrs : shr_record) :
  0 <= shr_m mrs -> shr_m (shr_1 mrs) = shr_m mrs / 2.
Proof.
  destruct mrs as [m r s]. cbn [shr_m]. intros Hm.
  destruct m as [|[p|p|]|p]; try lia; cbn [shr_1 shr_m].
  - reflexivity.
  - rewrite Pos2Z.inj_xI. apply Z.div_unique with 1; lia.
  - rewrite Pos2Z.inj_xO. apply Z.div_unique with 0; lia.
  - reflexivity.
Qed.

Lemma shr_1_r (mrs : shr_record) :
  0 <= shr_m mrs -> shr_r (shr_1 mrs) = Z.odd (shr_m mrs).
Proof.
  destruct mrs as [m r s]. cbn [shr_m]. intros Hm.
  destruct m as [|[p|p|]|p]; try lia; reflexivity.
Qed.

Lemma shr_1_s (mrs : shr_record) :
  0 <= shr_m mrs -> shr_s (shr_1 mrs) = shr_r mrs || shr_s mrs.
Proof.
  destruct mrs as [m r s]. cbn [shr_m]. intros Hm.
  destruct m as [|[p|p|]|p]; try lia; reflexivity.
Qed.

Lemma shr_iter_m (k : nat) (mrs : shr_record) :
  0 <= shr_m mrs ->
  shr_m (Nat.iter k shr_1 mrs) = shr_m mrs / 2 ^ Z.of_nat k.
Proof.
  intros Hm. induction k as [|k IH].
  - cbn. now rewrite Z.div_1_r.
  - change (Nat.iter (S k) shr_1 mrs) with (shr_1 (Nat.iter k shr_1 mrs)).
    rewrite shr_1_m.
    + rewrite IH. rewrite Nat2Z.inj_succ, Z.pow_succ_r by lia.
      rewrite Z.div_div by lia. f_equal. lia.
    + rewrite IH. apply Z.div_pos; lia.
Qed.

Lemma shr_iter_nonneg (k : nat) (mrs : shr_record) :
  0 <= shr_m mrs -> 0 <= shr_m (Nat.iter k shr_1 mrs).
Proof.
  intros Hm. rewrite shr_iter_m by assumption. apply Z.div_pos; lia.
Qed.

Lemma mod_pow2_succ (m k : Z) :
  0 <= k ->
  m mod 2 ^ (k + 1) = 2 ^ k * ((m / 2 ^ k) mod 2) + m mod 2 ^ k.
Proof.
  intros Hk. rewrite Z.pow_add_r by lia. change (2 ^ 1) with 2.
  rewrite Z.rem_mul_r by lia. lia.
Qed.

Lemma odd_mod2 (q : Z) : Z.odd q = negb (q mod 2 =? 0).
Proof.
  rewrite Zmod_odd. destruct (Z.odd q); reflexivity.
Qed.

Lemma shr_iter_rs (k : nat) (mrs : shr_record) :
  0 <= shr_m mrs ->
  shr_r (Nat.iter (S k) shr_1 mrs) = Z.odd (shr_m mrs / 2 ^ Z.of_nat k) /\
  shr_s (Nat.iter (S k) shr_1 mrs) =
    shr_r mrs || shr_s mrs || negb (shr_m mrs mod 2 ^ Z.of_nat k =? 0).
Proof.
  intros Hm. induction k as [|k [IHr IHs]].
  - cbn [Nat.iter nat_rect]. rewrite shr_1_r, shr_1_s by assumption.
    change (2 ^ Z.of_nat 0) with 1. rewrite Z.div_1_r, Z.mod_1_r.
    cbn. now rewrite orb_false_r.
  - change (Nat.iter (S (S k)) shr_1 mrs)
      with (shr_1 (Nat.iter (S k) shr_1 mrs)).
    assert (Hn : 0 <= shr_m (Nat.iter (S k) shr_1 mrs))
      by now apply shr_iter_nonneg.
    rewrite shr_1_r, shr_1_s by assumption.
    rewrite shr_iter_m by assumption. split; [reflexivity|].
    rewrite IHr, IHs.
    rewrite (Nat2Z.inj_succ k). unfold Z.succ.
    rewrite (mod_pow2_succ (shr_m mrs) (Z.of_nat k)) by lia.
    rewrite odd_mod2.
    set (q := shr_m mrs / 2 ^ Z.of_nat k).
    set (rm := shr_m mrs mod 2 ^ Z.of_nat k).
    assert (Hq : 0 <= q mod 2 < 2) by (apply Z.mod_pos_bound; lia).
    assert (Hr : 0 <= rm < 2 ^ Z.of_nat k) by (apply Z.mod_pos_bound; lia).
    destruct (shr_r mrs), (shr_s mrs); cbn [orb]; try reflexivity;
      try (rewrite !orb_true_r; reflexivity).
    destruct (Z.eqb_spec (q mod 2) 0) as [E0|E0];
      destruct (Z.eqb_spec rm 0) as [E1|E1];
      destruct (Z.eqb_spec (2 ^ Z.of_nat k * (q mod 2) + rm) 0) as [E2|E2];
      cbn; try reflexivity; try nia.
Qed.

Lemma round_nearest_even_bits (m : Z) (r s : bool) :
  round_nearest_even m (loc_of_shr_record (Build_shr_record m r s)) =
  m + (if r && (s || Z.odd m) then 1 else 0).
Proof.
  rewrite <- Z.negb_even.
  destruct r, s; cbn; try lia; destruct (Z.even m); cbn; lia.
Qed.

Lemma loc_of_shr_record_eta (R : shr_record) :
  loc_of_shr_record R =
  loc_of_shr_record (Build_shr_record (shr_m R) (shr_r R) (shr_s R)).
Proof. destruct R; reflexivity. Qed.

Lemma round_shr_exact (V : Z) (k : nat) :
  0 <= V ->
  let R := Nat.iter k shr_1 (Build_shr_record V false false) in
  round_nearest_even (shr_m R) (loc_of_shr_record R) = rne_shift V (Z.of_nat k).
Proof.
  intros HV R. unfold rne_shift, round_up.
  destruct k as [|k].
  - cbn. change (V mod 1) with (Z.modulo V 1). rewrite Z.mod_1_r, Z.div_1_r. cbn. lia.
  - rewrite loc_of_shr_record_eta, round_nearest_even_bits.
    unfold R. destruct (shr_iter_rs k (Build_shr_record V false false) HV) as [-> ->].
    rewrite shr_iter_m by assumption. cbn [shr_m shr_r shr_s orb].
    f_equal.
    rewrite (Nat2Z.inj_succ k). unfold Z.succ.
    rewrite (mod_pow2_succ V (Z.of_nat k)) by lia.
    rewrite Z.pow_add_r by lia. change (2 ^ 1) with 2.
    rewrite (odd_mod2 (V / 2 ^ Z.of_nat k)).
    set (q := V / 2 ^ Z.of_nat k).
    set (rm := V mod 2 ^ Z.of_nat k).
    set (P := 2 ^ Z.of_nat k).
    assert (HP : 0 < P) by (apply Z.pow_pos_nonneg; lia).
    assert (Hq : 0 <= q mod 2 < 2) by (apply Z.mod_pos_bound; lia).
    assert (Hr : 0 <= rm < P) by (apply Z.mod_pos_bound; lia).
    destruct (Z.eqb_spec (q mod 2) 0) as [E0|E0];
      destruct (Z.eqb_spec rm 0) as [E1|E1];
      destruct (Z.ltb_spec (P * 2) (2 * (P * (q mod 2) + rm)));
      destruct (Z.eqb_spec (P * 2) (2 * (P * (q mod 2) + rm)));
      cbn; try reflexivity; try nia.
Qed.

Lemma shr_nat (mrs : shr_record) (e n : Z) :
  shr mrs e n = (Nat.iter (Z.to_nat n) shr_1 mrs, e + Z.max n 0).
Proof.
  destruct n as [|p|p]; cbn [shr Z.to_nat].
  - cbn. now rewrite Z.add_0_r.
  - rewrite iter_pos_nat. reflexivity.
  - cbn. now rewrite Z.add_0_r.
Qed.

Lemma shr_record_of_loc_m (m : Z) (l : location) :
  shr_m (shr_record_of_loc m l) = m.
Proof. destruct l as [|[| |]]; reflexivity. Qed.

Lemma round_nearest_even_range (m : Z) (l : location) :
  m <= round_nearest_even m l <= m + 1.
Proof.
  destruct l as [|[| |]]; cbn; try lia. destruct (Z.even m); lia.
Qed.

Lemma rne_shift_0 (V : Z) : rne_shift V 0 = V.
Proof.
  unfold rne_shift, round_up. change (2 ^ 0) with 1.
  rewrite Z.div_1_r, Z.mod_1_r. cbn. lia.
Qed.

Lemma rne_shift_scale (V k j : Z) :
  0 <= k -> 0 <= j -> rne_shift (V * 2 ^ j) (k + j) = rne_shift V k.
Proof.
  intros Hk Hj. unfold rne_shift, round_up.
  assert (Pj : 0 < 2 ^ j) by (apply Z.pow_pos_nonneg; lia).
  assert (Pk : 0 < 2 ^ k) by (apply Z.pow_pos_nonneg; lia).
  rewrite Z.pow_add_r by lia.
  rewrite Z.div_mul_cancel_r by lia.
  rewrite Z.mul_mod_distr_r by lia.
  set (q := V / 2 ^ k). set (rm := V mod 2 ^ k).
  f_equal.
  replace (2 ^ k * 2 ^ j <? 2 * (rm * 2 ^ j)) with (2 ^ k <? 2 * rm).
  2:{ destruct (Z.ltb_spec (2 ^ k) (2 * rm)), (Z.ltb_spec (2 ^ k * 2 ^ j) (2 * (rm * 2 ^ j)));
      trivial; nia. }
  replace (2 ^ k * 2 ^ j =? 2 * (rm * 2 ^ j)) with (2 ^ k =? 2 * rm).
  2:{ destruct (Z.eqb_spec (2 ^ k) (2 * rm)), (Z.eqb_spec (2 ^ k * 2 ^ j) (2 * (rm * 2 ^ j)));
      trivial; nia. }
  reflexivity.
Qed.

Lemma rne_shift_exact (V k : Z) : 0 <= k -> rne_shift (V * 2 ^ k) k = V.
Proof.
  intros Hk. replace k with (0 + k) at 2 by lia.
  rewrite rne_shift_scale by lia. apply rne_shift_0.
Qed.

Lemma rne_shift_range (V k : Z) : V / 2 ^ k <= rne_shift V k <= V / 2 ^ k + 1.
Proof. unfold rne_shift. destruct (round_up k V); lia. Qed.

Lemma rne_shift_mono (V V' k : Z) :
  0 <= k -> V <= V' -> rne_shift V k <= rne_shift V' k.
Proof.
  intros Hk H. unfold rne_shift, round_up.
  assert (P : 0 < 2 ^ k) by (apply Z.pow_pos_nonneg; lia).
  pose proof (Z.div_mod V (2 ^ k) ltac:(lia)) as E.
  pose proof (Z.div_mod V' (2 ^ k) ltac:(lia)) as E'.
  pose proof (Z.mod_pos_bound V (2 ^ k) P) as B.
  pose proof (Z.mod_pos_bound V' (2 ^ k) P) as B'.
  assert (Q : V / 2 ^ k <= V' / 2 ^ k) by (apply Z.div_le_mono; lia).
  set (q := V / 2 ^ k) in *. set (r := V mod 2 ^ k) in *.
  set (q' := V' / 2 ^ k) in *. set (r' := V' mod 2 ^ k) in *.
  set (p := 2 ^ k) in *. clearbody q r q' r' p.
  destruct (Z.eq_dec q q') as [<-|Nq].
  - assert (r <= r') by nia.
    destruct (Z.ltb_spec p (2 * r)), (Z.ltb_spec p (2 * r')),
      (Z.eqb_spec p (2 * r)), (Z.eqb_spec p (2 * r')), (Z.odd q); cbn; lia.
  - destruct ((p <? 2 * r) || (p =? 2 * r) && Z.odd q),
      ((p <? 2 * r') || (p =? 2 * r') && Z.odd q'); lia.
Qed.

(** *** Rounding: [binary_round_aux] and [binary_round] *)

Lemma binary_round_aux_pack (s : bool) (mx ex : Z) (lx : location) :
  0 <= mx -> ex <= fexp prec emax (Zdigits2 mx + ex) ->
  let E := fexp prec emax (Zdigits2 mx + ex) in
  let n := E - ex in
  let R := Nat.iter (Z.to_nat n) shr_1 (shr_record_of_loc mx lx) in
  let m2 := round_nearest_even (shr_m R) (loc_of_shr_record R) in
  binary_round_aux prec emax s mx ex lx = pack s m2 E /\
  mx / 2 ^ n <= m2 <= mx / 2 ^ n + 1 /\
  -149 <= E /\
  mx / 2 ^ n < 2 ^ 24 /\
  (2 ^ 23 <= mx / 2 ^ n \/ (E = -149 /\ mx / 2 ^ n < 2 ^ 23)).
Proof.
  intros Hmx HP E n R m2.
  assert (HE : E = Z.max (Zdigits2 mx + ex - 24) (-149)) by reflexivity.
  assert (Hn : n = E - ex) by reflexivity.
  assert (HPE : ex <= E) by exact HP.
  assert (Hm1 : shr_m R = mx / 2 ^ n).
  { unfold R. rewrite shr_iter_m by (rewrite shr_record_of_loc_m; exact Hmx).
    rewrite shr_record_of_loc_m, Z2Nat.id by lia. reflexivity. }
  assert (Hm2 : mx / 2 ^ n <= m2 <= mx / 2 ^ n + 1).
  { unfold m2. rewrite <- Hm1. apply round_nearest_even_range. }
  assert (Hpow : 0 < 2 ^ n) by (apply Z.pow_pos_nonneg; lia).
  assert (Hq0 : 0 <= mx / 2 ^ n) by (apply Z.div_pos; lia).
  assert (Hshape : mx / 2 ^ n < 2 ^ 24 /\
                   (2 ^ 23 <= mx / 2 ^ n \/ (E = -149 /\ mx / 2 ^ n < 2 ^ 23))).
  { destruct (Z.eq_dec mx 0) as [Zm|Hnz].
    - rewrite Zm in *. rewrite Z.div_0_l by lia. split; [lia|]. right.
      split; [|lia]. cbn [Zdigits2] in HE. lia.
    - assert (Hpos : 0 < mx) by lia.
      pose proof (Zdigits2_bounds mx Hpos) as Hb.
      pose proof (Zdigits2_pos mx Hpos) as Hd.
      revert HE Hb Hd. generalize (Zdigits2 mx). intros d HE Hb Hd.
      destruct (Z.le_gt_cases (-149) (d + ex - 24)) as [Nor|Sub].
      + assert (En : n = d - 24) by lia.
        destruct (div_pow2_range mx d n) as [Hi Lo]; try lia.
        rewrite En in *. replace (d - (d - 24)) with 24 in Hi by lia.
        replace (d - (d - 24) - 1) with 23 in Lo by lia.
        split; [exact Hi|left; apply Lo; lia].
      + assert (En : n = -149 - ex) by lia.
        assert (Hlt : mx / 2 ^ n < 2 ^ 23).
        { destruct (Z.le_gt_cases n d) as [Le|Gt].
          - destruct (div_pow2_range mx d n) as [Hi _]; try lia.
            apply Z.lt_le_trans with (1 := Hi). apply Z.pow_le_mono_r; lia.
          - rewrite Z.div_small; [lia|]. split; [lia|].
            apply Z.lt_le_trans with (2 ^ d); [lia|]. apply Z.pow_le_mono_r; lia. }
        split; [lia|]. right. split; [lia|exact Hlt]. }
  split; [|split; [exact Hm2|split; [lia|exact Hshape]]].
  unfold binary_round_aux, shr_fexp. rewrite !shr_nat.
  fold E. fold n. fold R. cbv zeta. fold m2.
  replace (ex + Z.max n 0) with E by lia.
  destruct Hshape as [Hlt24 Hcan].
  assert (Hm2' : 0 <= m2 <= 2 ^ 24) by lia.
  assert (Hn2 : fexp prec emax (Zdigits2 m2 + E) - E =
                Z.max (Zdigits2 m2 + E - 24) (-149) - E) by reflexivity.
  revert Hn2. generalize (fexp prec emax (Zdigits2 m2 + E) - E). intros n2 Hn2.
  destruct (Z.eq_dec m2 0) as [Z2|NZ2].
  - (* rounded to zero *)
    rewrite Z2 in *. cbn [Zdigits2] in Hn2.
    replace (Z.to_nat n2) with 0%nat by lia. reflexivity.
  - assert (Hp2 : 0 < m2) by lia.
    destruct (Z.eq_dec m2 (2 ^ 24)) as [Top|NTop].
    + rewrite Top in *. change (Zdigits2 (2 ^ 24)) with 25 in Hn2.
      assert (Hone : n2 = 1) by lia. rewrite Hone.
      cbn -[Z.leb Z.add Z.max]. replace (E + Z.max 1 0) with (E + 1) by lia.
      reflexivity.
    + assert (Hd2 : Zdigits2 m2 <= 24).
      { pose proof (Zdigits2_bounds m2 Hp2) as [Lo _].
        destruct (Z.le_gt_cases (Zdigits2 m2) 24); trivial.
        assert (2 ^ 24 <= 2 ^ (Zdigits2 m2 - 1)) by (apply Z.pow_le_mono_r; lia).
        lia. }
      replace (Z.to_nat n2) with 0%nat by lia.
      cbn [Nat.iter nat_rect shr_m shr_record_of_loc].
      replace (E + Z.max n2 0) with E by lia.
      destruct m2 as [|p|p]; try lia. unfold pack.
      destruct (Z.ltb_spec (Zpos p) (2 ^ 24)); [reflexivity|lia].
Qed.

Lemma pack_not_nan (s : bool) (m E : Z) : is_nan (pack s m E) = false.
Proof.
  unfold pack. destruct m as [|p|p]; trivial.
  destruct (Zpos p <? 2 ^ 24); [destruct (E <=? 104)|destruct (E + 1 <=? 104)];
    reflexivity.
Qed.

Lemma pack_sign (s : bool) (m E : Z) : sign_bit (pack s m E) = s.
Proof.
  unfold pack. destruct m as [|p|p]; trivial.
  destruct (Zpos p <? 2 ^ 24); [destruct (E <=? 104)|destruct (E + 1 <=? 104)];
    reflexivity.
Qed.

Lemma pack_valid (s : bool) (m E : Z) :
  m <= 2 ^ 24 -> -149 <= E -> (2 ^ 23 <= m \/ E = -149) ->
  valid (pack s m E) = true.
Proof.
  intros Hm HE Hc. unfold pack. destruct m as [|p|p]; trivial.
  destruct (Z.ltb_spec (Zpos p) (2 ^ 24)).
  - destruct (Z.leb_spec E 104); trivial. apply valid_of_bounds; lia.
  - destruct (Z.leb_spec (E + 1) 104); trivial.
    apply valid_of_bounds; cbn; lia.
Qed.

Lemma binary_round_aux_valid (s : bool) (mx ex : Z) (lx : location) :
  0 <= mx -> ex <= fexp prec emax (Zdigits2 mx + ex) ->
  let r := binary_round_aux prec emax s mx ex lx in
  valid r = true /\ is_nan r = false /\ sign_bit r = s.
Proof.
  intros Hmx HP r.
  destruct (binary_round_aux_pack s mx ex lx Hmx HP) as (E & Hr & HE & Hlt & Hc).
  unfold r. rewrite E. split; [|split].
  - apply pack_valid; lia.
  - apply pack_not_nan.
  - apply pack_sign.
Qed.

Lemma iter_xO (m d : positive) : Zpos (Pos.iter xO m d) = Zpos m * 2 ^ Zpos d.
Proof.
  induction d as [|d IH] using Pos.peano_ind.
  - cbn. lia.
  - rewrite Pos.iter_succ, Pos2Z.inj_xO, IH, Pos2Z.inj_succ.
    rewrite Z.pow_succ_r by lia. lia.
Qed.

Lemma shl_align_spec (m : positive) (e e' : Z) :
  e' <= e ->
  Zpos (fst (shl_align m e e')) = Zpos m * 2 ^ (e - e') /\
  snd (shl_align m e e') = e'.
Proof.
  intros H. unfold shl_align.
  destruct (e' - e) as [|d|d] eqn:E; cbn [fst snd]; try lia.
  - replace (e - e') with 0 by lia. cbn. lia.
  - rewrite iter_xO. replace (e - e') with (Zpos d) by lia. auto.
Qed.

Lemma shl_align_id (m : positive) (e e' : Z) :
  e <= e' -> shl_align m e e' = (m, e).
Proof.
  intros H. unfold shl_align. destruct (e' - e) eqn:E; trivial. lia.
Qed.

Lemma binary_round_pack (s : bool) (m : positive) (e : Z) :
  -149 <= e ->
  let N := Zpos m * 2 ^ (e + 149) in
  binary_round prec emax s m e = pack s (rne_shift N (excess N)) (excess N - 149).
Proof.
  intros He N.
  assert (HN : 0 < N) by (apply Z.mul_pos_pos; [lia|apply Z.pow_pos_nonneg; lia]).
  assert (HdN : Zdigits2 N = Zdigits2 (Zpos m) + (e + 149))
    by (apply Zdigits2_mul_pow2; lia).
  pose proof (Zdigits2_pos (Zpos m) eq_refl) as Hd.
  unfold binary_round.
  set (F := fexp prec emax (Zpos (digits2_pos m) + e)).
  assert (HF : F = Z.max (Zdigits2 (Zpos m) + e - 24) (-149)) by reflexivity.
  assert (Hk : excess N = F + 149) by (unfold excess; lia).
  destruct (Z.lt_ge_cases F e) as [Left|Right].
  - (* the mantissa is shifted left: no digit is lost *)
    destruct (shl_align_spec m e F) as [Hm Hs]; [lia|].
    destruct (shl_align m e F) as [mz ez]. cbn [fst snd] in Hm, Hs. subst ez.
    assert (Hdz : Zdigits2 (Zpos mz) = Zdigits2 (Zpos m) + (e - F))
      by (rewrite Hm; apply Zdigits2_mul_pow2; lia).
    assert (HPz : fexp prec emax (Zdigits2 (Zpos mz) + F) = F)
      by (rewrite fexp_eq, Hdz; lia).
    destruct (binary_round_aux_pack s (Zpos mz) F loc_Exact) as (E & _);
      [lia|rewrite HPz; lia|].
    rewrite E, HPz. replace (F - F) with 0 by lia.
    cbn [Z.to_nat Nat.iter nat_rect shr_record_of_loc shr_m loc_of_shr_record
         round_nearest_even].
    rewrite Hk. replace (F + 149 - 149) with F by lia. f_equal.
    unfold N. replace (e + 149) with ((e - F) + (F + 149)) by lia.
    rewrite Z.pow_add_r by lia. rewrite Z.mul_assoc, <- Hm.
    now rewrite rne_shift_exact by lia.
  - rewrite shl_align_id by lia.
    assert (HPz : fexp prec emax (Zdigits2 (Zpos m) + e) = F) by reflexivity.
    destruct (binary_round_aux_pack s (Zpos m) e loc_Exact) as (E & _);
      [lia|rewrite HPz; lia|].
    rewrite E, HPz.
    change (shr_record_of_loc (Zpos m) loc_Exact)
      with (Build_shr_record (Zpos m) false false).
    rewrite round_shr_exact by lia. rewrite Z2Nat.id by lia.
    rewrite Hk. replace (F + 149 - 149) with F by lia. f_equal.
    unfold N. replace (F + 149) with ((F - e) + (e + 149)) by lia.
    now rewrite rne_shift_scale by lia.
Qed.

(** The mantissa kept for a magnitude [N] has the canonical shape. *)
Lemma rne_excess_shape (N : Z) :
  0 < N ->
  let k := excess N in
  let m := rne_shift N k in
  0 <= k /\ 1 <= m <= 2 ^ 24 /\ (2 ^ 23 <= m \/ k = 0) /\
  N / 2 ^ k <= m <= N / 2 ^ k + 1 /\
  (0 < k -> 2 ^ 23 <= N / 2 ^ k < 2 ^ 24).
Proof.
  intros HN k m.
  pose proof (Zdigits2_bounds N HN) as Hb. pose proof (Zdigits2_pos N HN) as Hd.
  assert (Hk : k = Z.max (Zdigits2 N - 24) 0) by reflexivity.
  pose proof (rne_shift_range N k) as Hr. fold m in Hr.
  revert Hk Hb Hd. generalize (Zdigits2 N). intros d Hk Hb Hd.
  destruct (Z.le_gt_cases d 24) as [Small|Big].
  - assert (k = 0) by lia.
    assert (m = N) by (unfold m; rewrite H; apply rne_shift_0).
    assert (N < 2 ^ 24)
      by (apply Z.lt_le_trans with (2 ^ d); [lia|apply Z.pow_le_mono_r; lia]).
    rewrite H in *. change (2 ^ 0) with 1 in *. rewrite Z.div_1_r in *.
    repeat split; try lia.
  - assert (Ek : k = d - 24) by lia.
    destruct (div_pow2_range N d k) as [Hi Lo]; try lia.
    rewrite Ek in Hi, Lo. replace (d - (d - 24)) with 24 in Hi by lia.
    replace (d - (d - 24) - 1) with 23 in Lo by lia.
    rewrite <- Ek in Hi, Lo. specialize (Lo ltac:(lia)).
    repeat split; try lia.
Qed.

Lemma rounded_mono (N N' : Z) : 0 < N <= N' -> rounded N <= rounded N'.
Proof.
  intros [H0 H]. unfold rounded.
  destruct (rne_excess_shape N H0) as (Hk & Hm & Hc & Hq & Hn).
  destruct (rne_excess_shape N' ltac:(lia)) as (Hk' & Hm' & Hc' & Hq' & Hn').
  pose proof (Zdigits2_le N N' (conj H0 H)) as Hd.
  assert (Hkk : excess N <= excess N') by (unfold excess; lia).
  destruct (Z.eq_dec (excess N) (excess N')) as [E|NE].
  - rewrite <- E. apply Z.mul_le_mono_nonneg_r; [apply Z.pow_nonneg; lia|].
    apply rne_shift_mono; lia.
  - assert (Lt : excess N < excess N') by lia.
    specialize (Hn' ltac:(lia)).
    set (k := excess N) in *. set (k' := excess N') in *.
    assert (Pk : 0 < 2 ^ k) by (apply Z.pow_pos_nonneg; lia).
    assert (S : 2 * 2 ^ k <= 2 ^ k') by (apply pow2_step; lia).
    change (2 ^ 24) with 16777216 in *. change (2 ^ 23) with 8388608 in *.
    nia.
Qed.

Lemma pack_scaled (s : bool) (m E : Z) :
  0 < m <= 2 ^ 24 -> -149 <= E -> (2 ^ 23 <= m \/ E = -149) ->
  (m * 2 ^ (E + 149) < 2 ^ 24 * 2 ^ 253 ->
   is_finite (pack s m E) = true /\
   scaled (pack s m E) = signed s (m * 2 ^ (E + 149))) /\
  (2 ^ 24 * 2 ^ 253 <= m * 2 ^ (E + 149) -> pack s m E = S754_infinity s).
Proof.
  intros Hm HE Hc.
  assert (PE : 0 < 2 ^ (E + 149)) by (apply pow2_pos; lia).
  assert (Small : E <= 104 -> 2 ^ (E + 149) <= 2 ^ 253)
    by (intros; apply Z.pow_le_mono_r; lia).
  assert (Large : 104 < E -> 2 * 2 ^ 253 <= 2 ^ (E + 149))
    by (intros; apply pow2_step; lia).
  assert (P253 : 0 < 2 ^ 253) by (apply pow2_pos; lia).
  destruct m as [|p|p]; try lia. unfold pack.
  change (2 ^ 24) with 16777216 in *. change (2 ^ 23) with 8388608 in *.
  destruct (Z.ltb_spec (Zpos p) 16777216) as [Lt|Ge].
  - destruct (Z.leb_spec E 104) as [Le|Gt].
    + split; [intros _|intros H; specialize (Small Le); nia].
      split; [reflexivity|]. cbn [scaled]. unfold signed. destruct s; ring.
    + specialize (Large Gt). split; [intros H|reflexivity].
      destruct Hc; [nia|lia].
  - assert (Ep : Zpos p = 16777216) by lia.
    assert (S1 : 2 ^ (E + 1 + 149) = 2 * 2 ^ (E + 149))
      by (replace (E + 1 + 149) with (Z.succ (E + 149)) by lia;
          apply Z.pow_succ_r; lia).
    destruct (Z.leb_spec (E + 1) 104) as [Le|Gt].
    + assert (S2 : 2 * 2 ^ (E + 149) <= 2 ^ 253) by (apply pow2_step; lia).
      split; [intros _|intros H; nia].
      split; [reflexivity|]. cbn [scaled]. unfold signed. rewrite S1, Ep.
      change (Zpos (2 ^ 23)) with 8388608. destruct s; ring.
    + split; [intros H|reflexivity].
      destruct (Z.eq_dec E 104) as [->|NE].
      * change (104 + 149) with 253 in *. nia.
      * specialize (Large ltac:(lia)). nia.
Qed.

Lemma pack_rounded (s : bool) (N : Z) :
  0 < N ->
  let r := pack s (rne_shift N (excess N)) (excess N - 149) in
  valid r = true /\ is_nan r = false /\ sign_bit r = s /\
  (forall s', r <> S754_zero s') /\
  (rounded N < 2 ^ 24 * 2 ^ 253 ->
   is_finite r = true /\ scaled r = signed s (rounded N)) /\
  (2 ^ 24 * 2 ^ 253 <= rounded N -> r = S754_infinity s).
Proof.
  intros HN r.
  destruct (rne_excess_shape N HN) as (Hk & Hm & Hc & Hq & Hn).
  assert (Hc' : 2 ^ 23 <= rne_shift N (excess N) \/ excess N - 149 = -149) by lia.
  destruct (pack_scaled s (rne_shift N (excess N)) (excess N - 149))
    as [Fin Inf]; try lia.
  replace (excess N - 149 + 149) with (excess N) in Fin, Inf by lia.
  fold (rounded N) in Fin, Inf. fold r in Fin, Inf.
  split; [apply pack_valid; lia|].
  split; [apply pack_not_nan|]. split; [apply pack_sign|].
  split; [|split; assumption].
  intros s' Hz. unfold r, pack in Hz.
  destruct (rne_shift N (excess N)) as [|p|p]; try lia.
  destruct (Zpos p <? 2 ^ 24);
    [destruct (excess N - 149 <=? 104)|destruct (excess N - 149 + 1 <=? 104)];
    discriminate.
Qed.

(** Rounding a number that is already a binary32 number gives it back. *)
Lemma pack_representable (s : bool) (m : positive) (e : Z) :
  valid (S754_finite s m e) = true ->
  let N := Zpos m * 2 ^ (e + 149) in
  pack s (rne_shift N (excess N)) (excess N - 149) = S754_finite s m e /\
  rounded N = N.
Proof.
  intros V N. apply valid_finite_bounds in V. destruct V as (He & Hm & Hc).
  assert (HdN : Zdigits2 N = Zdigits2 (Zpos m) + (e + 149))
    by (apply Zdigits2_mul_pow2; lia).
  pose proof (Zdigits2_bounds (Zpos m) eq_refl) as [Lo Hi].
  pose proof (Zdigits2_pos (Zpos m) eq_refl) as Hd.
  assert (Hd24 : Zdigits2 (Zpos m) <= 24).
  { destruct (Z.le_gt_cases (Zdigits2 (Zpos m)) 24); trivial.
    assert (2 ^ 24 <= 2 ^ (Zdigits2 (Zpos m) - 1)) by (apply Z.pow_le_mono_r; lia).
    lia. }
  assert (Hk : excess N = e + 149).
  { unfold excess. rewrite HdN. destruct Hc as [Hc|Hc]; [|lia].
    assert (Zdigits2 (Zpos m) = 24); [|lia].
    destruct (Z.le_gt_cases 24 (Zdigits2 (Zpos m))); [lia|].
    assert (2 ^ Zdigits2 (Zpos m) <= 2 ^ 23) by (apply Z.pow_le_mono_r; lia). lia. }
  assert (Hr : rne_shift N (e + 149) = Zpos m)
    by (unfold N; apply rne_shift_exact; lia).
  unfold rounded. rewrite Hk, Hr.
  replace (e + 149 - 149) with e by lia. split; [|reflexivity].
  unfold pack. destruct (Z.ltb_spec (Zpos m) (2 ^ 24)); [|lia].
  destruct (Z.leb_spec e 104); [reflexivity|lia].
Qed.

Lemma binary_round_aux_sign (s : bool) (mx ex : Z) (lx : location) :
  0 <= mx ->
  is_nan (binary_round_aux prec emax s mx ex lx) = false /\
  sign_bit (binary_round_aux prec emax s mx ex lx) = s.
Proof.
  intros Hmx. unfold binary_round_aux, shr_fexp. rewrite !shr_nat.
  set (R := Nat.iter _ shr_1 (shr_record_of_loc mx lx)).
  assert (H1 : 0 <= shr_m R)
    by (apply shr_iter_nonneg; rewrite shr_record_of_loc_m; exact Hmx).
  pose proof (round_nearest_even_range (shr_m R) (loc_of_shr_record R)) as H2.
  set (m2 := round_nearest_even (shr_m R) (loc_of_shr_record R)) in *.
  set (R2 := Nat.iter _ shr_1 (shr_record_of_loc m2 loc_Exact)).
  assert (H3 : 0 <= shr_m R2)
    by (apply shr_iter_nonneg; cbn [shr_record_of_loc shr_m]; lia).
  cbv zeta. destruct (shr_m R2) as [|p|p]; try lia; [split; reflexivity|].
  match goal with |- context [if ?c then _ else _] => destruct c end;
    split; reflexivity.
Qed.

(** An exact input of [binary_round_aux] whose value is [N * 2 ^ -149]. *)
Lemma binary_round_aux_exact (s : bool) (mx ex N : Z) :
  0 < mx -> ex <= fexp prec emax (Zdigits2 mx + ex) ->
  (-149 <= ex /\ N = mx * 2 ^ (ex + 149)) \/
  (ex < -149 /\ mx = N * 2 ^ (-149 - ex)) ->
  binary_round_aux prec emax s mx ex loc_Exact =
  pack s (rne_shift N (excess N)) (excess N - 149).
Proof.
  intros Hmx HP HN.
  destruct (binary_round_aux_pack s mx ex loc_Exact) as (E & _); [lia|exact HP|].
  rewrite E. clear E.
  change (shr_record_of_loc mx loc_Exact) with (Build_shr_record mx false false).
  rewrite round_shr_exact by lia.
  set (F := fexp prec emax (Zdigits2 mx + ex)) in *.
  assert (HF : F = Z.max (Zdigits2 mx + ex - 24) (-149)) by reflexivity.
  rewrite Z2Nat.id by lia.
  pose proof (Zdigits2_pos mx Hmx) as Hd.
  destruct HN as [[He ->]|[He Hm]].
  - assert (HdN : Zdigits2 (mx * 2 ^ (ex + 149)) = Zdigits2 mx + (ex + 149))
      by (apply Zdigits2_mul_pow2; lia).
    assert (Hk : excess (mx * 2 ^ (ex + 149)) = F + 149) by (unfold excess; lia).
    rewrite Hk. replace (F + 149 - 149) with F by lia. f_equal.
    replace (F + 149) with ((F - ex) + (ex + 149)) by lia.
    now rewrite rne_shift_scale by lia.
  - assert (HNpos : 0 < N).
    { assert (0 < 2 ^ (-149 - ex)) by (apply pow2_pos; lia). nia. }
    assert (HdN : Zdigits2 mx = Zdigits2 N + (-149 - ex))
      by (rewrite Hm; apply Zdigits2_mul_pow2; lia).
    assert (Hk : excess N = F + 149) by (unfold excess; lia).
    rewrite Hk. replace (F + 149 - 149) with F by lia. f_equal.
    rewrite Hm. replace (F - ex) with ((F + 149) + (-149 - ex)) by lia.
    now rewrite rne_shift_scale by lia.
Qed.

(** A magnitude with at most 24 significant digits is not changed by the
    rounding. *)
Lemma rounded_short (m j : Z) :
  0 < m < 2 ^ 24 -> 0 <= j -> rounded (m * 2 ^ j) = m * 2 ^ j.
Proof.
  intros Hm Hj. unfold rounded.
  assert (Hd : Zdigits2 (m * 2 ^ j) = Zdigits2 m + j)
    by (apply Zdigits2_mul_pow2; lia).
  pose proof (Zdigits2_bounds m ltac:(lia)) as [Lo _].
  pose proof (Zdigits2_pos m ltac:(lia)) as Hp.
  assert (Hd24 : Zdigits2 m <= 24).
  { destruct (Z.le_gt_cases (Zdigits2 m) 24); trivial.
    assert (2 ^ 24 <= 2 ^ (Zdigits2 m - 1)) by (apply Z.pow_le_mono_r; lia). lia. }
  set (k := excess (m * 2 ^ j)).
  assert (Hk : 0 <= k <= j) by (unfold k, excess; lia).
  replace j with ((j - k) + k) by lia.
  rewrite Z.pow_add_r, Z.mul_assoc by lia.
  now rewrite rne_shift_exact by lia.
Qed.

(** *** Subtraction, multiplication and division *)

Lemma fmul_1024_valid (c : float) :
  is_nan c = false ->
  valid (fmul c (of_Z 1024)) = true /\ is_nan (fmul c (of_Z 1024)) = false.
Proof.
  destruct c as [s|s| |s m e]; try discriminate; intros _;
    try (split; reflexivity).
  change (fmul (S754_finite s m e) (of_Z 1024))
    with (binary_round_aux prec emax (xorb s false) (Zpos (m * 8388608)) (e + -13) loc_Exact).
  destruct (binary_round_aux_valid (xorb s false) (Zpos (m * 8388608)) (e + -13) loc_Exact)
    as (V & N & _); try tauto; try lia.
  rewrite Pos2Z.inj_mul. change (Zpos 8388608) with (2 ^ 23).
  rewrite Zdigits2_mul_pow2 by lia. rewrite fexp_eq.
  pose proof (Zdigits2_pos (Zpos m)). lia.
Qed.

(** The product by [1024.0f] of a finite number is exact, or overflows. *)
Lemma fmul_1024_exact (s : bool) (m : positive) (e : Z) :
  valid (S754_finite s m e) = true ->
  let N := Zpos m * 2 ^ (e + 159) in
  let a := fmul (S754_finite s m e) (of_Z 1024) in
  valid a = true /\
  (N < 2 ^ 24 * 2 ^ 253 -> is_finite a = true /\ scaled a = signed s N) /\
  (2 ^ 24 * 2 ^ 253 <= N -> a = S754_infinity s).
Proof.
  intros V N a. pose proof (valid_finite_bounds _ _ _ V) as (He & Hm & Hc).
  assert (HN : 0 < N) by (apply Z.mul_pos_pos; [lia|apply pow2_pos; lia]).
  assert (Ea : a = pack s (rne_shift N (excess N)) (excess N - 149)).
  { unfold a.
    change (fmul (S754_finite s m e) (of_Z 1024))
      with (binary_round_aux prec emax (xorb s false) (Zpos (m * 8388608)) (e + -13) loc_Exact).
    rewrite xorb_false_r.
    rewrite Pos2Z.inj_mul. change (Zpos 8388608) with (2 ^ 23).
    assert (P23 : 0 < 2 ^ 23) by (apply pow2_pos; lia).
    apply binary_round_aux_exact.
    - apply Z.mul_pos_pos; lia.
    - rewrite Zdigits2_mul_pow2 by lia. rewrite fexp_eq.
      pose proof (Zdigits2_pos (Zpos m) eq_refl). lia.
    - destruct (Z.le_gt_cases (-149) (e + -13)) as [Le|Gt].
      + left. split; [exact Le|]. unfold N.
        rewrite <- Z.mul_assoc, <- Z.pow_add_r by lia. do 2 f_equal. lia.
      + right. split; [lia|]. unfold N.
        rewrite <- Z.mul_assoc, <- Z.pow_add_r by lia. do 2 f_equal. lia. }
  destruct (pack_rounded s N HN) as (Va & _ & _ & _ & Fin & Inf).
  cbv zeta in Va, Fin, Inf. rewrite <- Ea in *.
  assert (R : rounded N = N) by (apply rounded_short; lia).
  rewrite R in Fin, Inf. auto.
Qed.

Lemma fsub_spec (a b : float) :
  valid a = true -> valid b = true ->
  is_finite a = true -> is_finite b = true ->
  let D := scaled a - scaled b in
  (D = 0 -> is_zero (fsub a b) = true) /\
  (D <> 0 ->
   fsub a b = pack (D <? 0) (rne_shift (Z.abs D) (excess (Z.abs D)))
                   (excess (Z.abs D) - 149)).
Proof.
  intros Va Vb Fa Fb D.
  destruct a as [sa|sa| |sa ma ea], b as [sb|sb| |sb mb eb]; try discriminate.
  - split; [intros _; destruct sa, sb; reflexivity|]. unfold D. cbn. lia.
  - (* 0 - b *)
    pose proof (valid_finite_bounds _ _ _ Vb) as (He & Hm & Hc).
    assert (P : 0 < 2 ^ (eb + 149)) by (apply pow2_pos; lia).
    unfold D. rewrite scaled_finite. cbn [scaled].
    split; [destruct sb; cbn [signed]; nia|]. intros _.
    change (fsub (S754_zero sa) (S754_finite sb mb eb)) with (S754_finite (negb sb) mb eb).
    assert (Vn : valid (S754_finite (negb sb) mb eb) = true) by exact Vb.
    destruct (pack_representable (negb sb) mb eb Vn) as [E _]. cbv zeta in E.
    replace (0 - signed sb (Zpos mb * 2 ^ (eb + 149)) <? 0) with (negb sb)
      by (destruct sb; cbn [signed negb]; symmetry;
          [apply Z.ltb_ge|apply Z.ltb_lt]; nia).
    replace (Z.abs (0 - signed sb (Zpos mb * 2 ^ (eb + 149))))
      with (Zpos mb * 2 ^ (eb + 149)) by (destruct sb; cbn [signed]; nia).
    now rewrite E.
  - (* a - 0 *)
    pose proof (valid_finite_bounds _ _ _ Va) as (He & Hm & Hc).
    assert (P : 0 < 2 ^ (ea + 149)) by (apply pow2_pos; lia).
    unfold D. rewrite scaled_finite. cbn [scaled].
    split; [destruct sa; cbn [signed]; nia|]. intros _.
    change (fsub (S754_finite sa ma ea) (S754_zero sb)) with (S754_finite sa ma ea).
    destruct (pack_representable sa ma ea Va) as [E _]. cbv zeta in E.
    replace (signed sa (Zpos ma * 2 ^ (ea + 149)) - 0 <? 0) with sa
      by (destruct sa; cbn [signed negb]; symmetry;
          [apply Z.ltb_lt|apply Z.ltb_ge]; nia).
    replace (Z.abs (signed sa (Zpos ma * 2 ^ (ea + 149)) - 0))
      with (Zpos ma * 2 ^ (ea + 149)) by (destruct sa; cbn [signed]; nia).
    now rewrite E.
  - (* two finite numbers *)
    pose proof (valid_finite_bounds _ _ _ Va) as (Hea & Hma & Hca).
    pose proof (valid_finite_bounds _ _ _ Vb) as (Heb & Hmb & Hcb).
    unfold D. rewrite !scaled_finite.
    unfold fsub, SFsub.
    set (ez := Z.min ea eb).
    destruct (shl_align_spec ma ea ez) as [Ha _]; [unfold ez; lia|].
    destruct (shl_align_spec mb eb ez) as [Hb _]; [unfold ez; lia|].
    rewrite Ha, Hb.
    set (Dz := cond_Zopp sa (Zpos ma * 2 ^ (ea - ez)) -
               cond_Zopp sb (Zpos mb * 2 ^ (eb - ez))).
    assert (Pz : 0 < 2 ^ (ez + 149)) by (apply pow2_pos; unfold ez; lia).
    assert (HD : signed sa (Zpos ma * 2 ^ (ea + 149)) -
                 signed sb (Zpos mb * 2 ^ (eb + 149)) = Dz * 2 ^ (ez + 149)).
    { unfold Dz.
      assert (Ea : 2 ^ (ea + 149) = 2 ^ (ea - ez) * 2 ^ (ez + 149))
        by (rewrite <- Z.pow_add_r by (unfold ez; lia); f_equal; lia).
      assert (Eb : 2 ^ (eb + 149) = 2 ^ (eb - ez) * 2 ^ (ez + 149))
        by (rewrite <- Z.pow_add_r by (unfold ez; lia); f_equal; lia).
      rewrite Ea, Eb. unfold signed, cond_Zopp. destruct sa, sb; ring. }
    rewrite HD.
    split.
    + intros Z0. assert (Dz = 0) by nia. rewrite H. reflexivity.
    + intros NZ. assert (Dz <> 0) by nia.
      destruct Dz as [|p|p] eqn:EDz; try lia; cbn [binary_normalize].
      * rewrite binary_round_pack by (unfold ez; lia). cbv zeta.
        replace (Zpos p * 2 ^ (ez + 149) <? 0) with false
          by (symmetry; apply Z.ltb_ge; nia).
        rewrite Z.abs_eq by nia. reflexivity.
      * rewrite binary_round_pack by (unfold ez; lia). cbv zeta.
        replace (Zneg p * 2 ^ (ez + 149) <? 0) with true
          by (symmetry; apply Z.ltb_lt; nia).
        replace (Z.abs (Zneg p * 2 ^ (ez + 149))) with (Zpos p * 2 ^ (ez + 149))
          by nia.
        reflexivity.
Qed.

Lemma new_location_exact (n : Z) : new_location n 0 = loc_Exact.
Proof.
  unfold new_location, new_location_even, new_location_odd.
  destruct (Z.even n); reflexivity.
Qed.

Lemma SFdiv_core_binary_spec (ma mb : positive) (ea eb : Z) :
  exists q e' l s r,
    SFdiv_core_binary prec emax (Zpos ma) ea (Zpos mb) eb = (q, e', l) /\
    0 <= s /\ s = ea - eb - e' /\
    Zpos ma * 2 ^ s = Zpos mb * q + r /\ 0 <= r < Zpos mb /\ 0 <= q /\
    (r = 0 -> l = loc_Exact) /\
    e' <= fexp prec emax (Zdigits2 (Zpos ma) + ea - (Zdigits2 (Zpos mb) + eb)) /\
    e' <= fexp prec emax (Zdigits2 q + e').
Proof.
  unfold SFdiv_core_binary.
  set (d1 := Zdigits2 (Zpos ma)). set (d2 := Zdigits2 (Zpos mb)).
  set (X := d1 + ea - (d2 + eb)).
  set (e' := Z.min (fexp prec emax X) (ea - eb)).
  set (s := ea - eb - e').
  assert (Hs : 0 <= s) by (unfold s, e'; lia).
  set (m' := match s with Zpos _ => Z.shiftl (Zpos ma) s | Z0 => Zpos ma | Zneg _ => 0 end).
  assert (Hm' : m' = Zpos ma * 2 ^ s).
  { unfold m'. destruct s as [|p|p] eqn:Es; try lia.
    apply Z.shiftl_mul_pow2. lia. }
  pose proof (Z_div_mod m' (Zpos mb) ltac:(lia)) as Hdiv.
  destruct (Z.div_eucl m' (Zpos mb)) as [q r] eqn:Ediv.
  destruct Hdiv as [Hq Hr].
  exists q, e', (new_location (Zpos mb) r), s, r.
  assert (Hq0 : 0 <= q) by nia.
  assert (He' : e' <= fexp prec emax X) by (unfold e'; lia).
  repeat split; trivial; try lia.
  - intros ->. apply new_location_exact.
  - (* the quotient has enough digits *)
    pose proof (Zdigits2_bounds (Zpos ma) eq_refl) as [Lo1 Hi1].
    pose proof (Zdigits2_bounds (Zpos mb) eq_refl) as [Lo2 Hi2].
    pose proof (Zdigits2_pos (Zpos ma) eq_refl) as Hd1.
    pose proof (Zdigits2_pos (Zpos mb) eq_refl) as Hd2.
    fold d1 in Lo1, Hi1, Hd1. fold d2 in Lo2, Hi2, Hd2.
    assert (Ps : 0 < 2 ^ s) by (apply pow2_pos; lia).
    assert (Low : 2 ^ (d1 - 1 + s) <= m').
    { rewrite Hm', Z.pow_add_r by lia. nia. }
    rewrite fexp_eq in *.
    destruct (Z.eq_dec q 0) as [->|Nq].
    + cbn [Zdigits2].
      assert (2 ^ (d1 - 1 + s) < 2 ^ d2) by lia.
      assert (d1 - 1 + s < d2) by (apply pow2_lt_inv; lia).
      unfold s in H0. unfold X in *. lia.
    + assert (Hqp : 0 < q) by lia.
      pose proof (Zdigits2_bounds q Hqp) as [_ Hiq].
      pose proof (Zdigits2_pos q Hqp) as Hdq.
      assert (2 ^ (d1 - 1 + s) < 2 ^ (d2 + Zdigits2 q)).
      { rewrite (Z.pow_add_r 2 d2) by lia.
        assert (0 < 2 ^ d2) by (apply pow2_pos; lia). nia. }
      assert (d1 - 1 + s < d2 + Zdigits2 q) by (apply pow2_lt_inv; lia).
      unfold s in H0. unfold X in *. lia.
Qed.

(** The quotient of two finite numbers, as the packing of a mantissa. *)
Lemma fdiv_finite (sa sb : bool) (ma mb : positive) (ea eb : Z) :
  exists q e' s r m2 E,
    fdiv (S754_finite sa ma ea) (S754_finite sb mb eb) = pack (xorb sa sb) m2 E /\
    0 <= s /\ s = ea - eb - e' /\
    Zpos ma * 2 ^ s = Zpos mb * q + r /\ 0 <= r < Zpos mb /\ 0 <= q /\
    e' <= fexp prec emax (Zdigits2 (Zpos ma) + ea - (Zdigits2 (Zpos mb) + eb)) /\
    E = fexp prec emax (Zdigits2 q + e') /\ e' <= E /\ -149 <= E /\
    q / 2 ^ (E - e') <= m2 <= q / 2 ^ (E - e') + 1 /\
    q / 2 ^ (E - e') < 2 ^ 24 /\
    (2 ^ 23 <= q / 2 ^ (E - e') \/ (E = -149 /\ q / 2 ^ (E - e') < 2 ^ 23)) /\
    (r = 0 -> m2 = rne_shift q (E - e')).
Proof.
  destruct (SFdiv_core_binary_spec ma mb ea eb)
    as (q & e' & l & s & r & Ecore & Hs & Es & Hdiv & Hr & Hq & Hl & He' & HP).
  destruct (binary_round_aux_pack (xorb sa sb) q e' l Hq HP)
    as (Epack & Hm2 & HE & Hlt & Hshape).
  exists q, e', s, r.
  eexists. exists (fexp prec emax (Zdigits2 q + e')).
  split.
  { unfold fdiv, SFdiv. rewrite Ecore. exact Epack. }
  repeat split; trivial; try lia.
  intros R0. rewrite (Hl R0).
  change (shr_record_of_loc q loc_Exact) with (Build_shr_record q false false).
  rewrite round_shr_exact by lia. rewrite Z2Nat.id by lia. reflexivity.
Qed.

Lemma quotient_bound (q rm A B Pe Pb : Z) :
  0 < B -> 0 <= rm -> 0 < Pb -> 0 < Pe -> A <= B ->
  q * B + rm * Pb = A * Pe ->
  q <= Pe /\ (q = Pe -> rm = 0).
Proof.
  intros HB Hrm HPb HPe HAB E.
  assert (H1 : 0 <= rm * Pb) by (apply Z.mul_nonneg_nonneg; lia).
  assert (H2 : A * Pe <= B * Pe) by (apply Z.mul_le_mono_nonneg_r; lia).
  assert (H3 : q * B <= Pe * B) by lia.
  split.
  - apply Z.mul_le_mono_pos_r with B; assumption.
  - intros ->. assert (rm * Pb = 0) by lia.
    apply Z.mul_eq_0 in H. lia.
Qed.

(** A quotient of two positive numbers, the first not above the second, is
    at most one. *)
Lemma fdiv_le_one (ma mb : positive) (ea eb : Z) :
  valid (S754_finite false ma ea) = true ->
  valid (S754_finite false mb eb) = true ->
  Zpos ma * 2 ^ (ea + 149) <= Zpos mb * 2 ^ (eb + 149) ->
  let r := fdiv (S754_finite false ma ea) (S754_finite false mb eb) in
  valid r = true /\ is_finite r = true /\ sign_bit r = false /\
  scaled r <= 2 ^ 149.
Proof.
  intros Va Vb HAB r.
  pose proof (valid_finite_bounds _ _ _ Va) as (Hea & Hma & Hca).
  pose proof (valid_finite_bounds _ _ _ Vb) as (Heb & Hmb & Hcb).
  destruct (fdiv_finite false false ma mb ea eb)
    as (q & e' & s & rm & m2 & E & Er & Hs & Es & Hdiv & Hrm & Hq & He' & HE &
        He'E & HE149 & Hm2 & Hlt & Hshape & Hexact).
  fold r in Er. cbn [xorb] in Er.
  assert (PA : 0 < 2 ^ (ea + 149)) by (apply pow2_pos; lia).
  assert (PB : 0 < 2 ^ (eb + 149)) by (apply pow2_pos; lia).
  assert (HB : 0 < Zpos mb * 2 ^ (eb + 149)) by (apply Z.mul_pos_pos; lia).
  (* step 1: the exponent of the quotient is negative *)
  pose proof (Zdigits2_bounds (Zpos ma) eq_refl) as [Lo1 _].
  pose proof (Zdigits2_bounds (Zpos mb) eq_refl) as [_ Hi2].
  pose proof (Zdigits2_pos (Zpos ma) eq_refl) as Hd1.
  pose proof (Zdigits2_pos (Zpos mb) eq_refl) as Hd2.
  set (d1 := Zdigits2 (Zpos ma)) in *. set (d2 := Zdigits2 (Zpos mb)) in *.
  assert (HX : d1 - 1 + (ea + 149) < d2 + (eb + 149)).
  { apply pow2_lt_inv; [lia|].
    rewrite (Z.pow_add_r 2 (d1 - 1)), (Z.pow_add_r 2 d2) by lia.
    assert (2 ^ (d1 - 1) * 2 ^ (ea + 149) <= Zpos ma * 2 ^ (ea + 149))
      by (apply Z.mul_le_mono_nonneg_r; lia).
    assert (Zpos mb * 2 ^ (eb + 149) < 2 ^ d2 * 2 ^ (eb + 149))
      by (apply Z.mul_lt_mono_pos_r; lia).
    lia. }
  rewrite fexp_eq in He'.
  assert (Hneg : e' <= -24) by lia.
  (* step 2: the quotient is at most 2 ^ - e' *)
  assert (Pe : 0 < 2 ^ (- e')) by (apply pow2_pos; lia).
  assert (Hpow : 2 ^ s * 2 ^ (eb + 149) = 2 ^ (ea + 149) * 2 ^ (- e')).
  { rewrite <- !Z.pow_add_r by lia. f_equal. lia. }
  assert (HqB : q * (Zpos mb * 2 ^ (eb + 149)) + rm * 2 ^ (eb + 149) =
                Zpos ma * 2 ^ (ea + 149) * 2 ^ (- e')).
  { replace (q * (Zpos mb * 2 ^ (eb + 149)) + rm * 2 ^ (eb + 149))
      with ((Zpos mb * q + rm) * 2 ^ (eb + 149)) by ring.
    rewrite <- Hdiv, <- !Z.mul_assoc, Hpow. reflexivity. }
  destruct (quotient_bound q rm _ _ _ _ HB (proj1 Hrm) PB Pe HAB HqB)
    as [Hq1 Hq2].
  clear HqB Hpow HX Lo1 Hi2.
  (* step 3: the target exponent is at most -23 *)
  assert (HE23 : E <= -23).
  { rewrite HE, fexp_eq. destruct (Z.eq_dec q 0) as [->|Nq]; [cbn [Zdigits2]; lia|].
    pose proof (Zdigits2_bounds q ltac:(lia)) as [Loq _].
    assert (Zdigits2 q - 1 <= - e') by (apply pow2_le_inv; lia). lia. }
  (* step 4: the kept mantissa is at most 2 ^ - E *)
  set (n := E - e') in *.
  assert (Hn : 0 <= n) by (unfold n; lia).
  assert (Pn : 0 < 2 ^ n) by (apply pow2_pos; lia).
  assert (PE : 0 < 2 ^ (- E)) by (apply pow2_pos; lia).
  assert (Hsplit : 2 ^ (- e') = 2 ^ (- E) * 2 ^ n).
  { rewrite <- Z.pow_add_r by lia. f_equal. unfold n. lia. }
  assert (Hm1 : q / 2 ^ n <= 2 ^ (- E)).
  { apply Z.div_le_upper_bound; [lia|]. lia. }
  assert (Hm2' : m2 <= 2 ^ (- E)).
  { destruct (Z.eq_dec (q / 2 ^ n) (2 ^ (- E))) as [Top|NTop]; [|lia].
    pose proof (Z.mul_div_le q (2 ^ n) Pn) as Hmul. rewrite Top in Hmul.
    assert (Eq : q = 2 ^ (- e')) by lia.
    rewrite (Hexact (Hq2 Eq)), Eq, Hsplit. rewrite rne_shift_exact by lia. lia. }
  (* step 5: the value *)
  assert (P149 : 2 ^ (- E) * 2 ^ (E + 149) = 2 ^ 149).
  { rewrite <- Z.pow_add_r by lia. f_equal. lia. }
  assert (PE149 : 0 < 2 ^ (E + 149)) by (apply pow2_pos; lia).
  assert (HV : m2 * 2 ^ (E + 149) <= 2 ^ 149).
  { rewrite <- P149. apply Z.mul_le_mono_nonneg_r; lia. }
  assert (Hm2nn : 0 <= m2).
  { assert (0 <= q / 2 ^ n) by (apply Z.div_pos; lia). lia. }
  assert (Hval : valid r = true).
  { rewrite Er. apply pack_valid; lia. }
  split; [exact Hval|].
  destruct (Z.eq_dec m2 0) as [Z2|NZ2].
  - rewrite Er, Z2. split; [reflexivity|]. split; [reflexivity|].
    change (0 <= 2 ^ 149). apply Z.pow_nonneg; lia.
  - destruct (pack_scaled false m2 E) as [Fin _]; try lia.
    assert (Hbig : 2 ^ 149 < 2 ^ 24 * 2 ^ 253).
    { rewrite <- Z.pow_add_r by lia. apply Z.pow_lt_mono_r; lia. }
    destruct Fin as [F S]; [lia|].
    rewrite Er. split; [exact F|]. split; [apply pack_sign|].
    rewrite S. cbn [signed]. exact HV.
Qed.

Lemma fmul_sign (a b : float) :
  is_nan a = false -> is_nan b = false ->
  is_zero a = false -> is_zero b = false ->
  is_nan (fmul a b) = false /\
  sign_bit (fmul a b) = xorb (sign_bit a) (sign_bit b).
Proof.
  destruct a as [sa|sa| |sa ma ea], b as [sb|sb| |sb mb eb]; try discriminate;
    intros _ _ _ _; try (split; reflexivity).
  apply binary_round_aux_sign. lia.
Qed.

Lemma fsub_sign_finite (a b : float) :
  valid a = true -> valid b = true ->
  is_finite a = true -> is_finite b = true ->
  flt a b = true ->
  valid (fsub a b) = true /\ is_nan (fsub a b) = false /\
  is_zero (fsub a b) = false /\ sign_bit (fsub a b) = true /\
  valid (fsub b a) = true /\ is_nan (fsub b a) = false /\
  is_zero (fsub b a) = false /\ sign_bit (fsub b a) = false.
Proof.
  intros Va Vb Fa Fb L.
  apply (flt_scaled a b Va Vb Fa Fb) in L.
  destruct (fsub_spec a b Va Vb Fa Fb) as [_ Hab].
  destruct (fsub_spec b a Vb Va Fb Fa) as [_ Hba].
  cbv zeta in Hab, Hba.
  specialize (Hab ltac:(lia)). specialize (Hba ltac:(lia)).
  replace (scaled a - scaled b <? 0) with true in Hab
    by (symmetry; apply Z.ltb_lt; lia).
  replace (scaled b - scaled a <? 0) with false in Hba
    by (symmetry; apply Z.ltb_ge; lia).
  destruct (pack_rounded true (Z.abs (scaled a - scaled b)) ltac:(lia))
    as (V1 & N1 & S1 & Z1 & _).
  destruct (pack_rounded false (Z.abs (scaled b - scaled a)) ltac:(lia))
    as (V2 & N2 & S2 & Z2 & _).
  cbv zeta in *. rewrite <- Hab in *. rewrite <- Hba in *.
  repeat split; trivial.
  - destruct (fsub a b); trivial. exfalso. now apply (Z1 s).
  - destruct (fsub b a); trivial. exfalso. now apply (Z2 s).
Qed.

(** The difference of two numbers, the first below the second, is negative
    and not zero; the opposite difference is positive and not zero. *)
Lemma fsub_sign (a b : float) :
  valid a = true -> valid b = true -> flt a b = true ->
  valid (fsub a b) = true /\ is_nan (fsub a b) = false /\
  is_zero (fsub a b) = false /\ sign_bit (fsub a b) = true /\
  valid (fsub b a) = true /\ is_nan (fsub b a) = false /\
  is_zero (fsub b a) = false /\ sign_bit (fsub b a) = false.
Proof.
  intros Va Vb L.
  destruct (is_finite a) eqn:Fa, (is_finite b) eqn:Fb;
    [now apply fsub_sign_finite| | |];
    destruct a as [sa|sa| |sa ma ea], b as [sb|sb| |sb mb eb];
    try discriminate; try (destruct sa; discriminate);
    try (destruct sb; discriminate);
    try (destruct sa, sb; try discriminate; repeat split).
Qed.

(** The reciprocal of a finite number that is not zero. *)
Lemma fdiv_one_sign (s : bool) (m : positive) (e : Z) :
  valid (S754_finite s m e) = true ->
  let r := fdiv one (S754_finite s m e) in
  valid r = true /\ is_nan r = false /\ is_zero r = false /\ sign_bit r = s.
Proof.
  intros V r. pose proof (valid_finite_bounds _ _ _ V) as (He & Hm & Hc).
  change one with (S754_finite false 8388608 (-23)) in r.
  destruct (fdiv_finite false s 8388608 m (-23) e)
    as (q & e' & sh & rm & m2 & E & Er & Hs & Es & Hdiv & Hrm & Hq & He' & HE &
        He'E & HE149 & Hm2 & Hlt & Hshape & _).
  fold r in Er. cbn [xorb] in Er.
  assert (Hm2pos : 1 <= m2).
  { destruct Hshape as [Nor|[E149 Sub]]; [lia|].
    set (n := E - e') in *.
    assert (Hndef : n = E - e') by reflexivity. clearbody n.
    assert (Hn : 0 <= n) by lia.
    assert (Pn : 0 < 2 ^ n) by (apply pow2_pos; lia).
    assert (Hsh : sh = n + 126 - e) by lia.
    assert (Hsplit : 2 ^ sh = 2 ^ n * 2 ^ (126 - e)).
    { rewrite <- Z.pow_add_r by lia. f_equal. lia. }
    assert (P21 : 2 ^ 1 <= 2 ^ (126 - e)) by (apply Z.pow_le_mono_r; lia).
    change (2 ^ 1) with 2 in P21.
    assert (Hqn : 2 ^ n <= q).
    { rewrite Hsplit in Hdiv. change (2 ^ 24) with 16777216 in *.
      destruct (Z.le_gt_cases (2 ^ n) q) as [|Gt]; trivial. exfalso.
      assert (H1 : Zpos m * q + rm < Zpos m * (q + 1)) by lia.
      assert (H2 : Zpos m * (q + 1) <= 16777216 * 2 ^ n)
        by (apply Z.mul_le_mono_nonneg; lia).
      assert (H3 : 2 ^ n * 2 <= 2 ^ n * 2 ^ (126 - e))
        by (apply Z.mul_le_mono_nonneg_l; lia).
      lia. }
    assert (1 <= q / 2 ^ n).
    { apply Z.div_le_lower_bound; lia. }
    lia. }
  rewrite Er. split; [apply pack_valid; lia|].
  split; [apply pack_not_nan|]. split; [|apply pack_sign].
  unfold pack. destruct m2 as [|p|p]; try lia.
  destruct (Zpos p <? 2 ^ 24); [destruct (E <=? 104)|destruct (E + 1 <=? 104)];
    reflexivity.
Qed.

Lemma finite_positive_shape (f : float) :
  is_finite f = true -> is_zero f = false -> sign_bit f = false ->
  exists m e, f = S754_finite false m e.
Proof.
  destruct f as [s|s| |s m e]; try discriminate. cbn. intros _ _ ->.
  now exists m, e.
Qed.

Lemma fdiv_zero_finite (s sb : bool) (mb : positive) (eb : Z) :
  let r := fdiv (S754_zero s) (S754_finite sb mb eb) in
  is_finite r = true /\ fle zero r = true /\ fle r one = true.
Proof. destruct s, sb; repeat split. Qed.

(** One axis of [Nomalize]: inside a box whose extent is finite, the result
    is a finite number between 0 and 1. *)
Lemma fsub_finite_inv (a b : float) :
  is_finite (fsub a b) = true -> is_finite a = true /\ is_finite b = true.
Proof.
  destruct a as [sa|sa| |sa ma ea], b as [sb|sb| |sb mb eb]; cbn;
    try discriminate; try (split; reflexivity);
    destruct sa, sb; discriminate.
Qed.

(** With equal bounds on an axis the result is not a finite number. *)
Lemma fsub_equal (m M : float) :
  feq m M = true -> is_nan (fsub M m) = true \/ is_zero (fsub M m) = true.
Proof.
  unfold feq, SFeqb.
  destruct m as [s1|s1| |s1 m1 e1], M as [s2|s2| |s2 m2 e2]; cbn [SFcompare];
    try discriminate; try (destruct s1; discriminate);
    try (destruct s2; discriminate).
  - intros _. right. destruct s1, s2; reflexivity.
  - destruct s1, s2; try discriminate; intros _; left; reflexivity.
  - destruct s1, s2; try discriminate;
      destruct (Z.compare_spec e1 e2) as [E| |]; try discriminate; subst e2;
      intros H;
      assert (Em : m1 = m2)
        by (apply Pos.compare_eq; fold (Pos.compare m1 m2) in H;
            destruct (Pos.compare m1 m2); trivial; discriminate);
      subst m2; right; unfold fsub, SFsub; rewrite Z.min_id;
      rewrite shl_align_id by lia; cbn [fst]; rewrite Z.sub_diag; reflexivity.
Qed.

Lemma fdiv_by_zero_or_nan (n d : float) :
  is_nan d = true \/ is_zero d = true -> is_finite (fdiv n d) = false.
Proof.
  intros [H|H]; destruct d; try discriminate; destruct n; reflexivity.
Qed.

(** *** Vectors and boxes *)

Ltac split_andb :=
  repeat match goal with
         | H : _ && _ = true |- _ => apply andb_prop in H; destruct H
         end.

Lemma vec3_all_inv (P : float -> bool) (v : vec3) :
  vec3_all P v = true -> P (x v) = true /\ P (y v) = true /\ P (z v) = true.
Proof.
  unfold vec3_all. intros H.
  apply andb_prop in H. destruct H as [H Hz].
  apply andb_prop in H. tauto.
Qed.

Lemma box_all_inv (P : float -> bool) (b : AABB) :
  box_all P b = true -> vec3_all P (Min b) = true /\ vec3_all P (Max b) = true.
Proof. unfold box_all. intros H. apply andb_prop in H. exact H. Qed.

(** *** update_min and update_max *)

Lemma update_min_loop_exit (sched : list event) :
  forall fuel cell value,
    (List.length sched < fuel)%nat ->
    exists r, update_min_loop fuel sched cell cell value = Some r /\
              r <= value /\
              (Forall no_store sched -> r = Z.min cell value).
Proof.
  induction sched as [|ev sched IH]; intros [|fuel] cell value Hf;
    try (cbn in Hf; lia); cbn [update_min_loop hd tl].
  - destruct (Z.ltb_spec value cell).
    + unfold compare_exchange_weak. rewrite Z.eqb_refl.
      exists value. repeat split; lia.
    + exists cell. repeat split; lia.
  - destruct (Z.ltb_spec value cell) as [Hlt|Hge].
    2:{ exists cell. repeat split; lia. }
    cbn in Hf. assert (Hf' : (List.length sched < fuel)%nat) by lia.
    destruct ev as [| |w]; unfold compare_exchange_weak.
    + rewrite Z.eqb_refl. exists value. repeat split; lia.
    + destruct (IH fuel cell value Hf') as (r & E & B & Q).
      exists r. repeat split; trivial.
      intros F. inversion F; subst. auto.
    + destruct (Z.eqb_spec w cell).
      * exists value. repeat split; try lia.
      * destruct (IH fuel w value Hf') as (r & E & B & Q).
        exists r. repeat split; trivial.
        intros F. inversion F as [|? ? Hx]; subst. destruct Hx.
Qed.

Lemma update_max_loop_exit (sched : list event) :
  forall fuel cell value,
    (List.length sched < fuel)%nat ->
    exists r, update_max_loop fuel sched cell cell value = Some r /\
              value <= r /\
              (Forall no_store sched -> r = Z.max cell value).
Proof.
  induction sched as [|ev sched IH]; intros [|fuel] cell value Hf;
    try (cbn in Hf; lia); cbn [update_max_loop hd tl].
  - destruct (Z.ltb_spec cell value).
    + unfold compare_exchange_weak. rewrite Z.eqb_refl.
      exists value. repeat split; lia.
    + exists cell. repeat split; lia.
  - destruct (Z.ltb_spec cell value) as [Hlt|Hge].
    2:{ exists cell. repeat split; lia. }
    cbn in Hf. assert (Hf' : (List.length sched < fuel)%nat) by lia.
    destruct ev as [| |w]; unfold compare_exchange_weak.
    + rewrite Z.eqb_refl. exists value. repeat split; lia.
    + destruct (IH fuel cell value Hf') as (r & E & B & Q).
      exists r. repeat split; trivial.
      intros F. inversion F; subst. auto.
    + destruct (Z.eqb_spec w cell).
      * exists value. repeat split; try lia.
      * destruct (IH fuel w value Hf') as (r & E & B & Q).
        exists r. repeat split; trivial.
        intros F. inversion F as [|? ? Hx]; subst. destruct Hx.
Qed.

Lemma update_min_alone (fuel : nat) (cell value : Z) :
  update_min (S fuel) [] cell value = Some (Z.min cell value).
Proof.
  destruct (update_min_loop_exit [] (S fuel) cell value) as (r & E & _ & Q);
    [cbn; lia|].
  unfold update_min. rewrite E, Q; auto.
Qed.

Lemma update_max_alone (fuel : nat) (cell value : Z) :
  update_max (S fuel) [] cell value = Some (Z.max cell value).
Proof.
  destruct (update_max_loop_exit [] (S fuel) cell value) as (r & E & _ & Q);
    [cbn; lia|].
  unfold update_max. rewrite E, Q; auto.
Qed.

Lemma seen_skip (cell : Z) (ev : event) (rest : list event) (j : nat) :
  seen cell (ev :: rest) (S j) =
  seen (match ev with Store w => w | _ => cell end) rest j.
Proof. reflexivity. Qed.

Lemma update_min_loop_rounds (sched : list event) :
  forall (fuel : nat) (cell value : Z),
    (List.length sched < fuel)%nat ->
    exists j,
      (j <= List.length sched)%nat /\
      (forall i, (i < j)%nat ->
         (value <? seen cell sched i) &&
         disturbed (nth i sched Quiet) (seen cell sched i) = true) /\
      (value <? seen cell sched j) &&
      disturbed (nth j sched Quiet) (seen cell sched j) = false /\
      update_min_loop fuel sched cell cell value =
        Some (Z.min (seen cell sched j) value).
Proof.
  induction sched as [|ev sched IH]; intros fuel cell value Hf;
    (destruct fuel as [|fuel]; [cbn in Hf; lia|]); cbn [update_min_loop hd tl].
  - exists 0%nat. cbn [seen firstn fold_left nth disturbed].
    rewrite andb_false_r. repeat split; try lia.
    destruct (Z.ltb_spec value cell); unfold compare_exchange_weak.
    + rewrite Z.eqb_refl. now rewrite Z.min_r by lia.
    + now rewrite Z.min_l by lia.
  - destruct (Z.ltb_spec value cell) as [Lt|Ge].
    2:{ exists 0%nat. cbn [seen firstn fold_left nth].
        destruct (Z.ltb_spec value cell); [lia|]. cbn [andb].
        repeat split; try lia. now rewrite Z.min_l by lia. }
    cbn in Hf. assert (Hf' : (List.length sched < fuel)%nat) by lia.
    assert (Stop : forall ev0, disturbed ev0 cell = false ->
              exists j,
                (j <= List.length (ev0 :: sched))%nat /\
                (forall i, (i < j)%nat ->
                   (value <? seen cell (ev0 :: sched) i) &&
                   disturbed (nth i (ev0 :: sched) Quiet) (seen cell (ev0 :: sched) i) = true) /\
                (value <? seen cell (ev0 :: sched) j) &&
                disturbed (nth j (ev0 :: sched) Quiet) (seen cell (ev0 :: sched) j) = false /\
                Some value = Some (Z.min (seen cell (ev0 :: sched) j) value)).
    { intros ev0 D. exists 0%nat. cbn [seen firstn fold_left nth].
      rewrite D, andb_false_r. repeat split; try lia.
      now rewrite Z.min_r by lia. }
    assert (Go : forall ev0 cell',
              disturbed ev0 cell = true ->
              cell' = match ev0 with Store w => w | _ => cell end ->
              exists j,
                (j <= List.length (ev0 :: sched))%nat /\
                (forall i, (i < j)%nat ->
                   (value <? seen cell (ev0 :: sched) i) &&
                   disturbed (nth i (ev0 :: sched) Quiet) (seen cell (ev0 :: sched) i) = true) /\
                (value <? seen cell (ev0 :: sched) j) &&
                disturbed (nth j (ev0 :: sched) Quiet) (seen cell (ev0 :: sched) j) = false /\
                update_min_loop fuel sched cell' cell' value =
                  Some (Z.min (seen cell (ev0 :: sched) j) value)).
    { intros ev0 cell' D ->.
      destruct (IH fuel (match ev0 with Store w => w | _ => cell end) value Hf')
        as (j & Hj & Hd & Hs & E).
      exists (S j). split; [cbn; lia|]. split; [|split].
      - intros [|i] Hi.
        + cbn [seen firstn fold_left nth]. rewrite D.
          destruct (Z.ltb_spec value cell); [reflexivity|lia].
        + rewrite seen_skip. cbn [nth]. apply Hd. lia.
      - rewrite seen_skip. cbn [nth]. exact Hs.
      - rewrite seen_skip. exact E. }
    destruct ev as [| |w]; unfold compare_exchange_weak.
    + rewrite Z.eqb_refl. now apply Stop.
    + now apply (Go Spurious cell).
    + destruct (Z.eqb_spec w cell) as [->|Ne].
      * apply Stop. cbn. now rewrite Z.eqb_refl.
      * apply (Go (Store w) w); trivial. cbn.
        destruct (Z.eqb_spec w cell); [contradiction|reflexivity].
Qed.

Lemma update_max_loop_rounds (sched : list event) :
  forall (fuel : nat) (cell value : Z),
    (List.length sched < fuel)%nat ->
    exists j,
      (j <= List.length sched)%nat /\
      (forall i, (i < j)%nat ->
         (seen cell sched i <? value) &&
         disturbed (nth i sched Quiet) (seen cell sched i) = true) /\
      (seen cell sched j <? value) &&
      disturbed (nth j sched Quiet) (seen cell sched j) = false /\
      update_max_loop fuel sched cell cell value =
        Some (Z.max (seen cell sched j) value).
Proof.
  induction sched as [|ev sched IH]; intros fuel cell value Hf;
    (destruct fuel as [|fuel]; [cbn in Hf; lia|]); cbn [update_max_loop hd tl].
  - exists 0%nat. cbn [seen firstn fold_left nth disturbed].
    rewrite andb_false_r. repeat split; try lia.
    destruct (Z.ltb_spec cell value); unfold compare_exchange_weak.
    + rewrite Z.eqb_refl. now rewrite Z.max_r by lia.
    + now rewrite Z.max_l by lia.
  - destruct (Z.ltb_spec cell value) as [Lt|Ge].
    2:{ exists 0%nat. cbn [seen firstn fold_left nth].
        destruct (Z.ltb_spec cell value); [lia|]. cbn [andb].
        repeat split; try lia. now rewrite Z.max_l by lia. }
    cbn in Hf. assert (Hf' : (List.length sched < fuel)%nat) by lia.
    assert (Stop : forall ev0, disturbed ev0 cell = false ->
              exists j,
                (j <= List.length (ev0 :: sched))%nat /\
                (forall i, (i < j)%nat ->
                   (seen cell (ev0 :: sched) i <? value) &&
                   disturbed (nth i (ev0 :: sched) Quiet) (seen cell (ev0 :: sched) i) = true) /\
                (seen cell (ev0 :: sched) j <? value) &&
                disturbed (nth j (ev0 :: sched) Quiet) (seen cell (ev0 :: sched) j) = false /\
                Some value = Some (Z.max (seen cell (ev0 :: sched) j) value)).
    { intros ev0 D. exists 0%nat. cbn [seen firstn fold_left nth].
      rewrite D, andb_false_r. repeat split; try lia.
      now rewrite Z.max_r by lia. }
    assert (Go : forall ev0 cell',
              disturbed ev0 cell = true ->
              cell' = match ev0 with Store w => w | _ => cell end ->
              exists j,
                (j <= List.length (ev0 :: sched))%nat /\
                (forall i, (i < j)%nat ->
                   (seen cell (ev0 :: sched) i <? value) &&
                   disturbed (nth i (ev0 :: sched) Quiet) (seen cell (ev0 :: sched) i) = true) /\
                (seen cell (ev0 :: sched) j <? value) &&
                disturbed (nth j (ev0 :: sched) Quiet) (seen cell (ev0 :: sched) j) = false /\
                update_max_loop fuel sched cell' cell' value =
                  Some (Z.max (seen cell (ev0 :: sched) j) value)).
    { intros ev0 cell' D ->.
      destruct (IH fuel (match ev0 with Store w => w | _ => cell end) value Hf')
        as (j & Hj & Hd & Hs & E).
      exists (S j). split; [cbn; lia|]. split; [|split].
      - intros [|i] Hi.
        + cbn [seen firstn fold_left nth]. rewrite D.
          destruct (Z.ltb_spec cell value); [reflexivity|lia].
        + rewrite seen_skip. cbn [nth]. apply Hd. lia.
      - rewrite seen_skip. cbn [nth]. exact Hs.
      - rewrite seen_skip. exact E. }
    destruct ev as [| |w]; unfold compare_exchange_weak.
    + rewrite Z.eqb_refl. now apply Stop.
    + now apply (Go Spurious cell).
    + destruct (Z.eqb_spec w cell) as [->|Ne].
      * apply Stop. cbn. now rewrite Z.eqb_refl.
      * apply (Go (Store w) w); trivial. cbn.
        destruct (Z.eqb_spec w cell); [contradiction|reflexivity].
Qed.

Lemma seen_alone (cell : Z) (sched : list event) (j : nat) :
  Forall no_store sched -> seen cell sched j = cell.
Proof.
  intros F. revert j. induction F as [|ev sched Hev F IH]; intros [|j];
    try reflexivity.
  rewrite seen_skip. destruct ev; [apply IH|apply IH|destruct Hev].
Qed.

(** A store of another thread can make an exchange fail and leave a value
    that still asks for another round: with 5 in the cell, 3 to store and a
    foreign store of 4, the round neither succeeds nor ends the loop. *)
Lemma round_may_not_settle : ~ round_settles (Store 4) 5 5 3.
Proof. unfold round_settles. cbn. intros [H|H]; discriminate. Qed.

(** C8.  Under every schedule of finitely many failing exchanges (spurious
    failures and stores of other threads) the loops of [update_min] and
    [update_max] end: a fuel above the length of the schedule gives a result.
    The loop leaves at the first round [j] that is not disturbed: every
    round before it found a content that did not meet the exit condition and
    had its exchange fail, and round [j] either meets the exit condition or
    has an exchange that succeeds.  The cell is then the unsigned minimum
    (maximum) of the content it held at that round and the argument: it is
    at most (at least) the argument, the thread has moved it only towards
    the extreme, and when no other thread stored into it, it is the minimum
    (maximum) of the cell before the call and the argument. *)
Theorem update_loops_terminate (sched : list event) (cell value : Z) (fuel : nat) :
  (List.length sched < fuel)%nat ->
  (exists r j,
      update_min fuel sched cell value = Some r /\
      (j <= List.length sched)%nat /\
      (forall i, (i < j)%nat ->
         (value <? seen cell sched i) &&
         disturbed (nth i sched Quiet) (seen cell sched i) = true) /\
      (value <? seen cell sched j) &&
      disturbed (nth j sched Quiet) (seen cell sched j) = false /\
      r = Z.min (seen cell sched j) value /\
      r <= value /\ r <= seen cell sched j /\
      (Forall no_store sched -> r = Z.min cell value)) /\
  (exists r j,
      update_max fuel sched cell value = Some r /\
      (j <= List.length sched)%nat /\
      (forall i, (i < j)%nat ->
         (seen cell sched i <? value) &&
         disturbed (nth i sched Quiet) (seen cell sched i) = true) /\
      (seen cell sched j <? value) &&
      disturbed (nth j sched Quiet) (seen cell sched j) = false /\
      r = Z.max (seen cell sched j) value /\
      value <= r /\ seen cell sched j <= r /\
      (Forall no_store sched -> r = Z.max cell value)).
Proof.
  intros Hf. split.
  - destruct (update_min_loop_rounds sched fuel cell value Hf)
      as (j & Hj & Hd & Hs & E).
    exists (Z.min (seen cell sched j) value), j.
    repeat split; trivial; try lia.
    intros F. now rewrite (seen_alone cell sched j F).
  - destruct (update_max_loop_rounds sched fuel cell value Hf)
      as (j & Hj & Hd & Hs & E).
    exists (Z.max (seen cell sched j) value), j.
    repeat split; trivial; try lia.
    intros F. now rewrite (seen_alone cell sched j F).
Qed.

Lemma update_loops_terminate_witness :
  (exists r j,
      update_min 3 [Spurious; Store 4] 5 3 = Some r /\
      (j <= List.length [Spurious; Store 4])%nat /\
      (forall i, (i < j)%nat ->
         (3 <? seen 5 [Spurious; Store 4] i) &&
         disturbed (nth i [Spurious; Store 4] Quiet) (seen 5 [Spurious; Store 4] i)
         = true) /\
      (3 <? seen 5 [Spurious; Store 4] j) &&
      disturbed (nth j [Spurious; Store 4] Quiet) (seen 5 [Spurious; Store 4] j)
      = false /\
      r = Z.min (seen 5 [Spurious; Store 4] j) 3 /\
      r <= 3 /\ r <= seen 5 [Spurious; Store 4] j /\
      (Forall no_store [Spurious; Store 4] -> r = Z.min 5 3)) /\
  (exists r j,
      update_max 3 [Spurious; Store 4] 5 3 = Some r /\
      (j <= List.length [Spurious; Store 4])%nat /\
      (forall i, (i < j)%nat ->
         (seen 5 [Spurious; Store 4] i <? 3) &&
         disturbed (nth i [Spurious; Store 4] Quiet) (seen 5 [Spurious; Store 4] i)
         = true) /\
      (seen 5 [Spurious; Store 4] j <? 3) &&
      disturbed (nth j [Spurious; Store 4] Quiet) (seen 5 [Spurious; Store 4] j)
      = false /\
      r = Z.max (seen 5 [Spurious; Store 4] j) 3 /\
      3 <= r /\ seen 5 [Spurious; Store 4] j <= r /\
      (Forall no_store [Spurious; Store 4] -> r = Z.max 5 3)).
Proof.
  apply (update_loops_terminate [Spurious; Store 4] 5 3 3). cbn. lia.
Defined.

(** *** Expand(const AABB &): the order of patterns and the order of numbers *)

Lemma nonneg_finite_inv (f : float) :
  nonneg_finite f = true ->
  valid f = true /\ is_finite f = true /\ sign_bit f = false /\ is_nan f = false.
Proof.
  unfold nonneg_finite. intros H.
  apply andb_prop in H. destruct H as [H S].
  apply andb_prop in H. destruct H as [V F].
  apply negb_true_iff in S.
  repeat split; trivial. destruct f; trivial; discriminate.
Qed.



Lemma ExpandBox_step_alone (fuel : nat) (box b : AABB) (i : nat) :
  ExpandBox_step (S fuel) box (Some b) i =
  Some (set_AtomicMax
          (set_AtomicMin b i (Z.min (AtomicMin b i) (AtomicMin box i))) i
          (Z.max (AtomicMax b i) (AtomicMax box i))).
Proof.
  unfold ExpandBox_step. rewrite update_min_alone, update_max_alone.
  reflexivity.
Qed.




(** *** Node() *)

(** C6, as stated, fails: the box of a fresh node is not the box with
    [Min = +inf] and [Max = -inf]. *)
Lemma Node_ctor_box_not_infinite :
  Box (Node_ctor unit_box) <> mk_AABB (splat pinf) (splat ninf).
Proof. vm_compute. discriminate. Qed.

(** C6.  A node built by [Node()] has both children equal to the all-ones
    value, and a box with [Min] the largest finite float (pattern
    [0x7F7FFFFF]) and [Max] equal to [+0.0] (pattern 0) on every axis,
    whatever the box held before. *)
Theorem Node_ctor_default (garbage : AABB) :
  L (Node_ctor garbage) = Z.ones 32 /\
  R (Node_ctor garbage) = Z.ones 32 /\
  Box (Node_ctor garbage) =
    mk_AABB (splat (S754_finite false (2 ^ 24 - 1) 104)) (splat (S754_zero false)) /\
  AtomicMin (Box (Node_ctor garbage)) 0 = 0x7F7FFFFF /\
  AtomicMax (Box (Node_ctor garbage)) 0 = 0.
Proof. destruct garbage as [[? ? ?] [? ? ?]]. repeat split. Qed.

(** *** Initialize() and Expand(const glm::vec3 &) *)

Lemma flt_maximum (p : float) :
  valid p = true -> is_inf p = false -> flt maximum p = false.
Proof.
  intros V I. destruct (flt maximum p) eqn:E; trivial.
  apply flt_key in E. destruct E as (_ & _ & E).
  destruct p as [s|s| |s m e]; try discriminate; cbn in E; try lia.
  apply valid_finite_bounds in V. destruct s; cbn in E; lia.
Qed.

Lemma flt_minimum (p : float) :
  valid p = true -> is_inf p = false -> flt p minimum = false.
Proof.
  intros V I. destruct (flt p minimum) eqn:E; trivial.
  apply flt_key in E. destruct E as (_ & _ & E).
  destruct p as [s|s| |s m e]; try discriminate; cbn in E; try lia.
  apply valid_finite_bounds in V. destruct s; cbn in E; lia.
Qed.

(** C5, as stated, fails: [Initialize] does not leave infinities, and
    expanding the initialised box by a point at infinity does not give the
    point. *)
Lemma Initialize_not_infinite :
  Initialize unit_box <> mk_AABB (splat pinf) (splat ninf) /\
  Expand (Initialize unit_box) (splat pinf) <> mk_AABB (splat pinf) (splat pinf).
Proof. split; vm_compute; discriminate. Qed.

(** C5.  [Initialize()] sets every component of [Min] to the largest finite
    float and every component of [Max] to its opposite; [Initialize()]
    followed by [Expand(p)] gives [Min = Max = p] for every point [p] that
    has no infinite component. *)
Theorem Initialize_then_Expand (b : AABB) :
  Initialize b =
    mk_AABB (splat (S754_finite false (2 ^ 24 - 1) 104))
            (splat (S754_finite true (2 ^ 24 - 1) 104)) /\
  forall p : vec3,
    vec3_all valid p = true ->
    vec3_all (fun c => negb (is_inf c)) p = true ->
    Expand (Initialize b) p = mk_AABB p p.
Proof.
  split; [reflexivity|].
  intros [p1 p2 p3] V I.
  apply vec3_all_inv in V. apply vec3_all_inv in I. cbn [x y z] in *.
  rewrite !negb_true_iff in I.
  unfold Expand, Initialize, vmin, vmax, map2, splat, glm.min, glm.max.
  cbn [Min Max x y z].
  rewrite !flt_maximum, !flt_minimum by tauto. reflexivity.
Qed.

Lemma Initialize_then_Expand_witness :
  Expand (Initialize unit_box) (mk_vec3 half (of_Z (-3)) nan) =
  mk_AABB (mk_vec3 half (of_Z (-3)) nan) (mk_vec3 half (of_Z (-3)) nan).
Proof.
  apply (proj2 (Initialize_then_Expand unit_box)); reflexivity.
Defined.

Lemma min_below_point (p m : float) :
  is_nan p = false -> fle (glm.min p m) p = true.
Proof.
  intros N. unfold glm.min. destruct (flt m p) eqn:E.
  - now apply flt_fle.
  - now apply fle_refl.
Qed.

Lemma min_below_old (p m q : float) :
  is_nan p = false -> fle m q = true -> fle (glm.min p m) q = true.
Proof.
  intros N H. unfold glm.min. destruct (flt m p) eqn:E; trivial.
  apply fle_trans with m; trivial.
  apply not_flt_fle; trivial. apply fle_key in H. tauto.
Qed.

Lemma max_above_point (p m : float) :
  is_nan p = false -> fle p (glm.max p m) = true.
Proof.
  intros N. unfold glm.max. destruct (flt p m) eqn:E.
  - now apply flt_fle.
  - now apply fle_refl.
Qed.

Lemma max_above_old (p m q : float) :
  is_nan p = false -> fle q m = true -> fle q (glm.max p m) = true.
Proof.
  intros N H. unfold glm.max. destruct (flt p m) eqn:E; trivial.
  apply fle_trans with m; trivial.
  apply not_flt_fle; trivial. apply fle_key in H. tauto.
Qed.

Lemma get_map2 (f : float -> float -> float) (a b : vec3) (i : nat) :
  get (map2 f a b) i = f (get a i) (get b i).
Proof. destruct i as [|[|i]]; reflexivity. Qed.

(** C7.  [Expand(p)] replaces every component of [Min] by the minimum of the
    coordinate of [p] and the old bound, and every component of [Max] by
    their maximum, and the box holds nothing else.  Where the two can be
    compared the new bound is the numeric minimum (maximum): one of the two
    numbers, not above (not below) either; where one of them is NaN it is
    the coordinate of [p].  For a finite [p] the new box contains [p] and
    every point the old box contained. *)
Theorem Expand_point (b : AABB) (p : vec3) :
  Expand b p = mk_AABB (map2 ref_min p (Min b)) (map2 ref_max p (Max b)) /\
  (forall i,
      is_nan (get p i) = false ->
      (is_nan (get (Min b) i) = false ->
       let r := get (Min (Expand b p)) i in
       (r = get p i \/ r = get (Min b) i) /\
       fle r (get p i) = true /\ fle r (get (Min b) i) = true) /\
      (is_nan (get (Max b) i) = false ->
       let r := get (Max (Expand b p)) i in
       (r = get p i \/ r = get (Max b) i) /\
       fle (get p i) r = true /\ fle (get (Max b) i) r = true)) /\
  (vec3_all is_finite p = true ->
   contains (Expand b p) p = true /\
   forall q, contains b q = true -> contains (Expand b p) q = true).
Proof.
  assert (E : Expand b p =
              mk_AABB (map2 ref_min p (Min b)) (map2 ref_max p (Max b))).
  { destruct b as [[m1 m2 m3] [M1 M2 M3]], p as [p1 p2 p3].
    unfold Expand, vmin, vmax, map2. cbn [Min Max x y z].
    now rewrite !glm_min_ref, !glm_max_ref. }
  split; [exact E|]. split.
  - intros i Np. rewrite E. cbn [Min Max]. rewrite !get_map2.
    unfold ref_min, ref_max. rewrite Np. cbn [orb]. split.
    + intros Nm. rewrite Nm. cbv zeta.
      destruct (num_min_below (get p i) (get (Min b) i) Np Nm) as [L1 L2].
      split; [apply num_min_member|]. split; assumption.
    + intros NM. rewrite NM. cbv zeta.
      destruct (num_max_above (get (Max b) i) (get p i) NM Np) as [L1 L2].
      split; [|split; assumption].
      destruct (num_max_member (get (Max b) i) (get p i)) as [->| ->]; auto.
  - clear E.
    intros F. apply vec3_all_inv in F. destruct F as (Fx & Fy & Fz).
    apply is_finite_not_nan in Fx, Fy, Fz.
    destruct b as [[m1 m2 m3] [M1 M2 M3]], p as [p1 p2 p3]. cbn [x y z] in *.
    unfold contains, vle, Expand, vmin, vmax, map2. cbn [Min Max x y z].
    split.
    + rewrite !min_below_point, !max_above_point by assumption. reflexivity.
    + intros [q1 q2 q3]. cbn [x y z]. intros H.
      split_andb.
      rewrite !min_below_old, !max_above_old by assumption. reflexivity.
Qed.

Lemma Expand_point_witness :
  let p := mk_vec3 (of_Z 2) (of_Z (-3)) half in
  contains (Expand unit_box p) p = true /\
  forall q, contains unit_box q = true -> contains (Expand unit_box p) q = true.
Proof.
  apply (proj2 (proj2 (Expand_point unit_box (mk_vec3 (of_Z 2) (of_Z (-3)) half)))).
  reflexivity.
Defined.

(** *** Nomalize *)

Lemma normalize_component (m M p : float) :
  valid m = true -> valid M = true -> valid p = true ->
  flt m M = true -> fle m p = true -> fle p M = true ->
  is_finite (fsub M m) = true ->
  let r := fdiv (fsub p m) (fsub M m) in
  is_finite r = true /\ fle zero r = true /\ fle r one = true.
Proof.
  intros Vm VM Vp Lt Lo Hi Fext r.
  destruct (fsub_finite_inv M m Fext) as [FM Fm].
  pose proof (between_finite m M p Fm FM Lo Hi) as Fp.
  apply (flt_scaled m M Vm VM Fm FM) in Lt.
  apply (fle_scaled m p Vm Vp Fm Fp) in Lo.
  apply (fle_scaled p M Vp VM Fp FM) in Hi.
  (* the extent *)
  destruct (fsub_spec M m VM Vm FM Fm) as [_ Hb]. cbv zeta in Hb.
  specialize (Hb ltac:(lia)).
  replace (scaled M - scaled m <? 0) with false in Hb
    by (symmetry; apply Z.ltb_ge; lia).
  rewrite Z.abs_eq in Hb by lia.
  destruct (pack_rounded false (scaled M - scaled m) ltac:(lia))
    as (Vb & Nb & Sb & Zb & Finb & Infb).
  cbv zeta in Vb, Nb, Sb, Zb, Finb, Infb. rewrite <- Hb in *.
  assert (Rb : rounded (scaled M - scaled m) < 2 ^ 24 * 2 ^ 253).
  { destruct (Z.lt_ge_cases (rounded (scaled M - scaled m)) (2 ^ 24 * 2 ^ 253))
      as [|Ge]; trivial.
    rewrite (Infb Ge) in Fext. discriminate. }
  destruct (Finb Rb) as [_ Scb].
  destruct (finite_positive_shape (fsub M m)) as (mb & eb & Eb); trivial.
  { destruct (fsub M m); trivial. exfalso. now apply (Zb s). }
  (* the offset of the point *)
  destruct (fsub_spec p m Vp Vm Fp Fm) as [Ha0 Ha]. cbv zeta in Ha0, Ha.
  destruct (Z.eq_dec (scaled p - scaled m) 0) as [D0|Dn].
  - specialize (Ha0 D0). unfold r. rewrite Eb.
    destruct (fsub p m) as [s| | |]; try discriminate.
    apply fdiv_zero_finite.
  - specialize (Ha Dn).
    replace (scaled p - scaled m <? 0) with false in Ha
      by (symmetry; apply Z.ltb_ge; lia).
    rewrite Z.abs_eq in Ha by lia.
    destruct (pack_rounded false (scaled p - scaled m) ltac:(lia))
      as (Va & Na & Sa & Za & Fina & _).
    cbv zeta in Va, Na, Sa, Za, Fina. rewrite <- Ha in *.
    pose proof (rounded_mono (scaled p - scaled m) (scaled M - scaled m)
                  ltac:(lia)) as Mono.
    destruct (Fina ltac:(lia)) as [Fa Sca].
    destruct (finite_positive_shape (fsub p m)) as (ma & ea & Ea); trivial.
    { destruct (fsub p m); trivial. exfalso. now apply (Za s). }
    unfold r. rewrite Ea, Eb. rewrite Ea in Va, Sca. rewrite Eb in Vb, Scb.
    rewrite scaled_finite in Sca, Scb. cbn [signed] in Sca, Scb.
    destruct (fdiv_le_one ma mb ea eb Va Vb ltac:(lia)) as (Vr & Fr & Sr & Br).
    cbv zeta in Vr, Fr, Sr, Br.
    split; [exact Fr|]. split.
    + apply fle_zero_nonneg; trivial. now apply is_finite_not_nan.
    + apply fle_scaled; trivial.
Qed.

(** C10, as stated, fails: the extent of a box can overflow, and the result
    is then not a number. *)
Lemma Nomalize_overflow :
  let b := mk_AABB (splat minimum) (splat maximum) in
  box_all valid b = true /\ vlt (Min b) (Max b) = true /\
  contains b (splat maximum) = true /\
  Nomalize b (splat maximum) = splat nan.
Proof. repeat split. Qed.

(** C10.  [Nomalize(p)] is [(p - Min) / (Max - Min)] on every axis, with no
    guard.  For a box with [Min < Max] on the three axes whose extent
    [Max - Min] is finite (it does not overflow), and a point [p] with
    [Min <= p <= Max], every component of the result is a finite number
    between 0 and 1.  On an axis where [Min] equals [Max], the component is
    NaN or infinite, whatever [p]. *)
Theorem Nomalize_unit_cube :
  (forall b p,
      Nomalize b p =
      mk_vec3 (fdiv (fsub (x p) (x (Min b))) (fsub (x (Max b)) (x (Min b))))
              (fdiv (fsub (y p) (y (Min b))) (fsub (y (Max b)) (y (Min b))))
              (fdiv (fsub (z p) (z (Min b))) (fsub (z (Max b)) (z (Min b))))) /\
  (forall b p,
      box_all valid b = true -> vec3_all valid p = true ->
      vlt (Min b) (Max b) = true -> contains b p = true ->
      vec3_all is_finite (vsub (Max b) (Min b)) = true ->
      vec3_all unit_interval (Nomalize b p) = true) /\
  (forall b p i,
      feq (get (Min b) i) (get (Max b) i) = true ->
      is_finite (get (Nomalize b p) i) = false).
Proof.
  split; [reflexivity|]. split.
  - intros [[m1 m2 m3] [M1 M2 M3]] [p1 p2 p3] Hb Hp Hlt Hin Hext.
    apply box_all_inv in Hb. destruct Hb as [Hm HM].
    apply vec3_all_inv in Hm, HM, Hp, Hext.
    unfold vlt, contains, vle in *. cbn [Min Max x y z vsub map2] in *.
    split_andb.
    unfold Nomalize, vdiv, vsub, map2, vec3_all, unit_interval.
    cbn [Min Max x y z].
    destruct (normalize_component m1 M1 p1) as (-> & -> & ->); try tauto.
    destruct (normalize_component m2 M2 p2) as (-> & -> & ->); try tauto.
    destruct (normalize_component m3 M3 p3) as (-> & -> & ->); tauto.
  - intros [[m1 m2 m3] [M1 M2 M3]] [p1 p2 p3] i H.
    unfold Nomalize, vdiv, vsub, map2. cbn [Min Max x y z] in *.
    destruct i as [|[|i]]; cbn [get x y z] in *;
      apply fdiv_by_zero_or_nan; now apply fsub_equal.
Qed.

Lemma Nomalize_unit_cube_witness :
  vec3_all unit_interval (Nomalize unit_box (splat half)) = true.
Proof.
  apply (proj1 (proj2 Nomalize_unit_cube)); reflexivity.
Defined.

(** *** Intersect *)

Lemma max_is_argument (a b : float) : glm.max a b = a \/ glm.max a b = b.
Proof. unfold glm.max. destruct (flt a b); auto. Qed.

Lemma min_is_argument (a b : float) : glm.min a b = a \/ glm.min a b = b.
Proof. unfold glm.min. destruct (flt b a); auto. Qed.

Lemma max3_in (a b c : float) : In (glm.max c (glm.max a b)) [a; b; c].
Proof.
  destruct (max_is_argument c (glm.max a b)) as [->| ->]; [cbn; auto|].
  destruct (max_is_argument a b) as [->| ->]; cbn; auto.
Qed.

Lemma min3_in (a b c : float) : In (glm.min c (glm.min a b)) [a; b; c].
Proof.
  destruct (min_is_argument c (glm.min a b)) as [->| ->]; [cbn; auto|].
  destruct (min_is_argument a b) as [->| ->]; cbn; auto.
Qed.

Lemma max3_greatest (a b c : float) :
  no_nan [a; b; c] -> greatest (glm.max c (glm.max a b)) [a; b; c].
Proof.
  intros N.
  assert (Na : is_nan a = false) by (apply N; cbn; auto).
  assert (Nb : is_nan b = false) by (apply N; cbn; auto).
  assert (Nc : is_nan c = false) by (apply N; cbn; auto).
  split; [apply max3_in|].
  intros v [<-|[<-|[<-|[]]]].
  - apply max_above_old; trivial. now apply max_above_point.
  - apply max_above_old; trivial. apply max_above_old; trivial.
    now apply fle_refl.
  - now apply max_above_point.
Qed.

Lemma min3_least (a b c : float) :
  no_nan [a; b; c] -> least (glm.min c (glm.min a b)) [a; b; c].
Proof.
  intros N.
  assert (Na : is_nan a = false) by (apply N; cbn; auto).
  assert (Nb : is_nan b = false) by (apply N; cbn; auto).
  assert (Nc : is_nan c = false) by (apply N; cbn; auto).
  split; [apply min3_in|].
  intros v [<-|[<-|[<-|[]]]].
  - apply min_below_old; trivial. now apply min_below_point.
  - apply min_below_old; trivial. apply min_below_old; trivial.
    now apply fle_refl.
  - now apply min_below_point.
Qed.

(** The value left in [min] and the other bound of the test are crossing
    distances of the near and of the far faces. *)
Lemma Intersect_members (tls : ThreadLocals) (b : AABB) (ray : MiniRay)
    (length : float) :
  exists tNear tFar,
    Intersect tls b ray length =
      (fle tNear tFar && flt zero tFar && flt tNear length, tNear) /\
    In tNear (near_crossings (get_Inverse tls ray) b (Position ray)) /\
    In tFar (far_crossings (get_Inverse tls ray) b (Position ray)).
Proof.
  unfold Intersect.
  match goal with
  | |- context [ (?c, glm.max ?z0 (glm.max ?x0 ?y0)) ] =>
      exists (glm.max z0 (glm.max x0 y0))
  end.
  match goal with
  | |- context [ flt zero (glm.min ?z1 (glm.min ?x1 ?y1)) ] =>
      exists (glm.min z1 (glm.min x1 y1))
  end.
  split; [reflexivity|]. split; [apply max3_in|apply min3_in].
Qed.

(** C3, as stated, fails: a ray in the plane of a face, with a zero
    direction on that axis, has a NaN crossing distance, and the value left
    in [min] is then below the crossing distance of another axis. *)
Lemma Intersect_near_not_greatest :
  let tls := mk_tls (mk_vec3 pinf one one) in
  let ray := mk_ray (mk_vec3 zero (of_Z (-5)) (of_Z (-1))) (mk_vec3 zero one one) in
  Intersect tls unit_box ray (of_Z 100) = (true, one) /\
  ~ greatest (snd (Intersect tls unit_box ray (of_Z 100)))
      (near_crossings (get_Inverse tls ray) unit_box (Position ray)).
Proof.
  split; [reflexivity|].
  intros [_ H]. specialize (H (of_Z 5)).
  assert (E : fle (of_Z 5) one = true)
    by (apply H; vm_compute; right; left; reflexivity).
  vm_compute in E. discriminate.
Qed.

(** C3.  [Intersect] leaves in [min] a value [tNear] that is one of the three
    crossing distances to the near faces (the min-face of an axis whose
    reciprocal component is positive, the max-face otherwise), whatever the
    result, and returns [tNear <= tFar && 0 < tFar && tNear < length], with
    [tFar] one of the three crossing distances to the opposite faces; when no
    near crossing distance is NaN, [tNear] is their maximum, and when no far
    crossing distance is NaN, [tFar] is their minimum. *)
Theorem Intersect_slab (tls : ThreadLocals) (b : AABB) (ray : MiniRay)
    (length : float) :
  let nears := near_crossings (get_Inverse tls ray) b (Position ray) in
  let fars := far_crossings (get_Inverse tls ray) b (Position ray) in
  exists tNear tFar,
    Intersect tls b ray length =
      (fle tNear tFar && flt zero tFar && flt tNear length, tNear) /\
    In tNear nears /\ In tFar fars /\
    (no_nan nears -> greatest tNear nears) /\
    (no_nan fars -> least tFar fars).
Proof.
  intros nears fars. unfold Intersect.
  match goal with
  | |- context [ (?c, glm.max ?z0 (glm.max ?x0 ?y0)) ] =>
      exists (glm.max z0 (glm.max x0 y0))
  end.
  match goal with
  | |- context [ flt zero (glm.min ?z1 (glm.min ?x1 ?y1)) ] =>
      exists (glm.min z1 (glm.min x1 y1))
  end.
  split; [reflexivity|].
  split; [apply max3_in|]. split; [apply min3_in|].
  split; [apply max3_greatest|apply min3_least].
Qed.

Lemma Intersect_slab_witness :
  let tls := mk_tls (splat one) in
  let ray := mk_ray (splat half) (splat one) in
  exists tNear tFar,
    Intersect tls unit_box ray (of_Z 100) =
      (fle tNear tFar && flt zero tFar && flt tNear (of_Z 100), tNear) /\
    greatest tNear (near_crossings (get_Inverse tls ray) unit_box (Position ray)) /\
    least tFar (far_crossings (get_Inverse tls ray) unit_box (Position ray)).
Proof.
  intros tls ray.
  destruct (Intersect_slab tls unit_box ray (of_Z 100))
    as (tNear & tFar & E & _ & _ & G & S).
  exists tNear, tFar. split; [exact E|]. split.
  - apply G. intros v [<-|[<-|[<-|[]]]]; reflexivity.
  - apply S. intros v [<-|[<-|[<-|[]]]]; reflexivity.
Defined.

Lemma axis_inside (m M p d : float) :
  valid m = true -> valid M = true -> valid p = true ->
  nonzero_number d = true -> flt m p = true -> flt p M = true ->
  let inv := fdiv one d in
  let near := crossing (near_face inv m M) p inv in
  let far := crossing (far_face inv m M) p inv in
  is_nan near = false /\ sign_bit near = true /\
  is_nan far = false /\ sign_bit far = false.
Proof.
  intros Vm VM Vp Hd Lo Hi inv near far.
  unfold nonzero_number in Hd.
  apply andb_prop in Hd. destruct Hd as [Hd Zd].
  apply andb_prop in Hd. destruct Hd as [Vd Fd].
  apply negb_true_iff in Zd.
  destruct d as [s|s| |s md ed]; try discriminate.
  destruct (fdiv_one_sign s md ed Vd) as (Vi & Ni & Zi & Si). fold inv in Vi, Ni, Zi, Si.
  destruct (fsub_sign m p Vm Vp Lo) as (_ & N1 & Z1 & S1 & _).
  destruct (fsub_sign p M Vp VM Hi) as (_ & _ & _ & _ & _ & N2 & Z2 & S2).
  pose proof (flt_zero_sign inv Ni Zi) as Hz. rewrite Si in Hz.
  unfold near, far, near_face, far_face, crossing. rewrite Hz.
  destruct s; cbn [negb].
  - destruct (fmul_sign (fsub M p) inv N2 Ni Z2 Zi) as [-> ->].
    destruct (fmul_sign (fsub m p) inv N1 Ni Z1 Zi) as [-> ->].
    rewrite S1, S2, Si. repeat split.
  - destruct (fmul_sign (fsub M p) inv N2 Ni Z2 Zi) as [-> ->].
    destruct (fmul_sign (fsub m p) inv N1 Ni Z1 Zi) as [-> ->].
    rewrite S1, S2, Si. repeat split.
Qed.

(** C4, as stated, fails: inside a very small box the crossing distances to
    the far faces round to zero, and [Intersect] returns false whatever the
    length; and a ray from inside the unit box is rejected when the length is
    negative. *)
Lemma Intersect_inside_rejected :
  (let b := mk_AABB (splat zero) (splat (pow2f (-100))) in
   let ray := mk_ray (splat (pow2f (-101))) (splat (pow2f 100)) in
   let tls := mk_tls (reciprocal (Direction ray)) in
   box_all valid b = true /\ vec3_all valid (Position ray) = true /\
   vlt (Min b) (Position ray) = true /\ vlt (Position ray) (Max b) = true /\
   vec3_all nonzero_number (Direction ray) = true /\
   Intersect tls b ray pinf = (false, S754_zero true)) /\
  (let ray := mk_ray (splat half) (splat one) in
   let tls := mk_tls (reciprocal (Direction ray)) in
   fst (Intersect tls unit_box ray (of_Z (-1))) = false).
Proof. repeat split. Qed.

(** C4.  For a box and a ray whose origin is strictly inside the box, whose
    direction is finite and not zero on the three axes and whose [Inverse]
    is [1 / direction], [Intersect] returns true and leaves
    [tNear <= 0 < tFar], provided that no crossing distance to a far face
    rounds to zero and that the length is positive.  For the box
    [0,0,0]-[1,1,1] and the ray from (5,5,5) in direction (1,0,0), whose
    reciprocal is (1, +inf, +inf), it returns false. *)
Theorem Intersect_from_inside :
  (forall tls b ray length,
      box_all valid b = true ->
      vec3_all valid (Position ray) = true ->
      vec3_all nonzero_number (Direction ray) = true ->
      vlt (Min b) (Position ray) = true -> vlt (Position ray) (Max b) = true ->
      get_Inverse tls ray = reciprocal (Direction ray) ->
      (forall v, In v (far_crossings (get_Inverse tls ray) b (Position ray)) ->
                 is_zero v = false) ->
      flt zero length = true ->
      exists tNear tFar,
        Intersect tls b ray length = (true, tNear) /\
        In tNear (near_crossings (get_Inverse tls ray) b (Position ray)) /\
        In tFar (far_crossings (get_Inverse tls ray) b (Position ray)) /\
        fle tNear zero = true /\ flt zero tFar = true) /\
  (let ray := mk_ray (splat (of_Z 5)) (mk_vec3 one zero zero) in
   reciprocal (Direction ray) = mk_vec3 one pinf pinf /\
   forall length,
     fst (Intersect (mk_tls (reciprocal (Direction ray))) unit_box ray length)
     = false).
Proof.
  split; [|split; reflexivity].
  intros tls b ray length Hb Hp Hd Lo Hi Hinv Hfar Hlen.
  destruct (Intersect_members tls b ray length)
    as (tNear & tFar & E & InN & InF).
  exists tNear, tFar.
  assert (Hn : (forall v, In v (near_crossings (get_Inverse tls ray) b (Position ray)) ->
                          is_nan v = false /\ sign_bit v = true) /\
               (forall v, In v (far_crossings (get_Inverse tls ray) b (Position ray)) ->
                          is_nan v = false /\ sign_bit v = false)).
  { rewrite Hinv. clear E InN InF Hfar Hinv.
    destruct b as [[m1 m2 m3] [M1 M2 M3]], ray as [[p1 p2 p3] [d1 d2 d3]].
    apply box_all_inv in Hb. destruct Hb as [Hm HM].
    apply vec3_all_inv in Hm, HM, Hp, Hd.
    unfold vlt in *. cbn [Min Max Position Direction x y z] in *.
    split_andb.
    destruct (axis_inside m1 M1 p1 d1) as (A1 & A2 & A3 & A4); try tauto.
    destruct (axis_inside m2 M2 p2 d2) as (B1 & B2 & B3 & B4); try tauto.
    destruct (axis_inside m3 M3 p3 d3) as (C1 & C2 & C3 & C4); try tauto.
    unfold near_crossings, far_crossings, reciprocal.
    cbn [Min Max Position Direction x y z].
    split; intros v [<-|[<-|[<-|[]]]]; auto. }
  destruct Hn as [Hn Hf].
  destruct (Hn tNear InN) as [Nn Sn]. destruct (Hf tFar InF) as [Nf Sf].
  assert (Le : fle tNear zero = true) by now apply fle_zero_negative.
  assert (Gt : flt zero tFar = true).
  { rewrite flt_zero_sign; trivial; [now rewrite Sf|now apply Hfar]. }
  repeat split; trivial.
  rewrite E. f_equal.
  rewrite Gt, (fle_flt_trans tNear zero length Le Hlen).
  rewrite (fle_trans tNear zero tFar Le (flt_fle _ _ Gt)). reflexivity.
Qed.

Lemma Intersect_from_inside_witness :
  let ray := mk_ray (splat half) (mk_vec3 one (of_Z (-2)) (of_Z 3)) in
  let tls := mk_tls (reciprocal (Direction ray)) in
  exists tNear tFar,
    Intersect tls unit_box ray (of_Z 10) = (true, tNear) /\
    In tNear (near_crossings (get_Inverse tls ray) unit_box (Position ray)) /\
    In tFar (far_crossings (get_Inverse tls ray) unit_box (Position ray)) /\
    fle tNear zero = true /\ flt zero tFar = true.
Proof.
  intros ray tls.
  apply (proj1 Intersect_from_inside tls unit_box ray (of_Z 10));
    try reflexivity.
  intros v [<-|[<-|[<-|[]]]]; reflexivity.
Defined.

(** *** MiniRay::Inverse *)




(** *** morton3D *)

Lemma clamp_truncate (a : float) :
  valid a = true -> is_nan a = false ->
  exists t, truncate (glm.min (glm.max a zero) (of_Z 1023)) = Some t /\
            0 <= t <= 1023.
Proof.
  intros V N. unfold glm.max.
  destruct (flt a zero) eqn:Ez.
  - exists 0. split; [reflexivity|lia].
  - unfold glm.min. destruct (flt (of_Z 1023) a) eqn:Et.
    + exists 1023. split; [reflexivity|lia].
    + destruct a as [s|s| |s m e]; try discriminate.
      * exists 0. split; [reflexivity|lia].
      * destruct s; discriminate.
      * destruct s; [discriminate|].
        assert (K : ~ lex3_lt (key (of_Z 1023)) (key (S754_finite false m e))).
        { intros K. assert (flt (of_Z 1023) (S754_finite false m e) = true)
            by (apply flt_key; auto). congruence. }
        cbn in K. apply valid_finite_bounds in V. destruct V as (He & Hm & Hn).
        cbn [truncate].
        destruct (Z.leb_spec 0 e); [lia|].
        rewrite Z.shiftr_div_pow2 by lia.
        assert (Hq : 0 <= Zpos m / 2 ^ (- e) <= 1023).
        { split; [apply Z.div_pos; [lia|apply Z.pow_pos_nonneg; lia]|].
          destruct (Z.eq_dec e (-14)) as [->|Ne].
          - change (- -14) with 14.
            apply Z.lt_succ_r. apply Z.div_lt_upper_bound; lia.
          - assert (2 ^ 15 <= 2 ^ (- e)) by (apply Z.pow_le_mono_r; lia).
            apply Z.lt_succ_r. apply Z.div_lt_upper_bound; [lia|]. nia. }
        exists (Zpos m / 2 ^ (- e)).
        destruct (Z.ltb_spec (Zpos m / 2 ^ (- e)) (2 ^ 32)); [tauto|lia].
Qed.

Lemma scale_clamp_truncate (c : float) :
  is_nan c = false ->
  exists t, truncate (scale_clamp c) = Some t /\ 0 <= t <= 1023.
Proof.
  intros N. destruct (fmul_1024_valid c N) as [V N'].
  unfold scale_clamp. now apply clamp_truncate.
Qed.

(** The conversion to an integer of a number that is not negative. *)
Lemma truncate_scaled (a : float) :
  valid a = true -> is_finite a = true -> sign_bit a = false ->
  scaled a < 2 ^ 32 * 2 ^ 149 ->
  truncate a = Some (scaled a / 2 ^ 149).
Proof.
  destruct a as [s|s| |s m e]; try discriminate; intros V _ S B.
  - reflexivity.
  - cbn [sign_bit] in S. subst s.
    pose proof (valid_finite_bounds _ _ _ V) as (He & Hm & Hc).
    rewrite scaled_finite in *. cbn [signed] in *. cbn [truncate].
    assert (P149 : 0 < 2 ^ 149) by (apply pow2_pos; lia).
    assert (E : (if 0 <=? e then Z.shiftl (Zpos m) e else Z.shiftr (Zpos m) (- e))
                = Zpos m * 2 ^ (e + 149) / 2 ^ 149).
    { destruct (Z.leb_spec 0 e).
      - rewrite Z.shiftl_mul_pow2 by lia.
        rewrite Z.pow_add_r, Z.mul_assoc by lia. now rewrite Z.div_mul by lia.
      - rewrite Z.shiftr_div_pow2 by lia.
        replace 149 with ((- e) + (e + 149)) at 2 by lia.
        rewrite (Z.pow_add_r 2 (- e) (e + 149)) by lia.
        rewrite Z.div_mul_cancel_r; trivial;
          apply Z.neq_sym, Z.lt_neq, pow2_pos; lia. }
    rewrite E.
    assert (Zpos m * 2 ^ (e + 149) / 2 ^ 149 < 2 ^ 32)
      by (apply Z.div_lt_upper_bound; lia).
    destruct (Z.ltb_spec (Zpos m * 2 ^ (e + 149) / 2 ^ 149) (2 ^ 32)); [reflexivity|lia].
Qed.

Lemma scale_clamp_quantize (c : float) :
  valid c = true -> is_finite c = true ->
  truncate (scale_clamp c) = Some (quantize c).
Proof.
  destruct c as [s|s| |s m e]; try discriminate; intros V _.
  - destruct s; reflexivity.
  - pose proof (valid_finite_bounds _ _ _ V) as (He & Hm & Hc).
    destruct (fmul_1024_exact s m e V) as (Va & Fin & Inf). cbv zeta in *.
    unfold scale_clamp, quantize. rewrite scaled_finite.
    set (a := fmul (S754_finite s m e) (of_Z 1024)) in *.
    set (N := Zpos m * 2 ^ (e + 159)) in *.
    assert (HN : 0 < N) by (apply Z.mul_pos_pos; [lia|apply pow2_pos; lia]).
    assert (EN : Zpos m * 2 ^ (e + 149) * 1024 = N).
    { unfold N. change 1024 with (2 ^ 10).
      rewrite <- Z.mul_assoc, <- Z.pow_add_r by lia. do 2 f_equal. lia. }
    assert (P149 : 0 < 2 ^ 149) by (apply pow2_pos; lia).
    assert (Q0 : 0 <= N / 2 ^ 149) by (apply Z.div_pos; lia).
    assert (S1023 : scaled (of_Z 1023) = 1023 * 2 ^ 149) by reflexivity.
    assert (P277 : 1023 * 2 ^ 149 < 2 ^ 24 * 2 ^ 253).
    { rewrite <- Z.pow_add_r by lia.
      assert (2 ^ 149 * 2 ^ 10 <= 2 ^ (24 + 253))
        by (rewrite <- Z.pow_add_r by lia; apply Z.pow_le_mono_r; lia).
      change (2 ^ 10) with 1024 in *. lia. }
    destruct s; cbn [signed].
    + (* a negative coordinate *)
      assert (Eq : Z.max 0 (Z.min 1023 (- (Zpos m * 2 ^ (e + 149)) * 1024 / 2 ^ 149)) = 0).
      { assert (- (Zpos m * 2 ^ (e + 149)) * 1024 / 2 ^ 149 < 0)
          by (apply Z.div_lt_upper_bound; lia).
        lia. }
      rewrite Eq.
      destruct (Z.lt_ge_cases N (2 ^ 24 * 2 ^ 253)) as [Lt|Ge].
      * destruct (Fin Lt) as [Fa Sa]. cbn [signed] in Sa.
        assert (L : flt a zero = true)
          by (apply flt_scaled; trivial; change (scaled zero) with 0; lia).
        unfold glm.max. rewrite L. reflexivity.
      * rewrite (Inf Ge). reflexivity.
    + (* a positive coordinate *)
      rewrite EN.
      destruct (Z.lt_ge_cases N (2 ^ 24 * 2 ^ 253)) as [Lt|Ge].
      * destruct (Fin Lt) as [Fa Sa]. cbn [signed] in Sa.
        assert (L : flt a zero = false).
        { destruct (flt a zero) eqn:L; trivial.
          apply flt_scaled in L; trivial. change (scaled zero) with 0 in L. lia. }
        unfold glm.max. rewrite L. unfold glm.min.
        destruct (flt (of_Z 1023) a) eqn:T.
        -- apply flt_scaled in T; trivial. rewrite S1023, Sa in T.
           assert (1023 <= N / 2 ^ 149) by (apply Z.div_le_lower_bound; lia).
           change (truncate (of_Z 1023)) with (Some 1023). f_equal. lia.
        -- assert (T' : N <= 1023 * 2 ^ 149).
           { destruct (Z.le_gt_cases N (1023 * 2 ^ 149)) as [|G]; trivial.
             assert (flt (of_Z 1023) a = true)
               by (apply flt_scaled; trivial; rewrite S1023, Sa; lia).
             congruence. }
           assert (Sg : sign_bit a = false).
           { destruct a as [sa|sa| |sa ma ea]; try discriminate.
             - cbn [scaled] in Sa. lia.
             - destruct sa; [discriminate L|reflexivity]. }
           rewrite truncate_scaled; trivial.
           ++ rewrite Sa. f_equal.
              assert (N / 2 ^ 149 <= 1023) by (apply Z.div_le_upper_bound; lia).
              lia.
           ++ rewrite Sa. change (2 ^ 32) with 4294967296. lia.
      * rewrite (Inf Ge).
        assert (1023 <= N / 2 ^ 149) by (apply Z.div_le_lower_bound; lia).
        change (truncate (glm.min (glm.max (S754_infinity false) zero) (of_Z 1023)))
          with (Some 1023). f_equal. lia.
Qed.

Lemma truncate_quantize (c : float) (t : Z) :
  truncate (scale_clamp c) = Some t -> finite_number c = true -> t = quantize c.
Proof.
  intros E F. apply andb_prop in F as [V F].
  rewrite (scale_clamp_quantize c V F) in E. congruence.
Qed.

Lemma quantize_examples :
  quantize zero = 0 /\ quantize half = 512 /\ quantize one = 1023 /\
  quantize (of_Z (-3)) = 0 /\ quantize (of_Z 7) = 1023 /\
  quantize (fdiv (of_Z 3) (of_Z 4096)) = 0 /\
  quantize (fdiv (of_Z 5) (of_Z 4096)) = 1.
Proof. vm_compute. repeat split. Qed.

Lemma spread_check_all :
  forallb spread_check (map Z.of_nat (seq 0 1024)) = true.
Proof. vm_compute. reflexivity. Qed.

Lemma spread_check_range (v : Z) : 0 <= v < 1024 -> spread_check v = true.
Proof.
  intros Hv. pose proof spread_check_all as H.
  rewrite forallb_forall in H. apply H.
  apply in_map_iff. exists (Z.to_nat v). split; [lia|].
  apply in_seq. lia.
Qed.

Lemma testbit_above (v k j : Z) :
  0 <= v < 2 ^ k -> 0 <= k <= j -> Z.testbit v j = false.
Proof.
  intros Hv Hk. destruct (Z.eq_dec v 0) as [->|Hnz]; [apply Z.bits_0|].
  apply Z.bits_above_log2; [lia|].
  apply Z.lt_le_trans with k; [|lia]. apply Z.log2_lt_pow2; lia.
Qed.

Lemma expandBits_spread (v : Z) :
  0 <= v < 1024 ->
  expandBits v = spread v /\ 0 <= spread v <= 153391689 /\
  forall j, 0 <= j -> Z.testbit (spread v) j = spread_bit v j.
Proof.
  intros Hv. pose proof (spread_check_range v Hv) as H.
  unfold spread_check in H.
  apply andb_prop in H. destruct H as [H Hb].
  apply andb_prop in H. destruct H as [He Hlt].
  apply Z.eqb_eq in He. apply Z.leb_le in Hlt.
  assert (H0 : 0 <= spread v).
  { rewrite <- He. unfold expandBits. apply Z.land_nonneg. right. lia. }
  split; [exact He|]. split; [lia|].
  intros j Hj. destruct (Z.lt_ge_cases j 32) as [Lt|Ge].
  - rewrite forallb_forall in Hb.
    specialize (Hb (Z.to_nat j)). rewrite Z2Nat.id in Hb by lia.
    apply eqb_prop. apply Hb. apply in_seq. lia.
  - rewrite (testbit_above (spread v) 28 j) by lia.
    unfold spread_bit.
    rewrite (testbit_above v 10 (j / 3)); [now rewrite andb_false_r|lia|].
    split; [lia|]. apply Z.div_le_lower_bound; lia.
Qed.

Lemma add_disjoint (a b : Z) :
  (forall j, 0 <= j -> Z.testbit a j && Z.testbit b j = false) ->
  a + b = Z.lor a b.
Proof.
  intros H.
  assert (L : Z.land a b = 0).
  { apply Z.bits_inj'. intros j Hj. rewrite Z.land_spec, Z.bits_0. now apply H. }
  rewrite Z.add_nocarry_lxor by exact L. now apply Z.lxor_lor.
Qed.

Lemma spread_bit_shift (v k j : Z) :
  0 <= v < 1024 -> 0 <= k -> 0 <= j ->
  Z.testbit (spread v * 2 ^ k) j = (k <=? j) && spread_bit v (j - k).
Proof.
  intros Hv Hk Hj. destruct (expandBits_spread v Hv) as (_ & _ & Hb).
  rewrite <- Z.shiftl_mul_pow2 by lia.
  destruct (Z.leb_spec k j).
  - rewrite Z.shiftl_spec by lia. rewrite Hb by lia. reflexivity.
  - rewrite Z.shiftl_spec_low by lia. reflexivity.
Qed.

(** The three spread coordinates occupy the bits 2, 1 and 0 modulo 3. *)
Lemma interleave_bits (xi yi zi j : Z) :
  0 <= xi < 1024 -> 0 <= yi < 1024 -> 0 <= zi < 1024 -> 0 <= j ->
  Z.testbit (spread xi * 4 + spread yi * 2 + spread zi) j =
  if j mod 3 =? 0 then Z.testbit zi (j / 3)
  else if j mod 3 =? 1 then Z.testbit yi (j / 3)
  else Z.testbit xi (j / 3).
Proof.
  intros Hx Hy Hz Hj.
  change 4 with (2 ^ 2). change 2 with (2 ^ 1) at 3.
  destruct (expandBits_spread zi Hz) as (_ & _ & Bz).
  assert (Bx := fun i => spread_bit_shift xi 2 i Hx ltac:(lia)).
  assert (By := fun i => spread_bit_shift yi 1 i Hy ltac:(lia)).
  assert (D1 : spread xi * 2 ^ 2 + spread yi * 2 ^ 1 =
               Z.lor (spread xi * 2 ^ 2) (spread yi * 2 ^ 1)).
  { apply add_disjoint. intros i Hi. rewrite Bx, By by lia. unfold spread_bit.
    destruct (Z.leb_spec 2 i), (Z.leb_spec 1 i); cbn [andb]; trivial;
      try (rewrite ?andb_false_r; reflexivity).
    destruct (Z.eqb_spec ((i - 2) mod 3) 0), (Z.eqb_spec ((i - 1) mod 3) 0);
      cbn [andb]; rewrite ?andb_false_r; trivial.
    exfalso. pose proof (Z.mod_pos_bound (i - 2) 3). pose proof (Z.mod_pos_bound (i - 1) 3).
    pose proof (Z.div_mod (i - 2) 3). pose proof (Z.div_mod (i - 1) 3). lia. }
  rewrite D1.
  assert (D2 : Z.lor (spread xi * 2 ^ 2) (spread yi * 2 ^ 1) + spread zi =
               Z.lor (Z.lor (spread xi * 2 ^ 2) (spread yi * 2 ^ 1)) (spread zi)).
  { apply add_disjoint. intros i Hi. rewrite Z.lor_spec, Bx, By, Bz by lia.
    unfold spread_bit.
    destruct (Z.eqb_spec (i mod 3) 0); cbn [andb]; rewrite ?andb_false_r; trivial.
    destruct (Z.leb_spec 2 i), (Z.leb_spec 1 i); cbn [andb orb];
      rewrite ?andb_false_r; trivial;
      destruct (Z.eqb_spec ((i - 2) mod 3) 0), (Z.eqb_spec ((i - 1) mod 3) 0);
      cbn [andb orb]; rewrite ?andb_false_r; trivial;
      exfalso; pose proof (Z.div_mod (i - 2) 3); pose proof (Z.div_mod (i - 1) 3);
      pose proof (Z.div_mod i 3); lia. }
  rewrite D2. rewrite !Z.lor_spec, Bx, By, Bz by lia. unfold spread_bit.
  pose proof (Z.div_mod j 3) as Ej. pose proof (Z.mod_pos_bound j 3) as Mj.
  pose proof (Z.div_mod (j - 1) 3) as Ej1. pose proof (Z.mod_pos_bound (j - 1) 3) as Mj1.
  pose proof (Z.div_mod (j - 2) 3) as Ej2. pose proof (Z.mod_pos_bound (j - 2) 3) as Mj2.
  destruct (Z.eqb_spec (j mod 3) 0) as [M0|M0].
  - assert (E2 : ((j - 2) mod 3 =? 0) = false) by (apply Z.eqb_neq; lia).
    assert (E1 : ((j - 1) mod 3 =? 0) = false) by (apply Z.eqb_neq; lia).
    rewrite E1, E2. cbn [andb orb]. now rewrite !andb_false_r.
  - destruct (Z.eqb_spec (j mod 3) 1) as [M1|M1].
    + assert (E2 : ((j - 2) mod 3 =? 0) = false) by (apply Z.eqb_neq; lia).
      assert (E1 : ((j - 1) mod 3 =? 0) = true) by (apply Z.eqb_eq; lia).
      assert (Q : (j - 1) / 3 = j / 3) by lia.
      assert (L : (1 <=? j) = true) by (apply Z.leb_le; lia).
      rewrite E1, E2, Q, L. cbn [andb orb]. now rewrite andb_false_r, orb_false_r.
    + assert (E2 : ((j - 2) mod 3 =? 0) = true) by (apply Z.eqb_eq; lia).
      assert (E1 : ((j - 1) mod 3 =? 0) = false) by (apply Z.eqb_neq; lia).
      assert (Q : (j - 2) / 3 = j / 3) by lia.
      assert (L : (2 <=? j) = true) by (apply Z.leb_le; lia).
      rewrite E1, E2, Q, L. cbn [andb orb]. now rewrite andb_false_r, !orb_false_r.
Qed.

(** C2, as stated, fails: a NaN coordinate is not clamped, it stays NaN, and
    its conversion to [uint32_t] is undefined. *)
Lemma morton3D_not_a_number :
  scale_clamp nan = nan /\ truncate (scale_clamp nan) = None /\
  morton3D nan zero zero = None.
Proof. repeat split. Qed.

(** C2.  For coordinates that are not NaN, [morton3D] is the reference
    encoding: each coordinate, scaled by 1024, clamped and truncated, is an
    integer of [0, 1023], and for a finite coordinate [c] it is the integral
    part of [1024 c] kept within 0 and 1023; [expandBits] moves its bit [i]
    to bit [3 i] and leaves zeros elsewhere; the result is
    [xx * 4 + yy * 2 + zz], below [2 ^ 30], whose bits [3 i + 2], [3 i + 1]
    and [3 i] are the bits [i] of the three integers. *)
Theorem morton3D_encoding (x y z : float) :
  is_nan x = false -> is_nan y = false -> is_nan z = false ->
  exists xi yi zi,
    truncate (scale_clamp x) = Some xi /\ 0 <= xi <= 1023 /\
    truncate (scale_clamp y) = Some yi /\ 0 <= yi <= 1023 /\
    truncate (scale_clamp z) = Some zi /\ 0 <= zi <= 1023 /\
    (finite_number x = true -> xi = quantize x) /\
    (finite_number y = true -> yi = quantize y) /\
    (finite_number z = true -> zi = quantize z) /\
    expandBits xi = spread xi /\ expandBits yi = spread yi /\
    expandBits zi = spread zi /\
    morton3D x y z = Some (spread xi * 4 + spread yi * 2 + spread zi) /\
    0 <= spread xi * 4 + spread yi * 2 + spread zi < 2 ^ 30 /\
    forall i, 0 <= i < 10 ->
      Z.testbit (spread xi * 4 + spread yi * 2 + spread zi) (3 * i + 2) = Z.testbit xi i /\
      Z.testbit (spread xi * 4 + spread yi * 2 + spread zi) (3 * i + 1) = Z.testbit yi i /\
      Z.testbit (spread xi * 4 + spread yi * 2 + spread zi) (3 * i) = Z.testbit zi i.
Proof.
  intros Nx Ny Nz.
  destruct (scale_clamp_truncate x Nx) as (xi & Ex & Hx).
  destruct (scale_clamp_truncate y Ny) as (yi & Ey & Hy).
  destruct (scale_clamp_truncate z Nz) as (zi & Ez & Hz).
  exists xi, yi, zi.
  destruct (expandBits_spread xi) as (Sx & Rx & _); [lia|].
  destruct (expandBits_spread yi) as (Sy & Ry & _); [lia|].
  destruct (expandBits_spread zi) as (Sz & Rz & _); [lia|].
  pose proof (truncate_quantize x xi Ex) as Qx.
  pose proof (truncate_quantize y yi Ey) as Qy.
  pose proof (truncate_quantize z zi Ez) as Qz.
  repeat (split; [first [assumption | lia]|]).
  split; [|split; [change (2 ^ 30) with 1073741824; lia|]].
  - unfold morton3D. rewrite Ex, Ey, Ez, Sx, Sy, Sz.
    unfold wrap32. change (2 ^ 32) with 4294967296.
    rewrite (Z.mod_small (spread xi * 4)) by lia.
    rewrite (Z.mod_small (spread yi * 2)) by lia.
    rewrite (Z.mod_small (spread xi * 4 + spread yi * 2)) by lia.
    rewrite Z.mod_small by lia. reflexivity.
  - intros i Hi. rewrite !interleave_bits by lia.
    replace ((3 * i + 2) mod 3) with 2 by (apply (Z.mod_unique _ _ i); lia).
    replace ((3 * i + 1) mod 3) with 1 by (apply (Z.mod_unique _ _ i); lia).
    replace ((3 * i) mod 3) with 0 by (apply (Z.mod_unique _ _ i); lia).
    replace ((3 * i + 2) / 3) with i by (apply (Z.div_unique _ _ i 2); lia).
    replace ((3 * i + 1) / 3) with i by (apply (Z.div_unique _ _ i 1); lia).
    replace ((3 * i) / 3) with i by (apply (Z.div_unique _ _ i 0); lia).
    cbn. auto.
Qed.

Lemma morton3D_encoding_witness :
  exists xi yi zi,
    truncate (scale_clamp half) = Some xi /\ 0 <= xi <= 1023 /\
    truncate (scale_clamp (fdiv one (of_Z 4))) = Some yi /\ 0 <= yi <= 1023 /\
    truncate (scale_clamp one) = Some zi /\ 0 <= zi <= 1023 /\
    (finite_number half = true -> xi = quantize half) /\
    (finite_number (fdiv one (of_Z 4)) = true ->
     yi = quantize (fdiv one (of_Z 4))) /\
    (finite_number one = true -> zi = quantize one) /\
    expandBits xi = spread xi /\ expandBits yi = spread yi /\
    expandBits zi = spread zi /\
    morton3D half (fdiv one (of_Z 4)) one =
      Some (spread xi * 4 + spread yi * 2 + spread zi) /\
    0 <= spread xi * 4 + spread yi * 2 + spread zi < 2 ^ 30 /\
    forall i, 0 <= i < 10 ->
      Z.testbit (spread xi * 4 + spread yi * 2 + spread zi) (3 * i + 2) = Z.testbit xi i /\
      Z.testbit (spread xi * 4 + spread yi * 2 + spread zi) (3 * i + 1) = Z.testbit yi i /\
      Z.testbit (spread xi * 4 + spread yi * 2 + spread zi) (3 * i) = Z.testbit zi i.
Proof.
  apply (morton3D_encoding half (fdiv one (of_Z 4)) one); reflexivity.
Defined.

(** ** Further properties *)

(** *** to_uint and to_float *)

Lemma to_uint_range (f : float) : valid f = true -> 0 <= to_uint f < 2 ^ 32.
Proof.
  destruct f as [s|s| |s m e]; intros V; cbn [to_uint].
  - destruct s; cbn; lia.
  - destruct s; cbn; lia.
  - cbn. lia.
  - apply valid_finite_bounds in V. destruct V as (He & Hm & Hn).
    pose proof (magnitude_bounds m e He Hm Hn) as Hr. cbv zeta in Hr.
    change (2 ^ 32) with 4294967296. change (255 * 2 ^ 23) with 2139095040 in Hr.
    destruct s; unfold sign_field; change (2 ^ 31) with 2147483648; lia.
Qed.

Lemma to_float_to_uint_valid (f : float) :
  valid f = true -> to_float (to_uint f) = f.
Proof.
  intros V. destruct (is_nan f) eqn:N.
  - destruct f; try discriminate. reflexivity.
  - now apply to_float_to_uint.
Qed.

(** X1.  [to_float(to_uint(f))] is [f], and [to_uint(f)] fits in 32 bits. *)
Theorem to_float_of_to_uint (f : float) :
  valid f = true -> to_float (to_uint f) = f /\ 0 <= to_uint f < 2 ^ 32.
Proof.
  intros V. split; [now apply to_float_to_uint_valid|now apply to_uint_range].
Qed.

Lemma to_float_of_to_uint_witness :
  to_float (to_uint minimum) = minimum /\ 0 <= to_uint minimum < 2 ^ 32.
Proof. apply (to_float_of_to_uint minimum). reflexivity. Defined.

Lemma pattern_fields (ui : Z) :
  0 <= ui < 2 ^ 32 ->
  let s := Z.testbit ui 31 in
  let e := (ui / 2 ^ 23) mod 2 ^ 8 in
  let m := ui mod 2 ^ 23 in
  ui = sign_field s + e * 2 ^ 23 + m /\ 0 <= e < 2 ^ 8 /\ 0 <= m < 2 ^ 23.
Proof.
  intros H s e m.
  assert (Hm : 0 <= m < 2 ^ 23) by (apply Z.mod_pos_bound; lia).
  assert (He : 0 <= e < 2 ^ 8) by (apply Z.mod_pos_bound; lia).
  split; [|tauto].
  pose proof (Z.div_mod ui (2 ^ 23) ltac:(lia)) as D1.
  pose proof (Z.div_mod (ui / 2 ^ 23) (2 ^ 8) ltac:(lia)) as D2.
  fold m in D1. fold e in D2.
  assert (Hq : ui / 2 ^ 23 / 2 ^ 8 = ui / 2 ^ 31).
  { rewrite Z.div_div by lia. reflexivity. }
  rewrite Hq in D2.
  assert (Hb : 0 <= ui / 2 ^ 31 < 2).
  { split; [apply Z.div_pos; lia|apply Z.div_lt_upper_bound; lia]. }
  assert (Hs : sign_field s = ui / 2 ^ 31 * 2 ^ 31).
  { unfold s, sign_field. destruct (Z.testbit ui 31) eqn:T.
    - apply Z.testbit_true in T; [|lia]. rewrite Z.mod_small in T by lia.
      rewrite T. reflexivity.
    - apply Z.testbit_false in T; [|lia]. rewrite Z.mod_small in T by lia.
      rewrite T. reflexivity. }
  rewrite Hs. clearbody s e m.
  change (2 ^ 31) with 2147483648 in *. change (2 ^ 23) with 8388608 in *.
  change (2 ^ 8) with 256 in *. lia.
Qed.

(** X2.  Every 32-bit pattern that is not the pattern of a NaN is the pattern
    of one valid float: [to_uint(to_float(ui))] is [ui]. *)
Theorem to_uint_of_to_float (ui : Z) :
  0 <= ui < 2 ^ 32 -> is_nan (to_float ui) = false ->
  valid (to_float ui) = true /\ to_uint (to_float ui) = ui.
Proof.
  intros H. destruct (pattern_fields ui H) as (E & He & Hm). revert E He Hm.
  unfold to_float. cbv zeta.
  generalize (Z.testbit ui 31) ((ui / 2 ^ 23) mod 2 ^ 8) (ui mod 2 ^ 23).
  intros s e m E He Hm.
  change (2 ^ 8) with 256 in *.
  destruct (Z.eqb_spec e 0) as [->|E0].
  - destruct m as [|p|p]; try lia; intros _.
    + split; [reflexivity|]. cbn [to_uint]. lia.
    + split; [apply valid_of_bounds; lia|]. cbn [to_uint].
      destruct (Z.ltb_spec (Zpos p) (2 ^ 23)); lia.
  - destruct (Z.eqb_spec e 255) as [->|E255].
    + destruct (Z.eqb_spec m 0) as [->|]; [|discriminate]. intros _.
      split; [reflexivity|]. cbn [to_uint]. lia.
    + assert (P : 0 < m + 2 ^ 23) by lia.
      destruct (m + 2 ^ 23) as [|p|p] eqn:Ep; try lia. intros _.
      split; [apply valid_of_bounds; change (2 ^ 24) with (2 * 2 ^ 23); lia|].
      cbn [to_uint]. destruct (Z.ltb_spec (Zpos p) (2 ^ 23)); lia.
Qed.

Lemma to_uint_of_to_float_witness :
  valid (to_float 0x80000001) = true /\ to_uint (to_float 0x80000001) = 0x80000001.
Proof. apply (to_uint_of_to_float 0x80000001); [lia|reflexivity]. Defined.

(** The bits of a float without its sign bit. *)
Lemma magnitude_order (sa sb : bool) (ma mb : positive) (ea eb : Z) :
  valid (S754_finite sa ma ea) = true -> valid (S754_finite sb mb eb) = true ->
  let r m e := if Zpos m <? 2 ^ 23 then Zpos m
               else (e + 150) * 2 ^ 23 + (Zpos m - 2 ^ 23) in
  (ea < eb \/ (ea = eb /\ Zpos ma < Zpos mb) <-> r ma ea < r mb eb) /\
  0 < r ma ea < 255 * 2 ^ 23 /\ 0 < r mb eb < 255 * 2 ^ 23.
Proof.
  intros Va Vb r.
  apply valid_finite_bounds in Va. destruct Va as (Hea & Hma & Hna).
  apply valid_finite_bounds in Vb. destruct Vb as (Heb & Hmb & Hnb).
  pose proof (magnitude_bounds ma ea Hea Hma Hna) as Ha.
  pose proof (magnitude_bounds mb eb Heb Hmb Hnb) as Hb.
  cbv zeta in Ha, Hb. unfold r. split; [|tauto].
  destruct (Z.ltb_spec (Zpos ma) (2 ^ 23)), (Z.ltb_spec (Zpos mb) (2 ^ 23));
    split; intros; nia.
Qed.

Lemma pattern_order (a b : float) :
  valid a = true -> valid b = true -> is_nan a = false -> is_nan b = false ->
  (sign_bit a = false -> sign_bit b = false ->
   (flt a b = true <-> to_uint a < to_uint b)) /\
  (sign_bit a = true -> sign_bit b = true ->
   (flt a b = true <-> to_uint b < to_uint a)) /\
  (sign_bit a = true -> sign_bit b = false -> to_uint b < to_uint a).
Proof.
  intros Va Vb Na Nb. rewrite flt_key.
  assert (P31 : 2 ^ 31 = 2147483648) by reflexivity.
  assert (P23 : 255 * 2 ^ 23 = 2139095040) by reflexivity.
  destruct a as [sa|sa| |sa ma ea], b as [sb|sb| |sb mb eb]; try discriminate;
    cbn [sign_bit key to_uint lex3_lt]; unfold sign_field;
    try (pose proof (magnitude_order sa sb ma mb ea eb Va Vb) as (Ho & Ha & Hb);
         pose proof (magnitude_order sb sa mb ma eb ea Vb Va) as (Ho' & _);
         cbv zeta in Ho, Ho', Ha, Hb);
    try (destruct (magnitude_order sa sa ma ma ea ea Va Va) as (_ & Ha & _);
         cbv zeta in Ha);
    try (destruct (magnitude_order sb sb mb mb eb eb Vb Vb) as (_ & Hb & _);
         cbv zeta in Hb);
    rewrite ?P31, ?P23 in *;
    (split; [|split]); intros -> ->; try lia;
    unfold lex3_lt;
    (split; [intros (_ & _ & ?)|intros ?; split; [reflexivity|split; [reflexivity|]]]);
    lia.
Qed.

(** X3.  The unsigned order of the patterns against the order of the
    numbers: the same for two numbers whose sign bits are clear, the
    opposite for two numbers whose sign bits are set, and every pattern with
    the sign bit set is above every pattern with the sign bit clear. *)
Theorem to_uint_order (a b : float) :
  valid a = true -> valid b = true -> is_nan a = false -> is_nan b = false ->
  (sign_bit a = false -> sign_bit b = false ->
   (flt a b = true <-> to_uint a < to_uint b)) /\
  (sign_bit a = true -> sign_bit b = true ->
   (flt a b = true <-> to_uint b < to_uint a)) /\
  (sign_bit a = true -> sign_bit b = false -> to_uint b < to_uint a).
Proof. exact (pattern_order a b). Qed.

Lemma to_uint_order_witness :
  (sign_bit (of_Z (-2)) = false -> sign_bit (of_Z (-1)) = false ->
   (flt (of_Z (-2)) (of_Z (-1)) = true <-> to_uint (of_Z (-2)) < to_uint (of_Z (-1)))) /\
  (sign_bit (of_Z (-2)) = true -> sign_bit (of_Z (-1)) = true ->
   (flt (of_Z (-2)) (of_Z (-1)) = true <-> to_uint (of_Z (-1)) < to_uint (of_Z (-2)))) /\
  (sign_bit (of_Z (-2)) = true -> sign_bit (of_Z (-1)) = false ->
   to_uint (of_Z (-1)) < to_uint (of_Z (-2))).
Proof.
  apply (to_uint_order (of_Z (-2)) (of_Z (-1))); reflexivity.
Defined.

(** *** Expand(const AABB &) beyond the non-negative floats *)

Lemma neg_finite_inv (f : float) :
  neg_finite f = true ->
  valid f = true /\ is_finite f = true /\ sign_bit f = true /\ is_nan f = false.
Proof.
  unfold neg_finite. intros H. split_andb.
  repeat split; trivial. destruct f; trivial; discriminate.
Qed.

(** Among patterns of one sign, the smaller pattern and the larger one. *)
Lemma patterns_same_sign (a b : float) :
  valid a = true -> valid b = true -> is_nan a = false -> is_nan b = false ->
  sign_bit a = sign_bit b ->
  let lo := to_float (Z.min (to_uint a) (to_uint b)) in
  let hi := to_float (Z.max (to_uint a) (to_uint b)) in
  if sign_bit a then lo = num_max a b /\ hi = num_min a b
  else lo = num_min a b /\ hi = num_max a b.
Proof.
  intros Va Vb Na Nb S lo hi.
  destruct (pattern_order a b Va Vb Na Nb) as (P1 & P2 & _).
  destruct (pattern_order b a Vb Va Nb Na) as (Q1 & Q2 & _).
  pose proof (to_float_to_uint_valid a Va) as Ra.
  pose proof (to_float_to_uint_valid b Vb) as Rb.
  unfold lo, hi, num_min, num_max.
  destruct (flt a b) eqn:L1; [|destruct (flt b a) eqn:L2].
  - rewrite (flt_fle a b L1).
    destruct (sign_bit a) eqn:Sa; symmetry in S.
    + assert (to_uint b < to_uint a) by (apply P2; trivial).
      rewrite Z.min_r, Z.max_l by lia. auto.
    + assert (to_uint a < to_uint b) by (apply P1; trivial).
      rewrite Z.min_l, Z.max_r by lia. auto.
  - rewrite (flt_not_fle a b L2).
    destruct (sign_bit a) eqn:Sa; symmetry in S.
    + assert (to_uint a < to_uint b) by (apply Q2; trivial).
      rewrite Z.min_l, Z.max_r by lia. auto.
    + assert (to_uint b < to_uint a) by (apply Q1; trivial).
      rewrite Z.min_r, Z.max_l by lia. auto.
  - assert (E : to_uint a = to_uint b).
    { destruct (sign_bit a) eqn:Sa; symmetry in S.
      - specialize (P2 eq_refl S). specialize (Q2 S eq_refl).
        destruct (Z.lt_total (to_uint a) (to_uint b)) as [H|[H|H]]; trivial.
        + apply Q2 in H. congruence.
        + apply P2 in H. congruence.
      - specialize (P1 eq_refl S). specialize (Q1 S eq_refl).
        destruct (Z.lt_total (to_uint a) (to_uint b)) as [H|[H|H]]; trivial.
        + apply P1 in H. congruence.
        + apply Q1 in H. congruence. }
    assert (Eab : a = b) by congruence. subst b.
    rewrite Z.min_id, Z.max_id, Ra.
    destruct (fle a a), (sign_bit a); auto.
Qed.

Lemma ExpandBox_alone (fuel : nat) (A B : AABB) :
  ExpandBox (S fuel) A B =
  Some (mk_AABB
          (mk_vec3 (to_float (Z.min (to_uint (x (Min A))) (to_uint (x (Min B)))))
                   (to_float (Z.min (to_uint (y (Min A))) (to_uint (y (Min B)))))
                   (to_float (Z.min (to_uint (z (Min A))) (to_uint (z (Min B))))))
          (mk_vec3 (to_float (Z.max (to_uint (x (Max A))) (to_uint (x (Max B)))))
                   (to_float (Z.max (to_uint (y (Max A))) (to_uint (y (Max B)))))
                   (to_float (Z.max (to_uint (z (Max A))) (to_uint (z (Max B))))))).
Proof.
  destruct A as [[a1 a2 a3] [a4 a5 a6]], B as [[b1 b2 b3] [b4 b5 b6]].
  unfold ExpandBox. cbn [fold_left]. rewrite !ExpandBox_step_alone.
  unfold AtomicMin, AtomicMax, set_AtomicMin, set_AtomicMax.
  cbn [get set Min Max x y z]. reflexivity.
Qed.

(** X4.  On boxes whose components are all finite with the sign bit set, a
    call [A.Expand(B)] met by no other writer does the opposite of a union:
    it leaves in [A.Min] the numeric maximum of the two [Min] and in [A.Max]
    the numeric minimum of the two [Max]. *)
Theorem ExpandBox_orders_negative (fuel : nat) (A B : AABB) :
  box_all neg_finite A = true -> box_all neg_finite B = true ->
  ExpandBox (S fuel) A B =
  Some (mk_AABB (map2 num_max (Min A) (Min B)) (map2 num_min (Max A) (Max B))).
Proof.
  intros HA HB. rewrite ExpandBox_alone.
  destruct A as [[a1 a2 a3] [a4 a5 a6]], B as [[b1 b2 b3] [b4 b5 b6]].
  apply box_all_inv in HA. destruct HA as [HA1 HA2].
  apply vec3_all_inv in HA1. apply vec3_all_inv in HA2.
  apply box_all_inv in HB. destruct HB as [HB1 HB2].
  apply vec3_all_inv in HB1. apply vec3_all_inv in HB2.
  cbn [Min Max x y z map2] in *.
  assert (K : forall a b, neg_finite a = true -> neg_finite b = true ->
              to_float (Z.min (to_uint a) (to_uint b)) = num_max a b /\
              to_float (Z.max (to_uint a) (to_uint b)) = num_min a b).
  { intros a b Ha Hb. apply neg_finite_inv in Ha, Hb.
    destruct Ha as (Va & _ & Sa & Na), Hb as (Vb & _ & Sb & Nb).
    pose proof (patterns_same_sign a b Va Vb Na Nb ltac:(congruence)) as P.
    cbv zeta in P. rewrite Sa in P. exact P. }
  destruct (K a1 b1) as [-> _]; try tauto.
  destruct (K a2 b2) as [-> _]; try tauto.
  destruct (K a3 b3) as [-> _]; try tauto.
  destruct (K a4 b4) as [_ ->]; try tauto.
  destruct (K a5 b5) as [_ ->]; try tauto.
  destruct (K a6 b6) as [_ ->]; try tauto.
Qed.

Lemma ExpandBox_orders_negative_witness :
  ExpandBox 1 (mk_AABB (splat (of_Z (-4))) (splat (of_Z (-3))))
              (mk_AABB (splat (of_Z (-2))) (splat (of_Z (-1)))) =
  Some (mk_AABB (splat (of_Z (-2))) (splat (of_Z (-3)))).
Proof.
  exact (ExpandBox_orders_negative 0
           (mk_AABB (splat (of_Z (-4))) (splat (of_Z (-3))))
           (mk_AABB (splat (of_Z (-2))) (splat (of_Z (-1)))) eq_refl eq_refl).
Defined.

Lemma to_uint_nonneg_finite (f : float) :
  nonneg_finite f = true -> 0 <= to_uint f <= 0x7F7FFFFF.
Proof.
  intros H. apply nonneg_finite_inv in H. destruct H as (V & F & S & _).
  destruct f as [s|s| |s m e]; try discriminate; cbn [sign_bit] in S; subst s.
  - cbn. lia.
  - apply valid_finite_bounds in V. destruct V as (He & Hm & Hn).
    pose proof (magnitude_bounds m e He Hm Hn) as Hr. cbv zeta in Hr.
    cbn [to_uint sign_field]. change (255 * 2 ^ 23) with 2139095040 in Hr. lia.
Qed.

(** X5.  The box of a fresh node is neutral for [Expand(const AABB &)] on
    the boxes it is made for: merging into it a box [B] whose [Min] is
    finite with a clear sign bit leaves exactly [B]. *)
Theorem ExpandBox_fresh_node (fuel : nat) (garbage B : AABB) :
  vec3_all nonneg_finite (Min B) = true -> vec3_all valid (Max B) = true ->
  ExpandBox (S fuel) (Box (Node_ctor garbage)) B = Some B.
Proof.
  intros Hm HM. rewrite ExpandBox_alone.
  destruct garbage as [[g1 g2 g3] [g4 g5 g6]], B as [[b1 b2 b3] [b4 b5 b6]].
  apply vec3_all_inv in Hm, HM. cbn [Min Max x y z] in *.
  destruct Hm as (H1 & H2 & H3), HM as (H4 & H5 & H6).
  change (x (Min (Box (Node_ctor (mk_AABB (mk_vec3 g1 g2 g3) (mk_vec3 g4 g5 g6))))))
    with maximum.
  change (y (Min (Box (Node_ctor (mk_AABB (mk_vec3 g1 g2 g3) (mk_vec3 g4 g5 g6))))))
    with maximum.
  change (z (Min (Box (Node_ctor (mk_AABB (mk_vec3 g1 g2 g3) (mk_vec3 g4 g5 g6))))))
    with maximum.
  change (x (Max (Box (Node_ctor (mk_AABB (mk_vec3 g1 g2 g3) (mk_vec3 g4 g5 g6))))))
    with zero.
  change (y (Max (Box (Node_ctor (mk_AABB (mk_vec3 g1 g2 g3) (mk_vec3 g4 g5 g6))))))
    with zero.
  change (z (Max (Box (Node_ctor (mk_AABB (mk_vec3 g1 g2 g3) (mk_vec3 g4 g5 g6))))))
    with zero.
  change (to_uint maximum) with 0x7F7FFFFF. change (to_uint zero) with 0.
  pose proof (to_uint_nonneg_finite b1 H1). pose proof (to_uint_nonneg_finite b2 H2).
  pose proof (to_uint_nonneg_finite b3 H3).
  pose proof (to_uint_range b4 H4). pose proof (to_uint_range b5 H5).
  pose proof (to_uint_range b6 H6).
  rewrite !Z.min_r, !Z.max_r by lia.
  apply nonneg_finite_inv in H1, H2, H3.
  rewrite !to_float_to_uint_valid by tauto. reflexivity.
Qed.

Lemma ExpandBox_fresh_node_witness :
  ExpandBox 1 (Box (Node_ctor unit_box)) (mk_AABB (splat half) (splat one)) =
  Some (mk_AABB (splat half) (splat one)).
Proof.
  apply (ExpandBox_fresh_node 0 unit_box (mk_AABB (splat half) (splat one)));
    reflexivity.
Defined.

Lemma nonneg_patterns (a b : float) :
  nonneg_finite a = true -> nonneg_finite b = true ->
  to_float (Z.min (to_uint a) (to_uint b)) = num_min a b /\
  to_float (Z.max (to_uint a) (to_uint b)) = num_max a b /\
  is_nan a = false /\ is_nan b = false.
Proof.
  intros Ha Hb. apply nonneg_finite_inv in Ha, Hb.
  destruct Ha as (Va & _ & Sa & Na), Hb as (Vb & _ & Sb & Nb).
  pose proof (patterns_same_sign a b Va Vb Na Nb ltac:(congruence)) as P.
  cbv zeta in P. rewrite Sa in P. tauto.
Qed.

(** X6.  On boxes whose components are all finite with a clear sign bit, a
    call [A.Expand(B)] met by no other writer leaves a box that contains
    every point [A] contained and every point [B] contained. *)
Theorem ExpandBox_union (fuel : nat) (A B : AABB) :
  box_all nonneg_finite A = true -> box_all nonneg_finite B = true ->
  exists R, ExpandBox (S fuel) A B = Some R /\
            forall q, contains A q = true \/ contains B q = true ->
                      contains R q = true.
Proof.
  intros HA HB. rewrite ExpandBox_alone. eexists. split; [reflexivity|].
  destruct A as [[a1 a2 a3] [a4 a5 a6]], B as [[b1 b2 b3] [b4 b5 b6]].
  apply box_all_inv in HA. destruct HA as [HA1 HA2].
  apply vec3_all_inv in HA1. apply vec3_all_inv in HA2.
  apply box_all_inv in HB. destruct HB as [HB1 HB2].
  apply vec3_all_inv in HB1. apply vec3_all_inv in HB2.
  cbn [Min Max x y z] in *.
  destruct (nonneg_patterns a1 b1) as (-> & _ & N1 & N1'); try tauto.
  destruct (nonneg_patterns a2 b2) as (-> & _ & N2 & N2'); try tauto.
  destruct (nonneg_patterns a3 b3) as (-> & _ & N3 & N3'); try tauto.
  destruct (nonneg_patterns a4 b4) as (_ & -> & N4 & N4'); try tauto.
  destruct (nonneg_patterns a5 b5) as (_ & -> & N5 & N5'); try tauto.
  destruct (nonneg_patterns a6 b6) as (_ & -> & N6 & N6'); try tauto.
  intros [q1 q2 q3]. unfold contains, vle. cbn [Min Max x y z].
  pose proof (num_min_below a1 b1 N1 N1') as [? ?].
  pose proof (num_min_below a2 b2 N2 N2') as [? ?].
  pose proof (num_min_below a3 b3 N3 N3') as [? ?].
  pose proof (num_max_above a4 b4 N4 N4') as [? ?].
  pose proof (num_max_above a5 b5 N5 N5') as [? ?].
  pose proof (num_max_above a6 b6 N6 N6') as [? ?].
  intros [Hc|Hc]; split_andb;
    repeat (apply andb_true_intro; split);
    match goal with
    | H1 : fle ?a ?m = true, H2 : fle ?m ?c = true |- fle ?a ?c = true =>
        exact (fle_trans a m c H1 H2)
    end.
Qed.

Lemma ExpandBox_union_witness :
  exists R, ExpandBox 1 unit_box (mk_AABB (splat half) (splat (of_Z 2))) = Some R /\
            forall q, contains unit_box q = true \/
                      contains (mk_AABB (splat half) (splat (of_Z 2))) q = true ->
                      contains R q = true.
Proof.
  apply (ExpandBox_union 0 unit_box (mk_AABB (splat half) (splat (of_Z 2))));
    reflexivity.
Defined.

Lemma pattern_min_stable (a b : float) :
  valid a = true -> valid b = true ->
  to_uint (to_float (Z.min (to_uint a) (to_uint b))) = Z.min (to_uint a) (to_uint b) /\
  to_uint (to_float (Z.max (to_uint a) (to_uint b))) = Z.max (to_uint a) (to_uint b).
Proof.
  intros Va Vb.
  pose proof (to_float_to_uint_valid a Va) as Ra.
  pose proof (to_float_to_uint_valid b Vb) as Rb.
  split.
  - destruct (Z.min_spec (to_uint a) (to_uint b)) as [[_ ->]|[_ ->]]; congruence.
  - destruct (Z.max_spec (to_uint a) (to_uint b)) as [[_ ->]|[_ ->]]; congruence.
Qed.

(** X7.  Met by no other writer, the calls [A.Expand(B)] and [B.Expand(A)]
    leave the same box, whatever the two boxes hold; and merging two valid
    boxes [B] and [C] into a valid box [A] gives the same box in either
    order. *)
Theorem ExpandBox_order_free (fuel : nat) :
  (forall A B, ExpandBox (S fuel) A B = ExpandBox (S fuel) B A) /\
  (forall A B C,
      box_all valid A = true -> box_all valid B = true ->
      box_all valid C = true ->
      exists AB AC R,
        ExpandBox (S fuel) A B = Some AB /\ ExpandBox (S fuel) AB C = Some R /\
        ExpandBox (S fuel) A C = Some AC /\ ExpandBox (S fuel) AC B = Some R).
Proof.
  split.
  - intros A B. rewrite !ExpandBox_alone.
    now rewrite !(Z.min_comm (to_uint (_ (Min A)))), !(Z.max_comm (to_uint (_ (Max A)))).
  - intros A B C HA HB HC.
    do 3 eexists. rewrite !ExpandBox_alone.
    split; [reflexivity|]. split; [|split; [reflexivity|]].
    + reflexivity.
    + destruct A as [[a1 a2 a3] [a4 a5 a6]], B as [[b1 b2 b3] [b4 b5 b6]],
               C as [[c1 c2 c3] [c4 c5 c6]].
      apply box_all_inv in HA, HB, HC.
      destruct HA as [HA1 HA2], HB as [HB1 HB2], HC as [HC1 HC2].
      apply vec3_all_inv in HA1, HA2, HB1, HB2, HC1, HC2.
      cbn [Min Max x y z] in *.
      repeat match goal with
             | |- context [to_uint (to_float (Z.min (to_uint ?a) (to_uint ?b)))] =>
                 rewrite (proj1 (pattern_min_stable a b ltac:(tauto) ltac:(tauto)))
             | |- context [to_uint (to_float (Z.max (to_uint ?a) (to_uint ?b)))] =>
                 rewrite (proj2 (pattern_min_stable a b ltac:(tauto) ltac:(tauto)))
             end.
      do 2 f_equal; f_equal; f_equal; lia.
Qed.

Lemma ExpandBox_order_free_witness :
  exists AB AC R,
    ExpandBox 1 unit_box (mk_AABB (splat (of_Z (-1))) (splat half)) = Some AB /\
    ExpandBox 1 AB (mk_AABB (splat half) (splat nan)) = Some R /\
    ExpandBox 1 unit_box (mk_AABB (splat half) (splat nan)) = Some AC /\
    ExpandBox 1 AC (mk_AABB (splat (of_Z (-1))) (splat half)) = Some R.
Proof.
  apply (proj2 (ExpandBox_order_free 0) unit_box
           (mk_AABB (splat (of_Z (-1))) (splat half))
           (mk_AABB (splat half) (splat nan))); reflexivity.
Defined.

(** *** update_min and update_max run by several threads *)

Lemma nth_error_set_nth {A : Type} (l : list A) (i j : nat) (a : A) :
  nth_error (set_nth i a l) j =
  if Nat.eqb i j then match nth_error l j with Some _ => Some a | None => None end
  else nth_error l j.
Proof.
  revert i j. induction l as [|b l IH]; intros i j.
  - destruct i, j; cbn; trivial; destruct (Nat.eqb i j); reflexivity.
  - destruct i as [|i], j as [|j]; cbn; trivial; try apply IH.
Qed.

Lemma toward_trans (up : bool) (a b c : Z) :
  toward up a b -> toward up b c -> toward up a c.
Proof. unfold toward. destruct up; lia. Qed.

Lemma thread_ok_lower (up : bool) (c c' v : Z) (t : thread) :
  toward up c' c -> thread_ok up c v t -> thread_ok up c' v t.
Proof.
  intros H. destruct t as [v'|v' old|]; cbn; trivial.
  - intros [-> O]. split; trivial. eapply toward_trans; eassumption.
  - intros O. eapply toward_trans; eassumption.
Qed.

Lemma step_ok (up sp : bool) (c v : Z) (t : thread) :
  thread_ok up c v t ->
  let '(c', t') := step_toward up sp c t in
  toward up c' c /\ (c' = c \/ c' = v) /\ thread_ok up c' v t'.
Proof.
  unfold step_toward, thread_ok, toward. destruct t as [v'|v' old|]; cbn.
  - intros ->. destruct up; cbn; repeat split; auto; lia.
  - intros [-> O]. destruct up; cbn.
    + destruct (Z.ltb_spec old v); [|repeat split; auto; lia].
      destruct sp; cbn; [repeat split; auto; lia|].
      destruct (Z.eqb_spec c old); cbn; repeat split; auto; lia.
    + destruct (Z.ltb_spec v old); [|repeat split; auto; lia].
      destruct sp; cbn; [repeat split; auto; lia|].
      destruct (Z.eqb_spec c old); cbn; repeat split; auto; lia.
  - intros O. destruct up; cbn; repeat split; auto; lia.
Qed.

Lemma threads_inv_step (up : bool) (cell0 : Z) (vs : list Z)
    (st : Z * list thread) (e : nat * bool) :
  threads_inv up cell0 vs st ->
  threads_inv up cell0 vs (step_thread (step_toward up) st e).
Proof.
  destruct st as [c ts], e as [i sp]. intros (O & I & T).
  unfold step_thread. destruct (nth_error ts i) as [t|] eqn:Et;
    [|repeat split; trivial].
  pose proof (T i) as Ti. rewrite Et in Ti.
  destruct (nth_error vs i) as [v|] eqn:Ev; [|contradiction].
  pose proof (step_ok up sp c v t Ti) as St.
  destruct (step_toward up sp c t) as [c' t']. destruct St as (O' & Cv & T').
  split; [eapply toward_trans; eassumption|]. split.
  - destruct Cv as [->| ->]; trivial. right. eapply nth_error_In; eassumption.
  - intros j. rewrite nth_error_set_nth. specialize (T j).
    destruct (Nat.eqb_spec i j) as [<-|Ne].
    + rewrite Ev, Et. exact T'.
    + destruct (nth_error vs j), (nth_error ts j); trivial.
      eapply thread_ok_lower; eassumption.
Qed.

Lemma threads_inv_run (up : bool) (cell0 : Z) (vs : list Z)
    (sched : list (nat * bool)) (st : Z * list thread) :
  threads_inv up cell0 vs st ->
  threads_inv up cell0 vs (fold_left (step_thread (step_toward up)) sched st).
Proof.
  revert st. induction sched as [|e sched IH]; intros st H; cbn; trivial.
  apply IH. now apply threads_inv_step.
Qed.

Lemma threads_inv_init (up : bool) (cell0 : Z) (vs : list Z) :
  threads_inv up cell0 vs (cell0, map Entry vs).
Proof.
  split; [unfold toward; destruct up; lia|]. split; [now left|].
  intros i. rewrite nth_error_map.
  destruct (nth_error vs i); cbn; trivial.
Qed.

Lemma extreme_bound (up : bool) (cell0 : Z) (vs : list Z) (c : Z) :
  toward up c cell0 -> (forall v, In v vs -> toward up c v) ->
  In c (cell0 :: vs) -> c = fold_right (extreme up) cell0 vs.
Proof.
  intros O B I.
  assert (L : toward up c (fold_right (extreme up) cell0 vs)).
  { clear I. induction vs as [|v vs IH]; cbn; trivial.
    assert (toward up c v) by (apply B; now left).
    assert (toward up c (fold_right (extreme up) cell0 vs))
      by (apply IH; intros; apply B; now right).
    unfold toward, extreme in *. destruct up; lia. }
  assert (U : forall w, In w (cell0 :: vs) ->
                        toward up (fold_right (extreme up) cell0 vs) w).
  { clear. induction vs as [|v vs IH]; cbn.
    - intros w [<-|[]]. unfold toward. destruct up; lia.
    - intros w [<-|[<-|H]].
      + specialize (IH cell0 (or_introl eq_refl)).
        unfold toward, extreme in *. destruct up; lia.
      + unfold toward, extreme. destruct up; lia.
      + specialize (IH w (or_intror H)).
        unfold toward, extreme in *. destruct up; lia. }
  specialize (U c I). unfold toward in *. destruct up; lia.
Qed.

Lemma run_result (up : bool) (sched : list (nat * bool)) (cell0 : Z)
    (vs : list Z) :
  let '(c, ts) := run (step_toward up) sched cell0 (map Entry vs) in
  toward up c cell0 /\ In c (cell0 :: vs) /\
  (all_done ts = true -> c = fold_right (extreme up) cell0 vs).
Proof.
  pose proof (threads_inv_run up cell0 vs sched _ (threads_inv_init up cell0 vs)) as H.
  unfold run. destruct (fold_left _ sched _) as [c ts].
  destruct H as (O & I & T). repeat split; trivial.
  intros D. apply extreme_bound; trivial.
  intros v Hv. apply In_nth_error in Hv. destruct Hv as [i Hi].
  specialize (T i). rewrite Hi in T.
  destruct (nth_error ts i) as [t|] eqn:Et; [|contradiction].
  unfold all_done in D. rewrite forallb_forall in D.
  specialize (D t (nth_error_In _ _ Et)).
  destruct t; try discriminate. exact T.
Qed.

Lemma alone_finishes (up : bool) (c : Z) (ts : list thread) (i : nat) :
  (i < length ts)%nat ->
  nth_error (snd (run (step_toward up) [(i, false); (i, false); (i, false)] c ts)) i
    = Some Done.
Proof.
  intros Hi.
  assert (K : forall c ts t, nth_error ts i = Some t ->
              step_thread (step_toward up) (c, ts) (i, false) =
              (fst (step_toward up false c t),
               set_nth i (snd (step_toward up false c t)) ts)).
  { intros c0 ts0 t E. unfold step_thread. rewrite E.
    destruct (step_toward up false c0 t); reflexivity. }
  assert (N : forall (ts : list thread) t t', nth_error ts i = Some t ->
              nth_error (set_nth i t' ts) i = Some t').
  { intros ts0 t t' E. rewrite nth_error_set_nth, Nat.eqb_refl, E. reflexivity. }
  destruct (nth_error ts i) as [t|] eqn:Et;
    [|apply nth_error_None in Et; lia].
  unfold run. cbn [fold_left].
  rewrite (K _ _ _ Et).
  rewrite (K _ _ _ (N _ _ _ Et)).
  rewrite (K _ _ _ (N _ _ _ (N _ _ _ Et))).
  cbn [snd]. erewrite N by (eapply N, N, Et).
  unfold step_toward. destruct t as [v|v old|]; destruct up; cbn;
    repeat match goal with
           | |- context [?a <? ?b] => destruct (Z.ltb_spec a b); cbn
           | |- context [?a =? ?b] => destruct (Z.eqb_spec a b); cbn
           end; trivial; try lia.
Qed.

(** X8.  Threads that run [update_min] on one cell, each with its value,
    under any interleaving of their loads and exchanges and any spurious
    failures: the cell never rises, it always holds its first content or one
    of the values, and once every thread has left its loop it holds the
    minimum of its first content and all the values.  The same holds for
    [update_max], with the maximum. *)
Theorem update_threads_result (sched : list (nat * bool)) (cell : Z) (vs : list Z) :
  (let '(c, ts) := run step_min sched cell (map Entry vs) in
   c <= cell /\ In c (cell :: vs) /\
   (all_done ts = true -> c = fold_right Z.min cell vs)) /\
  (let '(c, ts) := run step_max sched cell (map Entry vs) in
   cell <= c /\ In c (cell :: vs) /\
   (all_done ts = true -> c = fold_right Z.max cell vs)).
Proof.
  split.
  - exact (run_result false sched cell vs).
  - exact (run_result true sched cell vs).
Qed.

Lemma update_threads_result_witness :
  fst (run step_min [(0, false); (1, false); (1, true); (0, false); (1, false);
                     (0, false); (1, false)]%nat 9 (map Entry [5; 3])) = 3.
Proof.
  pose proof (proj1 (update_threads_result
    [(0, false); (1, false); (1, true); (0, false); (1, false);
     (0, false); (1, false)]%nat 9 [5; 3])) as H.
  cbn in H. apply H. reflexivity.
Defined.

(** X9.  From any state of the cell and of the other threads, a thread that
    takes three steps in a row with no spurious failure has left the loop of
    [update_min], and likewise of [update_max]. *)
Theorem update_thread_alone_finishes (c : Z) (ts : list thread) (i : nat) :
  (i < length ts)%nat ->
  nth_error (snd (run step_min [(i, false); (i, false); (i, false)] c ts)) i
    = Some Done /\
  nth_error (snd (run step_max [(i, false); (i, false); (i, false)] c ts)) i
    = Some Done.
Proof.
  intros Hi. split.
  - exact (alone_finishes false c ts i Hi).
  - exact (alone_finishes true c ts i Hi).
Qed.

Lemma update_thread_alone_finishes_witness :
  nth_error (snd (run step_min [(1, false); (1, false); (1, false)]%nat 9
                      [Retry 5 9; Retry 3 12])) 1 = Some Done /\
  nth_error (snd (run step_max [(1, false); (1, false); (1, false)]%nat 9
                      [Retry 5 9; Retry 3 12])) 1 = Some Done.
Proof.
  apply (update_thread_alone_finishes 9 [Retry 5 9; Retry 3 12] 1). cbn. lia.
Defined.

(** *** Expand(const glm::vec3 &) over several points *)

Lemma Expand_keeps (b : AABB) (p q : vec3) :
  vec3_all is_finite p = true -> contains b q = true ->
  contains (Expand b p) q = true.
Proof.
  intros F. apply vec3_all_inv in F. destruct F as (Fx & Fy & Fz).
  apply is_finite_not_nan in Fx, Fy, Fz.
  destruct b as [[m1 m2 m3] [M1 M2 M3]], p as [p1 p2 p3], q as [q1 q2 q3].
  cbn [x y z] in *.
  unfold contains, vle, Expand, vmin, vmax, map2. cbn [Min Max x y z].
  intros H. split_andb.
  rewrite !min_below_old, !max_above_old by assumption. reflexivity.
Qed.

Lemma Expand_takes (b : AABB) (p : vec3) :
  vec3_all is_finite p = true -> contains (Expand b p) p = true.
Proof.
  intros F. apply vec3_all_inv in F. destruct F as (Fx & Fy & Fz).
  apply is_finite_not_nan in Fx, Fy, Fz.
  destruct b as [[m1 m2 m3] [M1 M2 M3]], p as [p1 p2 p3]. cbn [x y z] in *.
  unfold contains, vle, Expand, vmin, vmax, map2. cbn [Min Max x y z].
  rewrite !min_below_point, !max_above_point by assumption. reflexivity.
Qed.

Lemma ExpandAll_keeps (ps : list vec3) (b : AABB) (q : vec3) :
  forallb (vec3_all is_finite) ps = true -> contains b q = true ->
  contains (ExpandAll b ps) q = true.
Proof.
  revert b. induction ps as [|p ps IH]; intros b F H; cbn; trivial.
  cbn in F. apply andb_prop in F. destruct F as [Fp F].
  apply IH; trivial. now apply Expand_keeps.
Qed.

(** X10.  After [Expand(p)] for each point of a list of finite points, the
    box contains every point of the list, and every point it contained
    before. *)
Theorem ExpandAll_contains (ps : list vec3) (b : AABB) :
  forallb (vec3_all is_finite) ps = true ->
  (forall p, In p ps -> contains (ExpandAll b ps) p = true) /\
  (forall q, contains b q = true -> contains (ExpandAll b ps) q = true).
Proof.
  intros F. split; [|intros q; now apply ExpandAll_keeps].
  revert b F. induction ps as [|p0 ps IH]; intros b F p [].
  - subst p0. cbn in F. apply andb_prop in F. destruct F as [Fp F]. cbn.
    apply ExpandAll_keeps; trivial. now apply Expand_takes.
  - cbn in F. apply andb_prop in F. destruct F as [Fp F]. cbn. now apply IH.
Qed.

Lemma ExpandAll_contains_witness :
  (forall p, In p [splat (of_Z 2); splat (of_Z (-3))] ->
             contains (ExpandAll unit_box [splat (of_Z 2); splat (of_Z (-3))]) p = true) /\
  (forall q, contains unit_box q = true ->
             contains (ExpandAll unit_box [splat (of_Z 2); splat (of_Z (-3))]) q = true).
Proof.
  apply (ExpandAll_contains [splat (of_Z 2); splat (of_Z (-3))] unit_box).
  reflexivity.
Defined.

Lemma Expand_first (b : AABB) (p : vec3) :
  vec3_all valid p = true -> vec3_all is_finite p = true ->
  Expand (Initialize b) p = mk_AABB p p.
Proof.
  intros V F. destruct p as [p1 p2 p3].
  apply vec3_all_inv in V. apply vec3_all_inv in F. cbn [x y z] in *.
  assert (I : forall c, is_finite c = true -> is_inf c = false)
    by (intros c; destruct c; trivial; discriminate).
  unfold Expand, Initialize, vmin, vmax, map2, splat, glm.min, glm.max.
  cbn [Min Max x y z].
  rewrite !flt_maximum, !flt_minimum by (try apply I; tauto). reflexivity.
Qed.

(* Every component of the box is the component of a point of the list. *)
Lemma ExpandAll_from_points (ps seen : list vec3) (b : AABB) :
  (forall i, (exists p, In p seen /\ get (Min b) i = get p i) /\
             (exists p, In p seen /\ get (Max b) i = get p i)) ->
  forall i, (exists p, In p (seen ++ ps) /\ get (Min (ExpandAll b ps)) i = get p i) /\
            (exists p, In p (seen ++ ps) /\ get (Max (ExpandAll b ps)) i = get p i).
Proof.
  revert seen b. induction ps as [|q ps IH]; intros seen b H i.
  - rewrite app_nil_r. apply H.
  - cbn [ExpandAll fold_left].
    replace (seen ++ q :: ps) with ((seen ++ [q]) ++ ps)
      by (rewrite <- app_assoc; reflexivity).
    apply IH. clear i. intros i.
    destruct (H i) as ((pm & Im & Em) & (pM & IM & EM)).
    destruct b as [[m1 m2 m3] [M1 M2 M3]], q as [q1 q2 q3].
    unfold Expand, vmin, vmax, map2. cbn [Min Max x y z] in *.
    split.
    + destruct i as [|[|i]]; cbn [get x y z] in *;
        match goal with
        | |- context [glm.min ?a ?c] =>
            destruct (min_is_argument a c) as [-> | ->]
        end;
        try (exists (mk_vec3 q1 q2 q3); split;
             [apply in_or_app; right; now left|reflexivity]);
        exists pm; (split; [apply in_or_app; now left|assumption]).
    + destruct i as [|[|i]]; cbn [get x y z] in *;
        match goal with
        | |- context [glm.max ?a ?c] =>
            destruct (max_is_argument a c) as [-> | ->]
        end;
        try (exists (mk_vec3 q1 q2 q3); split;
             [apply in_or_app; right; now left|reflexivity]);
        exists pM; (split; [apply in_or_app; now left|assumption]).
Qed.

(** X11.  [Initialize()] followed by [Expand(p)] for each point of a list of
    finite points that is not empty gives the bounding box of the points: it
    contains each of them, and on every axis its [Min] and its [Max] are
    coordinates of points of the list. *)
Theorem Initialize_ExpandAll_bounds (b : AABB) (ps : list vec3) :
  (0 < List.length ps)%nat ->
  forallb (vec3_all valid) ps = true ->
  forallb (vec3_all is_finite) ps = true ->
  let r := ExpandAll (Initialize b) ps in
  (forall p, In p ps -> contains r p = true) /\
  (forall i, (exists p, In p ps /\ get (Min r) i = get p i) /\
             (exists p, In p ps /\ get (Max r) i = get p i)).
Proof.
  intros Ne V F r. split.
  - intros p Hp. revert p Hp. clear Ne V.
    assert (G : forall (l : list vec3) (b0 : AABB),
               forallb (vec3_all is_finite) l = true ->
               forall p, In p l -> contains (ExpandAll b0 l) p = true).
    { induction l as [|p0 l IH]; intros b0 Fl p [].
      - subst p0. cbn in Fl. apply andb_prop in Fl. destruct Fl as [Fp Fl]. cbn.
        apply ExpandAll_keeps; trivial. now apply Expand_takes.
      - cbn in Fl. apply andb_prop in Fl. destruct Fl as [Fp Fl]. cbn.
        now apply IH. }
    now apply G.
  - destruct ps as [|p0 ps]; [cbn in Ne; lia|].
    cbn in V, F. apply andb_prop in V, F. destruct V as [V0 V], F as [F0 F].
    unfold r. cbn [ExpandAll fold_left]. rewrite Expand_first by assumption.
    change (p0 :: ps) with ([p0] ++ ps).
    apply ExpandAll_from_points. intros i.
    split; exists p0; (split; [now left|reflexivity]).
Qed.

Lemma Initialize_ExpandAll_bounds_witness :
  let r := ExpandAll (Initialize unit_box) [splat (of_Z 2); splat (of_Z (-3))] in
  (forall p, In p [splat (of_Z 2); splat (of_Z (-3))] -> contains r p = true) /\
  (forall i, (exists p, In p [splat (of_Z 2); splat (of_Z (-3))] /\
                        get (Min r) i = get p i) /\
             (exists p, In p [splat (of_Z 2); splat (of_Z (-3))] /\
                        get (Max r) i = get p i)).
Proof.
  apply (Initialize_ExpandAll_bounds unit_box [splat (of_Z 2); splat (of_Z (-3))]);
    [cbn; lia|reflexivity|reflexivity].
Defined.

Lemma min_twice (p m : float) : glm.min p (glm.min p m) = glm.min p m.
Proof.
  unfold glm.min. destruct (flt m p) eqn:E; [now rewrite E|].
  destruct (flt p p); reflexivity.
Qed.

Lemma max_twice (p m : float) : glm.max p (glm.max p m) = glm.max p m.
Proof.
  unfold glm.max. destruct (flt p m) eqn:E; [now rewrite E|].
  destruct (flt p p); reflexivity.
Qed.

Lemma feq_key (a b : float) :
  feq a b = true <-> is_nan a = false /\ is_nan b = false /\ key a = key b.
Proof.
  unfold feq, SFeqb.
  destruct (is_nan a) eqn:Na; [destruct a; try discriminate; cbn; intuition discriminate|].
  destruct (is_nan b) eqn:Nb;
    [destruct b; try discriminate; destruct a; cbn; intuition discriminate|].
  rewrite SFcompare_key by assumption.
  rewrite <- lex3_Eq. destruct (lex3 (key a) (key b)); intuition discriminate.
Qed.

Lemma not_flt_key (a b : float) :
  is_nan a = false -> is_nan b = false ->
  flt a b = false -> ~ lex3_lt (key a) (key b).
Proof.
  intros Na Nb H L. assert (flt a b = true) by (apply flt_key; auto). congruence.
Qed.

Lemma triple_eq (a1 a2 a3 b1 b2 b3 : Z) :
  a1 = b1 -> a2 = b2 -> a3 = b3 -> (a1, a2, a3) = (b1, b2, b3).
Proof. congruence. Qed.

Lemma min_swap (p q m : float) :
  is_nan p = false -> is_nan q = false -> is_nan m = false ->
  feq (glm.min q (glm.min p m)) (glm.min p (glm.min q m)) = true.
Proof.
  intros Np Nq Nm. unfold glm.min.
  destruct (flt m p) eqn:A, (flt m q) eqn:B;
    rewrite ?A, ?B;
    repeat match goal with
           | |- context [flt ?u ?v] => destruct (flt u v) eqn:?
           end;
    apply feq_key; repeat split; trivial;
    repeat match goal with
           | H : flt _ _ = true |- _ => apply flt_key in H; destruct H as (_ & _ & H)
           | H : flt _ _ = false |- _ => apply not_flt_key in H; trivial
           end;
    destruct (key p) as [[p1 p2] p3], (key q) as [[q1 q2] q3],
             (key m) as [[m1 m2] m3];
    unfold lex3_lt in *; apply triple_eq; lia.
Qed.

Lemma max_swap (p q m : float) :
  is_nan p = false -> is_nan q = false -> is_nan m = false ->
  feq (glm.max q (glm.max p m)) (glm.max p (glm.max q m)) = true.
Proof.
  intros Np Nq Nm. unfold glm.max.
  destruct (flt p m) eqn:A, (flt q m) eqn:B;
    rewrite ?A, ?B;
    repeat match goal with
           | |- context [flt ?u ?v] => destruct (flt u v) eqn:?
           end;
    apply feq_key; repeat split; trivial;
    repeat match goal with
           | H : flt _ _ = true |- _ => apply flt_key in H; destruct H as (_ & _ & H)
           | H : flt _ _ = false |- _ => apply not_flt_key in H; trivial
           end;
    destruct (key p) as [[p1 p2] p3], (key q) as [[q1 q2] q3],
             (key m) as [[m1 m2] m3];
    unfold lex3_lt in *; apply triple_eq; lia.
Qed.

(** X12.  [Expand(p)] done twice is [Expand(p)] done once, whatever the box
    and the point hold. *)
Theorem Expand_idempotent (b : AABB) (p : vec3) :
  Expand (Expand b p) p = Expand b p.
Proof.
  destruct b as [[m1 m2 m3] [M1 M2 M3]], p as [p1 p2 p3].
  unfold Expand, vmin, vmax, map2. cbn [Min Max x y z].
  now rewrite !min_twice, !max_twice.
Qed.

(** X13.  The order of two calls of [Expand(p)]: when no component of the
    box and of the two points is NaN, both orders give boxes that are
    numerically equal on every axis; they can differ in the sign of a zero,
    and with a NaN component they can differ in value. *)
Theorem Expand_order :
  (forall b p q,
      box_all (fun c => negb (is_nan c)) b = true ->
      vec3_all (fun c => negb (is_nan c)) p = true ->
      vec3_all (fun c => negb (is_nan c)) q = true ->
      veq (Min (Expand (Expand b p) q)) (Min (Expand (Expand b q) p)) = true /\
      veq (Max (Expand (Expand b p) q)) (Max (Expand (Expand b q) p)) = true) /\
  Expand (Expand unit_box (splat zero)) (splat (S754_zero true)) <>
  Expand (Expand unit_box (splat (S754_zero true))) (splat zero) /\
  veq (Min (Expand (Expand unit_box (splat nan)) (splat one)))
      (Min (Expand (Expand unit_box (splat one)) (splat nan))) = false.
Proof.
  split; [|split; [vm_compute; discriminate|reflexivity]].
  intros [[m1 m2 m3] [M1 M2 M3]] [p1 p2 p3] [q1 q2 q3] Hb Hp Hq.
  apply box_all_inv in Hb. destruct Hb as [Hm HM].
  apply vec3_all_inv in Hm, HM, Hp, Hq. cbn [x y z] in *.
  rewrite !negb_true_iff in *.
  unfold Expand, vmin, vmax, map2, veq. cbn [Min Max x y z].
  rewrite !min_swap, !max_swap by tauto. split; reflexivity.
Qed.

Lemma Expand_order_witness :
  veq (Min (Expand (Expand unit_box (splat half)) (splat (of_Z (-3)))))
      (Min (Expand (Expand unit_box (splat (of_Z (-3)))) (splat half))) = true /\
  veq (Max (Expand (Expand unit_box (splat half)) (splat (of_Z (-3)))))
      (Max (Expand (Expand unit_box (splat (of_Z (-3)))) (splat half))) = true.
Proof.
  apply (proj1 Expand_order unit_box (splat half) (splat (of_Z (-3))));
    reflexivity.
Defined.

(** *** HalvedSurface *)

Lemma fadd_sign_clear (a b : float) :
  is_nan a = false -> is_nan b = false ->
  sign_bit a = false -> sign_bit b = false ->
  is_nan (fadd a b) = false /\ sign_bit (fadd a b) = false.
Proof.
  destruct a as [sa|sa| |sa ma ea], b as [sb|sb| |sb mb eb]; try discriminate;
    cbn [sign_bit]; intros _ _ -> ->; try (split; reflexivity).
  unfold fadd, SFadd. cbn [cond_Zopp].
  change (Zpos (fst (shl_align ma ea (Z.min ea eb))) +
          Zpos (fst (shl_align mb eb (Z.min ea eb))))
    with (Zpos (fst (shl_align ma ea (Z.min ea eb)) +
                fst (shl_align mb eb (Z.min ea eb)))).
  cbn [binary_normalize]. unfold binary_round.
  match goal with
  | |- context [shl_align ?m ?e ?f] =>
      destruct (shl_align m e f) as [mz ez']
  end.
  apply binary_round_aux_sign. lia.
Qed.

Lemma fmul_sign_clear (a b : float) :
  is_nan a = false -> is_nan b = false ->
  sign_bit a = false -> sign_bit b = false ->
  is_inf a = false -> is_inf b = false ->
  is_nan (fmul a b) = false /\ sign_bit (fmul a b) = false.
Proof.
  destruct a as [sa|sa| |sa ma ea], b as [sb|sb| |sb mb eb]; try discriminate;
    cbn [sign_bit]; intros _ _ -> -> _ _; try (split; reflexivity).
  apply binary_round_aux_sign. lia.
Qed.

(* One extent of [HalvedSurface]. *)
Lemma max_zero_extent (d : float) :
  is_nan (glm.max zero d) = false /\ sign_bit (glm.max zero d) = false /\
  (is_finite d = true -> is_inf (glm.max zero d) = false).
Proof.
  unfold glm.max. destruct (flt zero d) eqn:E; [|repeat split].
  destruct d as [s|s| |s m e]; try discriminate; destruct s; try discriminate;
    repeat split; discriminate.
Qed.

Lemma HalvedSurface_sign (b : AABB) :
  vec3_all is_finite (vsub (Max b) (Min b)) = true ->
  is_nan (HalvedSurface b) = false /\ sign_bit (HalvedSurface b) = false.
Proof.
  intros F. unfold HalvedSurface.
  set (d := vsub (Max b) (Min b)) in *.
  destruct d as [d1 d2 d3]. apply vec3_all_inv in F. cbn [x y z] in F.
  destruct F as (F1 & F2 & F3).
  unfold vmax, map2, splat. cbn [x y z get].
  destruct (max_zero_extent d1) as (N1 & S1 & I1).
  destruct (max_zero_extent d2) as (N2 & S2 & I2).
  destruct (max_zero_extent d3) as (N3 & S3 & I3).
  specialize (I1 F1). specialize (I2 F2). specialize (I3 F3).
  destruct (fmul_sign_clear _ _ N1 N2 S1 S2 I1 I2) as [Na Sa].
  destruct (fmul_sign_clear _ _ N2 N3 S2 S3 I2 I3) as [Nb Sb].
  destruct (fmul_sign_clear _ _ N3 N1 S3 S1 I3 I1) as [Nc Sc].
  destruct (fadd_sign_clear _ _ Na Nb Sa Sb) as [Nab Sab].
  exact (fadd_sign_clear _ _ Nab Nc Sab Sc).
Qed.

(** X14.  For a box whose extent [Max - Min] is finite on every axis,
    [HalvedSurface] is not NaN and not negative; but there is a finite box,
    with [Min <= Max], whose extent overflows on one axis and is zero on
    another, for which it is NaN. *)
Theorem HalvedSurface_not_negative :
  (forall b,
      vec3_all is_finite (vsub (Max b) (Min b)) = true ->
      is_nan (HalvedSurface b) = false /\ fle zero (HalvedSurface b) = true) /\
  (exists b,
      box_all finite_number b = true /\ vle (Min b) (Max b) = true /\
      is_nan (HalvedSurface b) = true).
Proof.
  split.
  - intros b F. destruct (HalvedSurface_sign b F) as [N S].
    split; [exact N|now apply fle_zero_nonneg].
  - exists (mk_AABB (mk_vec3 zero minimum zero) (mk_vec3 zero maximum zero)).
    repeat split.
Qed.

Lemma HalvedSurface_not_negative_witness :
  is_nan (HalvedSurface unit_box) = false /\
  fle zero (HalvedSurface unit_box) = true.
Proof.
  apply (proj1 HalvedSurface_not_negative unit_box). reflexivity.
Defined.

Lemma extent_not_positive (M m : float) :
  valid M = true -> valid m = true -> fle M m = true ->
  glm.max zero (fsub M m) = zero.
Proof.
  intros VM Vm L. unfold glm.max.
  destruct (flt zero (fsub M m)) eqn:E; trivial. exfalso.
  destruct (flt M m) eqn:Lt.
  - destruct (fsub_sign M m VM Vm Lt) as (_ & N & _ & S & _).
    destruct (fsub M m) as [s|s| |s mm ee]; cbn [sign_bit] in S; subst;
      discriminate.
  - apply fle_key in L. destruct L as (NM & Nm & L).
    assert (Q : feq m M = true).
    { apply feq_key. repeat split; trivial.
      destruct L as [L|L]; [|congruence].
      apply not_flt_key in Lt; tauto. }
    destruct (fsub_equal m M Q) as [H|H];
      destruct (fsub M m); try discriminate.
Qed.

(** X15.  A box that is empty or reduced to a point on every axis
    ([Max <= Min]), such as the box [Initialize()] leaves, has
    [HalvedSurface] equal to [+0.0]. *)
Theorem HalvedSurface_empty (b : AABB) :
  box_all valid b = true -> vle (Max b) (Min b) = true ->
  HalvedSurface b = zero.
Proof.
  intros V L. destruct b as [[m1 m2 m3] [M1 M2 M3]].
  apply box_all_inv in V. destruct V as [Vm VM].
  apply vec3_all_inv in Vm, VM. unfold vle in L. cbn [Min Max x y z] in *.
  split_andb.
  unfold HalvedSurface, vmax, vsub, map2, splat. cbn [Min Max x y z get].
  rewrite !extent_not_positive by tauto. reflexivity.
Qed.

Lemma HalvedSurface_empty_witness :
  HalvedSurface (Initialize unit_box) = zero.
Proof.
  apply (HalvedSurface_empty (Initialize unit_box)); reflexivity.
Defined.

(** *** Intersect: the length and the boxes behind the ray *)

Lemma flt_fle_trans (a b c : float) :
  flt a b = true -> fle b c = true -> flt a c = true.
Proof.
  rewrite fle_key, !flt_key. intros (Na & Nb & H1) (_ & Nc & [H2|H2]);
    repeat split; trivial.
  - eapply lex3_lt_trans; eassumption.
  - rewrite <- H2. assumption.
Qed.

Lemma flt_trans (a b c : float) :
  flt a b = true -> flt b c = true -> flt a c = true.
Proof. intros H1 H2. apply flt_fle_trans with b; trivial. now apply flt_fle. Qed.

(** X16.  A hit stays a hit, with the same value in [min], when the length
    grows; a NaN length never hits. *)
Theorem Intersect_longer (tls : ThreadLocals) (b : AABB) (ray : MiniRay)
    (length length' : float) :
  (fst (Intersect tls b ray length) = true -> fle length length' = true ->
   Intersect tls b ray length' = Intersect tls b ray length) /\
  fst (Intersect tls b ray nan) = false.
Proof.
  unfold Intersect. cbn [fst]. split.
  - intros H L. apply andb_prop in H. destruct H as [H1 H2].
    rewrite H1. cbn [andb]. rewrite H2.
    match goal with
    | H : flt ?m length = true |- _ => now rewrite (flt_fle_trans m length length' H L)
    end.
  - match goal with
    | |- _ && flt ?m nan = false =>
        replace (flt m nan) with false by (destruct m; reflexivity)
    end.
    apply andb_false_r.
Qed.

Lemma Intersect_longer_witness :
  Intersect (mk_tls (splat one)) unit_box (mk_ray (splat (of_Z (-1))) (splat one))
            (of_Z 7) =
  Intersect (mk_tls (splat one)) unit_box (mk_ray (splat (of_Z (-1))) (splat one))
            (of_Z 2).
Proof.
  apply (proj1 (Intersect_longer (mk_tls (splat one)) unit_box
                  (mk_ray (splat (of_Z (-1))) (splat one)) (of_Z 2) (of_Z 7)));
    reflexivity.
Defined.

Lemma flt_zero_nan_free (a : float) : flt zero a = true -> is_nan a = false.
Proof. destruct a; trivial; discriminate. Qed.

Lemma min_not_positive_l (a c : float) :
  is_nan a = false -> flt zero a = false -> flt zero (glm.min a c) = false.
Proof.
  intros Na H. unfold glm.min. destruct (flt c a) eqn:E; trivial.
  destruct (flt zero c) eqn:P; trivial.
  rewrite (flt_trans zero c a P E) in H. discriminate.
Qed.

Lemma min_not_positive_r (a c : float) :
  is_nan c = false -> flt zero c = false -> flt zero (glm.min a c) = false.
Proof.
  intros Nc H. unfold glm.min. destruct (flt c a) eqn:E; trivial.
  destruct (flt zero a) eqn:P; trivial.
  pose proof (flt_zero_nan_free a P) as Na.
  assert (L : fle a c = true) by (apply not_flt_fle; trivial).
  rewrite (flt_fle_trans zero a c P L) in H. discriminate.
Qed.

Lemma min_not_nan (a c : float) :
  is_nan a = false -> is_nan (glm.min a c) = false.
Proof.
  intros Na. unfold glm.min. destruct (flt c a) eqn:E; trivial.
  apply flt_key in E. tauto.
Qed.

(* The crossing distance to the far face of an axis behind which the box
   lies. *)
Lemma behind_crossing (inv lo hi pos : float) :
  valid lo = true -> valid hi = true -> valid pos = true ->
  behind inv lo hi pos = true ->
  let t := crossing (if flt zero inv then hi else lo) pos inv in
  is_nan t = false /\ flt zero t = false.
Proof.
  intros Vlo Vhi Vpos B t. unfold behind in B.
  assert (K : is_nan t = false /\ sign_bit t = true).
  { unfold t, crossing. apply orb_prop in B. destruct B as [B|B];
      apply andb_prop in B; destruct B as [I L].
    - rewrite I.
      destruct (fsub_sign hi pos Vhi Vpos L) as (_ & N & Z & S & _).
      destruct (fmul_sign (fsub hi pos) inv) as [N' S']; trivial;
        try (destruct inv as [s|s| |s m e]; try discriminate; reflexivity).
      split; trivial. rewrite S', S.
      destruct inv as [s|s| |s m e]; try discriminate; destruct s;
        try discriminate; reflexivity.
    - assert (I' : flt zero inv = false)
        by (destruct inv as [s|s| |s m e]; try discriminate; destruct s;
            try discriminate; reflexivity).
      rewrite I'.
      destruct (fsub_sign pos lo Vpos Vlo L) as (_ & _ & _ & _ & _ & N & Z & S).
      destruct (fmul_sign (fsub lo pos) inv) as [N' S']; trivial;
        try (destruct inv as [s|s| |s m e]; try discriminate; reflexivity).
      split; trivial. rewrite S', S.
      destruct inv as [s|s| |s m e]; try discriminate; destruct s;
        try discriminate; reflexivity. }
  destruct K as [N S]. split; trivial.
  destruct t as [s|s| |s m e]; try discriminate; cbn [sign_bit] in S; subst;
    reflexivity.
Qed.

(** X17.  A box that lies behind the origin of the ray along the x axis or
    along the z axis is missed, whatever the length and the other axes; the
    same holds along the y axis when the crossing distance to the far x
    face is not NaN. *)
Theorem Intersect_box_behind (tls : ThreadLocals) (b : AABB) (ray : MiniRay)
    (length : float) :
  box_all valid b = true -> vec3_all valid (Position ray) = true ->
  let inv := get_Inverse tls ray in
  let pos := Position ray in
  behind (x inv) (x (Min b)) (x (Max b)) (x pos) = true \/
  behind (z inv) (z (Min b)) (z (Max b)) (z pos) = true \/
  (behind (y inv) (y (Min b)) (y (Max b)) (y pos) = true /\
   is_nan (crossing (far_face (x inv) (x (Min b)) (x (Max b))) (x pos) (x inv))
     = false) ->
  fst (Intersect tls b ray length) = false.
Proof.
  intros Vb Vp inv pos H.
  destruct b as [[m1 m2 m3] [M1 M2 M3]].
  apply box_all_inv in Vb. destruct Vb as [Vm VM].
  apply vec3_all_inv in Vm, VM, Vp. cbn [Min Max x y z] in *.
  fold pos in Vp.
  unfold Intersect. cbn [fst Min Max x y z]. fold inv pos.
  match goal with
  | |- _ && flt zero ?t && _ = false =>
      assert (F : flt zero t = false); [|now rewrite F, andb_false_r]
  end.
  unfold far_face in H.
  destruct H as [B|[B|[B N]]].
  - destruct (behind_crossing (x inv) m1 M1 (x pos)) as [Nx Px]; try tauto.
    cbv zeta in Nx, Px.
    apply min_not_positive_r.
    + now apply min_not_nan.
    + now apply min_not_positive_l.
  - destruct (behind_crossing (z inv) m3 M3 (z pos)) as [Nz Pz]; try tauto.
    cbv zeta in Nz, Pz.
    now apply min_not_positive_l.
  - destruct (behind_crossing (y inv) m2 M2 (y pos)) as [Ny Py]; try tauto.
    cbv zeta in Ny, Py.
    apply min_not_positive_r.
    + now apply min_not_nan.
    + now apply min_not_positive_r.
Qed.

Lemma Intersect_box_behind_witness :
  fst (Intersect (mk_tls (mk_vec3 one pinf ninf)) unit_box
                 (mk_ray (mk_vec3 (of_Z 5) half half) (mk_vec3 one zero zero))
                 (of_Z 100)) = false.
Proof.
  apply (Intersect_box_behind (mk_tls (mk_vec3 one pinf ninf)) unit_box
           (mk_ray (mk_vec3 (of_Z 5) half half) (mk_vec3 one zero zero))
           (of_Z 100)); [reflexivity|reflexivity|].
  left. reflexivity.
Defined.

(** *** morton3D: cells, order and octants *)

Lemma morton3D_of_cells (x y z : float) (xi yi zi : Z) :
  truncate (scale_clamp x) = Some xi -> truncate (scale_clamp y) = Some yi ->
  truncate (scale_clamp z) = Some zi ->
  0 <= xi <= 1023 -> 0 <= yi <= 1023 -> 0 <= zi <= 1023 ->
  morton3D x y z = Some (spread xi * 4 + spread yi * 2 + spread zi) /\
  0 <= spread xi * 4 + spread yi * 2 + spread zi < 2 ^ 30.
Proof.
  intros Ex Ey Ez Hx Hy Hz.
  destruct (expandBits_spread xi) as (Sx & Rx & _); [lia|].
  destruct (expandBits_spread yi) as (Sy & Ry & _); [lia|].
  destruct (expandBits_spread zi) as (Sz & Rz & _); [lia|].
  split; [|change (2 ^ 30) with 1073741824; lia].
  unfold morton3D. rewrite Ex, Ey, Ez, Sx, Sy, Sz.
  unfold wrap32. change (2 ^ 32) with 4294967296.
  rewrite (Z.mod_small (spread xi * 4)) by lia.
  rewrite (Z.mod_small (spread yi * 2)) by lia.
  rewrite (Z.mod_small (spread xi * 4 + spread yi * 2)) by lia.
  rewrite Z.mod_small by lia. reflexivity.
Qed.

Lemma cell_of_bits (a b : Z) :
  0 <= a < 1024 -> 0 <= b < 1024 ->
  (forall i, 0 <= i < 10 -> Z.testbit a i = Z.testbit b i) -> a = b.
Proof.
  intros Ha Hb H. apply Z.bits_inj'. intros i Hi.
  destruct (Z.lt_ge_cases i 10) as [Lt|Ge]; [apply H; lia|].
  rewrite (testbit_above a 10 i), (testbit_above b 10 i) by (change (2 ^ 10) with 1024; lia).
  reflexivity.
Qed.

Lemma code_cells (xi yi zi xi' yi' zi' : Z) :
  0 <= xi < 1024 -> 0 <= yi < 1024 -> 0 <= zi < 1024 ->
  0 <= xi' < 1024 -> 0 <= yi' < 1024 -> 0 <= zi' < 1024 ->
  spread xi * 4 + spread yi * 2 + spread zi =
  spread xi' * 4 + spread yi' * 2 + spread zi' ->
  xi = xi' /\ yi = yi' /\ zi = zi'.
Proof.
  intros Hx Hy Hz Hx' Hy' Hz' E.
  assert (B : forall j, 0 <= j ->
     (if j mod 3 =? 0 then Z.testbit zi (j / 3)
      else if j mod 3 =? 1 then Z.testbit yi (j / 3) else Z.testbit xi (j / 3)) =
     (if j mod 3 =? 0 then Z.testbit zi' (j / 3)
      else if j mod 3 =? 1 then Z.testbit yi' (j / 3) else Z.testbit xi' (j / 3))).
  { intros j Hj. rewrite <- !interleave_bits by assumption. now rewrite E. }
  repeat split; apply cell_of_bits; trivial; intros i Hi.
  - specialize (B (3 * i + 2) ltac:(lia)).
    replace ((3 * i + 2) mod 3) with 2 in B by (apply (Z.mod_unique _ _ i); lia).
    replace ((3 * i + 2) / 3) with i in B by (apply (Z.div_unique _ _ i 2); lia).
    exact B.
  - specialize (B (3 * i + 1) ltac:(lia)).
    replace ((3 * i + 1) mod 3) with 1 in B by (apply (Z.mod_unique _ _ i); lia).
    replace ((3 * i + 1) / 3) with i in B by (apply (Z.div_unique _ _ i 1); lia).
    exact B.
  - specialize (B (3 * i) ltac:(lia)).
    replace ((3 * i) mod 3) with 0 in B by (apply (Z.mod_unique _ _ i); lia).
    replace ((3 * i) / 3) with i in B by (apply (Z.div_unique _ _ i 0); lia).
    exact B.
Qed.

(** X18.  Two points without NaN get the same Morton code exactly when
    their three coordinates, scaled, clamped and truncated, give the same
    integers: no two cells of the 1024 x 1024 x 1024 grid share a code. *)
Theorem morton3D_injective (x y z x' y' z' : float) :
  is_nan x = false -> is_nan y = false -> is_nan z = false ->
  is_nan x' = false -> is_nan y' = false -> is_nan z' = false ->
  (morton3D x y z = morton3D x' y' z' <->
   truncate (scale_clamp x) = truncate (scale_clamp x') /\
   truncate (scale_clamp y) = truncate (scale_clamp y') /\
   truncate (scale_clamp z) = truncate (scale_clamp z')).
Proof.
  intros Nx Ny Nz Nx' Ny' Nz'. split.
  - destruct (scale_clamp_truncate x Nx) as (xi & Ex & Hx).
    destruct (scale_clamp_truncate y Ny) as (yi & Ey & Hy).
    destruct (scale_clamp_truncate z Nz) as (zi & Ez & Hz).
    destruct (scale_clamp_truncate x' Nx') as (xi' & Ex' & Hx').
    destruct (scale_clamp_truncate y' Ny') as (yi' & Ey' & Hy').
    destruct (scale_clamp_truncate z' Nz') as (zi' & Ez' & Hz').
    destruct (morton3D_of_cells x y z xi yi zi) as [-> _]; trivial.
    destruct (morton3D_of_cells x' y' z' xi' yi' zi') as [-> _]; trivial.
    intros E. inversion E as [E'].
    destruct (code_cells xi yi zi xi' yi' zi') as (-> & -> & ->); try lia.
    rewrite Ex, Ey, Ez, Ex', Ey', Ez'. auto.
  - intros (Ex & Ey & Ez). unfold morton3D. now rewrite Ex, Ey, Ez.
Qed.

Lemma morton3D_injective_witness :
  morton3D half one zero = morton3D half (of_Z 7) (of_Z (-3)) <->
  truncate (scale_clamp half) = truncate (scale_clamp half) /\
  truncate (scale_clamp one) = truncate (scale_clamp (of_Z 7)) /\
  truncate (scale_clamp zero) = truncate (scale_clamp (of_Z (-3))).
Proof.
  apply (morton3D_injective half one zero half (of_Z 7) (of_Z (-3)));
    reflexivity.
Defined.

Lemma spread_step_all :
  forallb spread_step (map Z.of_nat (seq 0 1023)) = true.
Proof. vm_compute. reflexivity. Qed.

Lemma spread_mono (a b : Z) : 0 <= a <= b -> b <= 1023 -> spread a <= spread b.
Proof.
  intros Hab Hb.
  assert (G : forall n : nat, a + Z.of_nat n <= 1023 ->
                              spread a <= spread (a + Z.of_nat n)).
  { induction n as [|n IH]; intros Hn.
    - rewrite Z.add_0_r. lia.
    - specialize (IH ltac:(lia)).
      pose proof spread_step_all as St. rewrite forallb_forall in St.
      specialize (St (a + Z.of_nat n)). unfold spread_step in St.
      assert (I : In (a + Z.of_nat n) (map Z.of_nat (seq 0 1023))).
      { apply in_map_iff. exists (Z.to_nat (a + Z.of_nat n)).
        split; [lia|]. apply in_seq. lia. }
      apply St in I. apply Z.ltb_lt in I.
      replace (a + Z.of_nat (S n)) with (a + Z.of_nat n + 1) by lia. lia. }
  specialize (G (Z.to_nat (b - a))). rewrite Z2Nat.id in G by lia.
  replace (a + (b - a)) with b in G by lia. apply G. lia.
Qed.

Lemma finite_number_inv (f : float) :
  finite_number f = true ->
  valid f = true /\ is_finite f = true /\ is_nan f = false.
Proof.
  unfold finite_number. intros H. apply andb_prop in H. destruct H as [V F].
  repeat split; trivial. now apply is_finite_not_nan.
Qed.

Lemma quantize_range (c : float) : 0 <= quantize c <= 1023.
Proof. unfold quantize. lia. Qed.

Lemma quantize_mono (c c' : float) :
  finite_number c = true -> finite_number c' = true -> fle c c' = true ->
  quantize c <= quantize c'.
Proof.
  intros H H' L. apply finite_number_inv in H, H'.
  destruct H as (V & F & _), H' as (V' & F' & _).
  apply fle_scaled in L; trivial. unfold quantize.
  assert (P : 0 < 2 ^ 149) by (apply pow2_pos; lia).
  assert (scaled c * 1024 / 2 ^ 149 <= scaled c' * 1024 / 2 ^ 149)
    by (apply Z.div_le_mono; lia).
  lia.
Qed.

Lemma morton3D_quantize (x y z : float) :
  finite_number x = true -> finite_number y = true -> finite_number z = true ->
  morton3D x y z =
    Some (spread (quantize x) * 4 + spread (quantize y) * 2 + spread (quantize z)).
Proof.
  intros Hx Hy Hz. apply finite_number_inv in Hx, Hy, Hz.
  destruct Hx as (Vx & Fx & _), Hy as (Vy & Fy & _), Hz as (Vz & Fz & _).
  apply morton3D_of_cells; try apply quantize_range;
    now apply scale_clamp_quantize.
Qed.

(** X19.  The Morton code grows with the coordinates: for finite points,
    [x <= x'], [y <= y'] and [z <= z'] give a code that is not above the
    code of the second point. *)
Theorem morton3D_monotone (x y z x' y' z' : float) :
  finite_number x = true -> finite_number y = true -> finite_number z = true ->
  finite_number x' = true -> finite_number y' = true -> finite_number z' = true ->
  fle x x' = true -> fle y y' = true -> fle z z' = true ->
  exists c c', morton3D x y z = Some c /\ morton3D x' y' z' = Some c' /\ c <= c'.
Proof.
  intros Hx Hy Hz Hx' Hy' Hz' Lx Ly Lz.
  rewrite !morton3D_quantize by assumption.
  do 2 eexists. split; [reflexivity|]. split; [reflexivity|].
  pose proof (quantize_range x). pose proof (quantize_range y).
  pose proof (quantize_range z). pose proof (quantize_range x').
  pose proof (quantize_range y'). pose proof (quantize_range z').
  pose proof (spread_mono (quantize x) (quantize x')
                ltac:(split; [lia|now apply quantize_mono]) ltac:(lia)).
  pose proof (spread_mono (quantize y) (quantize y')
                ltac:(split; [lia|now apply quantize_mono]) ltac:(lia)).
  pose proof (spread_mono (quantize z) (quantize z')
                ltac:(split; [lia|now apply quantize_mono]) ltac:(lia)).
  lia.
Qed.

Lemma morton3D_monotone_witness :
  exists c c', morton3D zero half zero = Some c /\
               morton3D half half one = Some c' /\ c <= c'.
Proof.
  apply (morton3D_monotone zero half zero half half one); reflexivity.
Defined.

Lemma bit9 (v : Z) : 0 <= v < 1024 -> Z.testbit v 9 = (512 <=? v).
Proof.
  intros Hv. change 512 with (2 ^ 9). destruct (Z.leb_spec (2 ^ 9) v) as [Ge|Lt].
  - apply Z.testbit_true; [lia|].
    assert (v / 2 ^ 9 = 1); [|now rewrite H].
    symmetry. apply (Z.div_unique v (2 ^ 9) 1 (v - 2 ^ 9));
      change (2 ^ 9) with 512 in *; lia.
  - apply Z.testbit_false; [lia|]. rewrite Z.div_small by lia. reflexivity.
Qed.

Lemma quantize_upper_half (c : float) :
  finite_number c = true -> (512 <=? quantize c) = fle half c.
Proof.
  intros H. apply finite_number_inv in H. destruct H as (V & F & _).
  assert (P : 0 < 2 ^ 149) by (apply pow2_pos; lia).
  assert (S : scaled half = 2 ^ 148) by reflexivity.
  assert (P2 : 2 ^ 149 = 2 * 2 ^ 148) by reflexivity.
  pose proof (fle_scaled half c eq_refl V eq_refl F) as L. rewrite S in L.
  unfold quantize.
  destruct (fle half c) eqn:E.
  - apply Z.leb_le. assert (2 ^ 148 <= scaled c) by (apply L; reflexivity).
    assert (512 <= scaled c * 1024 / 2 ^ 149)
      by (apply Z.div_le_lower_bound; lia).
    lia.
  - apply Z.leb_gt.
    assert (scaled c < 2 ^ 148).
    { destruct (Z.lt_ge_cases (scaled c) (2 ^ 148)); trivial.
      assert (false = true) by (apply L; lia). discriminate. }
    assert (scaled c * 1024 / 2 ^ 149 < 512)
      by (apply Z.div_lt_upper_bound; lia).
    lia.
Qed.

(** X20.  The three leading bits of the Morton code of a finite point tell
    its octant: bit 29 is set exactly when [0.5 <= x], bit 28 when
    [0.5 <= y] and bit 27 when [0.5 <= z]. *)
Theorem morton3D_octant (x y z : float) :
  finite_number x = true -> finite_number y = true -> finite_number z = true ->
  exists c, morton3D x y z = Some c /\
            Z.testbit c 29 = fle half x /\
            Z.testbit c 28 = fle half y /\
            Z.testbit c 27 = fle half z.
Proof.
  intros Hx Hy Hz. rewrite morton3D_quantize by assumption.
  eexists. split; [reflexivity|].
  pose proof (quantize_range x). pose proof (quantize_range y).
  pose proof (quantize_range z).
  rewrite !interleave_bits by lia.
  change (29 mod 3 =? 0) with false. change (29 mod 3 =? 1) with false.
  change (28 mod 3 =? 0) with false. change (28 mod 3 =? 1) with true.
  change (27 mod 3 =? 0) with true.
  change (29 / 3) with 9. change (28 / 3) with 9. change (27 / 3) with 9.
  cbv iota. rewrite !bit9 by lia.
  now rewrite !quantize_upper_half by assumption.
Qed.

Lemma morton3D_octant_witness :
  exists c, morton3D half zero one = Some c /\
            Z.testbit c 29 = fle half half /\
            Z.testbit c 28 = fle half zero /\
            Z.testbit c 27 = fle half one.
Proof. apply (morton3D_octant half zero one); reflexivity. Defined.

(** *** Nomalize: the corners, and the Morton code of a point of the box *)

Lemma fsub_self (m : float) : is_finite m = true -> fsub m m = zero.
Proof.
  destruct m as [s|s| |s m e]; try discriminate; intros _.
  - destruct s; reflexivity.
  - unfold fsub, SFsub. rewrite Z.min_id, shl_align_id by lia. cbn [fst].
    rewrite Z.sub_diag. reflexivity.
Qed.

Lemma fdiv_self (m : positive) (e : Z) :
  valid (S754_finite false m e) = true ->
  fdiv (S754_finite false m e) (S754_finite false m e) = one.
Proof.
  intros V.
  destruct (fdiv_finite false false m m e e)
    as (q & e' & s & r & m2 & E & Ediv & Hs & Es & Hq & Hr & Hq0 & He' & HE & _ & _
        & _ & _ & _ & Hex).
  rewrite fexp_eq in He', HE.
  replace (Zdigits2 (Zpos m) + e - (Zdigits2 (Zpos m) + e)) with 0 in He' by lia.
  assert (Ps : 0 < 2 ^ s) by (apply pow2_pos; lia).
  assert (Q : q = 2 ^ s /\ r = 0).
  { revert Hq Ps. generalize (2 ^ s). intros P Hq Ps.
    destruct (Z.lt_trichotomy q P) as [Lt|[Eq|Gt]]; [|subst; lia|]; nia. }
  destruct Q as [-> ->].
  assert (Hd : Zdigits2 (2 ^ s) = s + 1).
  { replace (2 ^ s) with (1 * 2 ^ s) by lia.
    rewrite Zdigits2_mul_pow2 by lia. change (Zdigits2 1) with 1. lia. }
  rewrite Hd in HE.
  assert (EE : E = -23) by lia.
  rewrite Ediv, (Hex eq_refl), EE.
  replace (2 ^ s) with (2 ^ 23 * 2 ^ (-23 - e'))
    by (rewrite <- Z.pow_add_r by lia; f_equal; lia).
  rewrite rne_shift_exact by lia. reflexivity.
Qed.

Lemma normalize_corners (m M : float) :
  valid m = true -> valid M = true -> flt m M = true ->
  is_finite (fsub M m) = true ->
  fdiv (fsub m m) (fsub M m) = zero /\ fdiv (fsub M m) (fsub M m) = one.
Proof.
  intros Vm VM L F.
  destruct (fsub_finite_inv M m F) as [FM Fm].
  destruct (fsub_sign m M Vm VM L) as (_ & _ & _ & _ & V & N & Z & S).
  destruct (finite_positive_shape (fsub M m) F Z S) as (mm & ee & E).
  rewrite (fsub_self m Fm), E in *. split; [reflexivity|now apply fdiv_self].
Qed.

Lemma Nomalize_corners_pair (b : AABB) :
  box_all valid b = true -> vlt (Min b) (Max b) = true ->
  vec3_all is_finite (vsub (Max b) (Min b)) = true ->
  Nomalize b (Min b) = splat zero /\ Nomalize b (Max b) = splat one.
Proof.
  destruct b as [[m1 m2 m3] [M1 M2 M3]]. intros Hb Hlt Hext.
  apply box_all_inv in Hb. destruct Hb as [Hm HM].
  apply vec3_all_inv in Hm, HM, Hext.
  unfold vlt in Hlt. cbn [Min Max x y z vsub map2] in *. split_andb.
  unfold Nomalize, vdiv, vsub, map2, splat. cbn [Min Max x y z].
  destruct (normalize_corners m1 M1) as [-> ->]; try tauto.
  destruct (normalize_corners m2 M2) as [-> ->]; try tauto.
  destruct (normalize_corners m3 M3) as [-> ->]; try tauto.
Qed.

(** X21.  In a box with [Min < Max] on every axis whose extent is finite,
    [Nomalize] sends the corner [Min] to [(0, 0, 0)] and the corner [Max] to
    [(1, 1, 1)], exactly. *)
Theorem Nomalize_corners (b : AABB) :
  box_all valid b = true -> vlt (Min b) (Max b) = true ->
  vec3_all is_finite (vsub (Max b) (Min b)) = true ->
  Nomalize b (Min b) = splat zero /\ Nomalize b (Max b) = splat one.
Proof. exact (Nomalize_corners_pair b). Qed.

Lemma Nomalize_corners_witness :
  Nomalize (mk_AABB (splat (of_Z (-3))) (splat (of_Z 7))) (splat (of_Z (-3)))
    = splat zero /\
  Nomalize (mk_AABB (splat (of_Z (-3))) (splat (of_Z 7))) (splat (of_Z 7))
    = splat one.
Proof.
  apply (Nomalize_corners (mk_AABB (splat (of_Z (-3))) (splat (of_Z 7))));
    reflexivity.
Defined.

(** X22.  [Nomalize] followed by [morton3D]: for a box with [Min < Max] on
    every axis whose extent is finite and a point of the box, the code is
    defined and below [2 ^ 30]; the corner [Min] gets the code 0 and the
    corner [Max] the code [2 ^ 30 - 1]. *)
Theorem morton3D_of_Nomalize (b : AABB) (p : vec3) :
  box_all valid b = true -> vec3_all valid p = true ->
  vlt (Min b) (Max b) = true -> contains b p = true ->
  vec3_all is_finite (vsub (Max b) (Min b)) = true ->
  (exists c,
      morton3D (x (Nomalize b p)) (y (Nomalize b p)) (z (Nomalize b p)) = Some c /\
      0 <= c < 2 ^ 30) /\
  morton3D (x (Nomalize b (Min b))) (y (Nomalize b (Min b)))
           (z (Nomalize b (Min b))) = Some 0 /\
  morton3D (x (Nomalize b (Max b))) (y (Nomalize b (Max b)))
           (z (Nomalize b (Max b))) = Some (2 ^ 30 - 1).
Proof.
  intros Hb Hp Hlt Hin Hext. split.
  - destruct b as [[m1 m2 m3] [M1 M2 M3]], p as [p1 p2 p3].
    apply box_all_inv in Hb. destruct Hb as [Hm HM].
    apply vec3_all_inv in Hm, HM, Hp, Hext.
    unfold vlt, contains, vle in *. cbn [Min Max x y z vsub map2] in *.
    split_andb.
    unfold Nomalize, vdiv, vsub, map2. cbn [Min Max x y z].
    destruct (normalize_component m1 M1 p1) as (F1 & _); try tauto.
    destruct (normalize_component m2 M2 p2) as (F2 & _); try tauto.
    destruct (normalize_component m3 M3 p3) as (F3 & _); try tauto.
    cbv zeta in F1, F2, F3.
    apply is_finite_not_nan in F1, F2, F3.
    destruct (scale_clamp_truncate _ F1) as (xi & Ex & Hx).
    destruct (scale_clamp_truncate _ F2) as (yi & Ey & Hy).
    destruct (scale_clamp_truncate _ F3) as (zi & Ez & Hz).
    eexists. apply morton3D_of_cells; eassumption.
  - destruct (Nomalize_corners_pair b Hb Hlt Hext) as [-> ->].
    split; vm_compute; reflexivity.
Qed.

Lemma morton3D_of_Nomalize_witness :
  let b := mk_AABB (splat (of_Z (-3))) (splat (of_Z 7)) in
  (exists c,
      morton3D (x (Nomalize b (splat one))) (y (Nomalize b (splat one)))
               (z (Nomalize b (splat one))) = Some c /\
      0 <= c < 2 ^ 30) /\
  morton3D (x (Nomalize b (Min b))) (y (Nomalize b (Min b)))
           (z (Nomalize b (Min b))) = Some 0 /\
  morton3D (x (Nomalize b (Max b))) (y (Nomalize b (Max b)))
           (z (Nomalize b (Max b))) = Some (2 ^ 30 - 1).
Proof.
  apply (morton3D_of_Nomalize (mk_AABB (splat (of_Z (-3))) (splat (of_Z 7)))
           (splat one)); reflexivity.
Defined.
